(** * Storage core of the cmu15-445 teaching database: buffer-pool replacer,
      extendible hash table and B+Tree pages, embedded from the C++ sources.

    Each C++ class becomes a record, each member function a Rocq function on
    that record.  Objects that the C++ code shares through pointers (hash
    buckets behind [std::shared_ptr], list nodes behind iterators, pages
    behind the buffer pool) live in an explicit store and are named by their
    address. *)

From stdpp Require Import gmap list strings.

(** * LRU replacer  (src/buffer/lru_replacer.cpp) *)

Module LRU.

(** A [std::list<T>] node is identified by its address; a list iterator is
    such an address and stays valid until that very node is erased. *)
Definition iterator := nat.

Section replacer.
Context `{Countable T}.

(** Modelled from the spec: the class declaration (lru_replacer.h) is not
    among the sources; the members are the "doubly-linked list with a map
    from element to list position" of the spec, as lru_replacer.cpp uses
    them.  [list_] is the [std::list<T>] (front first), every node paired
    with its address; [map_] sends a value to the iterator of its node;
    [next_node_] is the address the allocator hands out at the next
    [push_front]. *)
Record LRUReplacer := mkLRUReplacer {
  list_ : list (iterator * T);
  map_ : gmap T iterator;
  next_node_ : iterator
}.

(** [LRUReplacer<T>::LRUReplacer()] *)
Definition LRUReplacer_new : LRUReplacer :=
  {| list_ := []; map_ := ∅; next_node_ := 0 |}.

(** [list_.erase(it)]: unlink the node that lives at address [it]. *)
Definition list_erase (it : iterator) (l : list (iterator * T)) : list (iterator * T) :=
  filter (λ p, p.1 ≠ it) l.

(** [LRUReplacer<T>::Insert]:
      auto iter = map_.find(value);
      list_.push_front(value);
      if (iter != map_.end()) list_.erase(iter->second);
      map_[value] = list_.begin(); *)
Definition Insert (value : T) (s : LRUReplacer) : LRUReplacer :=
  let iter := map_ s !! value in
  let node := next_node_ s in
  let pushed := (node, value) :: list_ s in
  let l := match iter with
           | Some it => list_erase it pushed
           | None => pushed
           end in
  let begin := match l with
               | (n, _) :: _ => n
               | [] => node
               end in
  {| list_ := l; map_ := <[value := begin]> (map_ s); next_node_ := S node |}.

(** [LRUReplacer<T>::Victim]: [None] stands for the [false] return; on
    success the last node is popped and its value leaves [map_]. *)
Definition Victim (s : LRUReplacer) : option T * LRUReplacer :=
  match last (list_ s) with
  | None => (None, s)
  | Some (_, value) =>
      (Some value,
       {| list_ := removelast (list_ s);
          map_ := delete value (map_ s);
          next_node_ := next_node_ s |})
  end.

(** [LRUReplacer<T>::Erase] *)
Definition Erase (value : T) (s : LRUReplacer) : bool * LRUReplacer :=
  match map_ s !! value with
  | None => (false, s)
  | Some it =>
      (true,
       {| list_ := list_erase it (list_ s);
          map_ := delete value (map_ s);
          next_node_ := next_node_ s |})
  end.

(** [LRUReplacer<T>::Size] *)
Definition Size (s : LRUReplacer) : nat := length (list_ s).

(** ** Histories of calls *)

Inductive Op := OpInsert (x : T) | OpVictim | OpErase (x : T).

Definition step (s : LRUReplacer) (o : Op) : LRUReplacer :=
  match o with
  | OpInsert x => Insert x s
  | OpVictim => (Victim s).2
  | OpErase x => (Erase x s).2
  end.

Definition run (ops : list Op) : LRUReplacer := foldl step LRUReplacer_new ops.

(** The order the contract speaks of, computed from the history alone: the
    live values, the one whose last [Insert] is oldest first.  An [Insert]
    makes its value the most recent one, a [Victim] takes the oldest away,
    an [Erase] takes its value away. *)
Definition last_insert_order_step (q : list T) (o : Op) : list T :=
  match o with
  | OpInsert x => filter (λ y, y ≠ x) q ++ [x]
  | OpVictim => tail q
  | OpErase x => filter (λ y, y ≠ x) q
  end.

Definition last_insert_order (ops : list Op) : list T :=
  foldl last_insert_order_step [] ops.

(** The values held, front of [list_] first. *)
Definition elems (s : LRUReplacer) : list T := (list_ s).*2.

(** Representation invariant: node addresses are pairwise distinct and
    already allocated, and [map_] knows exactly the nodes of [list_]. *)
Record Inv (s : LRUReplacer) : Prop := {
  inv_nodup : NoDup (list_ s).*1;
  inv_map : ∀ v n, map_ s !! v = Some n ↔ (n, v) ∈ list_ s;
  inv_fresh : ∀ n v, (n, v) ∈ list_ s → n < next_node_ s
}.

(** The replacer's list, read back to front, is the last-insert order. *)
Definition abstracts (s : LRUReplacer) (q : list T) : Prop :=
  Inv s ∧ elems s = reverse q.

End replacer.

Arguments LRUReplacer T {_ _}.
Arguments Op T : clear implicits.

End LRU.

(** * Extendible hash table
      (src/hash/extendible_hash.cpp and include/hash/extendible_hash.h) *)

Module Hash.

Local Open Scope Z_scope.

(** Machine integers are read as mathematical integers.  Depths, slot
    numbers and sizes are [int]s and [size_t]s that stay non-negative and
    small in every table a program can hold in memory; the one place where
    the width shows, the 32-bit mask of [GETBIT], is written out. *)

(** The three macros of extendible_hash.h.  In [GETBIT] the literal
    [0xFFFFFFFF] is a 32-bit unsigned int, so the shift and the complement
    work modulo [2^32]; the result is then and-ed with the [size_t] hash.

      #define SETBIT(x, y) (x | (1 << (y)))
      #define GETBIT(x, y) (x & ~(0xFFFFFFFF << (y+1)))
      #define ISZERO(x, y) (!(x & (1 << (y))))  *)
Definition SETBIT (x y : Z) : Z := Z.lor x (Z.shiftl 1 y).

Definition GETBIT (x y : Z) : Z :=
  Z.land x (4294967295 - Z.shiftl 4294967295 (y + 1) mod 2 ^ 32).

Definition ISZERO (x y : Z) : bool := Z.land x (Z.shiftl 1 y) =? 0.

(** [std::vector] subscripting.  The vector is not bounds-checked; an index
    outside it is undefined behaviour and shows as [None]. *)
Definition vector_get {A} (v : list A) (i : Z) : option A :=
  if (0 <=? i) then v !! Z.to_nat i else None.

Definition vector_set {A} (v : list A) (i : Z) (x : A) : option (list A) :=
  if (0 <=? i) && (i <? Z.of_nat (length v)) then Some (<[Z.to_nat i := x]> v) else None.

(** Addresses of heap-allocated buckets. *)
Abbreviation loc := nat (only parsing).

Section table.
Context `{Countable K} {V : Type}.

(** [Hasher<K>]: [std::hash<K>], a [size_t]. *)
Variable Hasher : K → Z.

(** [class Bucket]: [data_] is the [std::map<K, V>]. *)
Record Bucket := mkBucket {
  id_ : Z;
  local_depth_ : Z;
  size_ : Z;
  data_ : gmap K V
}.

Definition Bucket_new (id depth size : Z) : Bucket :=
  {| id_ := id; local_depth_ := depth; size_ := size; data_ := ∅ |}.

Definition set_data (b : Bucket) (d : gmap K V) : Bucket :=
  {| id_ := id_ b; local_depth_ := local_depth_ b; size_ := size_ b; data_ := d |}.

(** [std::map::insert]: an entry whose key is already there is left alone. *)
Definition map_insert (k : K) (v : V) (m : gmap K V) : gmap K V :=
  match m !! k with
  | Some _ => m
  | None => <[k := v]> m
  end.

(** [Bucket::Put]:
      data_.insert(std::make_pair(k, v));
      if (data_.size() == size_) return false;
      return true; *)
Definition Put (k : K) (v : V) (b : Bucket) : bool * Bucket :=
  let data := map_insert k v (data_ b) in
  (negb (Z.of_nat (size data) =? size_ b), set_data b data).

(** [Bucket::Get] *)
Definition Get (k : K) (b : Bucket) : option V := data_ b !! k.

(** [Bucket::Remove] *)
Definition Bucket_Remove (k : K) (b : Bucket) : bool * Bucket :=
  match data_ b !! k with
  | None => (false, b)
  | Some _ => (true, set_data b (delete k (data_ b)))
  end.

(** [Bucket::Split]: the pair is (this bucket afterwards, the new bucket).
      local_depth_++;
      auto new_bucket = make_unique<Bucket>(SETBIT(id_, local_depth_), local_depth_, size_);
      for (iter = data_.begin(); iter != data_.end();)
        if (!ISZERO(Hasher<K>()(iter->first), local_depth_)) {
          new_bucket->Put(iter->first, iter->second);  data_.erase(iter++);
        } else iter++;  *)
Definition Split (b : Bucket) : Bucket * Bucket :=
  let depth := local_depth_ b + 1 in
  let this := {| id_ := id_ b; local_depth_ := depth; size_ := size_ b; data_ := data_ b |} in
  let new_bucket := Bucket_new (SETBIT (id_ b) depth) depth (size_ b) in
  foldl (λ '(this, new_bucket) '(k, v),
           if negb (ISZERO (Hasher k) depth)
           then (set_data this (delete k (data_ this)), (Put k v new_bucket).2)
           else (this, new_bucket))
        (this, new_bucket) (map_to_list (data_ b)).

(** Buckets are shared between directory slots through [std::shared_ptr]:
    they live in [heap_] and a slot holds an address ([loc]), or [None] for
    a null pointer. *)
Record ExtendibleHash := mkExtendibleHash {
  bucket_size_ : Z;
  global_depth_ : Z;
  buckets_ : list (option loc);
  heap_ : list Bucket
}.

(** [std::make_shared]: the new object gets the next free address. *)
Definition make_shared (b : Bucket) (heap : list Bucket) : loc * list Bucket :=
  (length heap, heap ++ [b]).

(** [ExtendibleHash::ExtendibleHash(size)]:
      bucket_size_(size), global_depth_(0)
      buckets_.resize(1 << (global_depth_ + 1));
      for (i = 0; i < buckets_.size(); i++)
        buckets_[i] = make_shared<Bucket>(i, 0, bucket_size_); *)
Definition ExtendibleHash_new (size : Z) : ExtendibleHash :=
  let global_depth := 0 in
  let slots := replicate (Z.to_nat (Z.shiftl 1 (global_depth + 1))) None in
  let '(slots, heap) :=
    foldl (λ '(slots, heap) i,
             let '(l, heap) := make_shared (Bucket_new (Z.of_nat i) 0 size) heap in
             (<[i := Some l]> slots, heap))
          (slots, []) (seq 0 (length slots)) in
  {| bucket_size_ := size; global_depth_ := global_depth;
     buckets_ := slots; heap_ := heap |}.

(** [GETBIT(Hasher<K>()(key), global_depth_)]: the slot a key is routed to. *)
Definition slot_of (key : K) (t : ExtendibleHash) : Z :=
  GETBIT (Hasher key) (global_depth_ t).

(** [ExtendibleHash::GetGlobalDepth], [GetNumBuckets] *)
Definition GetGlobalDepth (t : ExtendibleHash) : Z := global_depth_ t.
Definition GetNumBuckets (t : ExtendibleHash) : Z := Z.of_nat (length (buckets_ t)).

(** The bucket behind a slot; [None] when the slot is outside the vector,
    null or dangling, where the C++ dereference is undefined. *)
Definition bucket_at (t : ExtendibleHash) (id : Z) : option Bucket :=
  p ← vector_get (buckets_ t) id;
  l ← p;
  heap_ t !! l.

(** [ExtendibleHash::GetLocalDepth] *)
Definition GetLocalDepth (t : ExtendibleHash) (bucket_id : Z) : option Z :=
  local_depth_ <$> bucket_at t bucket_id.

(** [ExtendibleHash::Find]: [Some None] is the [false] return, the outer
    [None] an undefined dereference. *)
Definition Find (key : K) (t : ExtendibleHash) : option (option V) :=
  Get key <$> bucket_at t (slot_of key t).

(** [ExtendibleHash::Remove] *)
Definition Remove (key : K) (t : ExtendibleHash) : option (bool * ExtendibleHash) :=
  p ← vector_get (buckets_ t) (slot_of key t);
  l ← p;
  b ← heap_ t !! l;
  let '(r, b') := Bucket_Remove key b in
  Some (r, {| bucket_size_ := bucket_size_ t; global_depth_ := global_depth_ t;
              buckets_ := buckets_ t; heap_ := <[l := b']> (heap_ t) |}).

(** [ExtendibleHash::expand], called after [++global_depth_]:
      buckets_.resize(1 << (global_depth_ + 1));
      buckets_[id] = std::move(bucket);
      for (int i = 0; i < (1 << global_depth_); i++)
        if (buckets_[i].get() == nullptr || buckets_[i]->GetLocalDepth() < global_depth_)
          buckets_[SETBIT(i, global_depth_)] = buckets_[i]; *)
Definition expand_copy (global_depth : Z) (heap : list Bucket)
    (acc : option (list (option loc))) (i : Z) : option (list (option loc)) :=
  slots ← acc;
  p ← vector_get slots i;
  match p with
  | None => vector_set slots (SETBIT i global_depth) p
  | Some l =>
      b ← heap !! l;
      if local_depth_ b <? global_depth
      then vector_set slots (SETBIT i global_depth) p
      else Some slots
  end.

Definition expand (id : Z) (bucket : loc) (global_depth : Z) (heap : list Bucket)
    (slots : list (option loc)) : option (list (option loc)) :=
  let slots := resize (Z.to_nat (Z.shiftl 1 (global_depth + 1))) None slots in
  slots ← vector_set slots id (Some bucket);
  foldl (expand_copy global_depth heap) (Some slots)
        (seqZ 0 (Z.shiftl 1 global_depth)).

(** [ExtendibleHash::Insert] *)
Definition Insert (key : K) (value : V) (t : ExtendibleHash) : option ExtendibleHash :=
  let id := slot_of key t in
  p ← vector_get (buckets_ t) id;
  match p with
  | None =>
      (* bucket.get() == nullptr *)
      let '(l, heap) := make_shared (Bucket_new id 0 (bucket_size_ t)) (heap_ t) in
      slots ← vector_set (buckets_ t) id (Some l);
      b ← heap !! l;
      Some {| bucket_size_ := bucket_size_ t; global_depth_ := global_depth_ t;
              buckets_ := slots; heap_ := <[l := (Put key value b).2]> heap |}
  | Some l =>
      bucket ← heap_ t !! l;
      let '(fits, bucket) := Put key value bucket in
      if fits
      then Some {| bucket_size_ := bucket_size_ t; global_depth_ := global_depth_ t;
                   buckets_ := buckets_ t; heap_ := <[l := bucket]> (heap_ t) |}
      else
        let '(bucket, new_bucket) := Split bucket in
        let new_id := id_ new_bucket in
        let '(nl, heap) := make_shared new_bucket (<[l := bucket]> (heap_ t)) in
        if local_depth_ bucket >? global_depth_ t
        then
          let global_depth := global_depth_ t + 1 in
          slots ← expand new_id nl global_depth heap (buckets_ t);
          Some {| bucket_size_ := bucket_size_ t; global_depth_ := global_depth;
                  buckets_ := slots; heap_ := heap |}
        else
          slots ← vector_set (buckets_ t) new_id (Some nl);
          Some {| bucket_size_ := bucket_size_ t; global_depth_ := global_depth_ t;
                  buckets_ := slots; heap_ := heap |}
  end.

(** States the table can be in: built by the constructor and changed by
    [Insert] and [Remove] calls that return. *)
Inductive reachable : ExtendibleHash → Prop :=
  | reachable_new size : reachable (ExtendibleHash_new size)
  | reachable_Insert t key value t' :
      reachable t → Insert key value t = Some t' → reachable t'
  | reachable_Remove t key r t' :
      reachable t → Remove key t = Some (r, t') → reachable t'.

(** The header of a bucket (id and local depth) is all the directory
    invariant looks at. *)
Definition header_ok (G : Z) (b : Bucket) : Prop :=
  0 ≤ id_ b < 2 ^ (G + 1) ∧ 0 ≤ local_depth_ b ≤ G.

(** What every slot of a directory of global depth [global_depth] points
    to: a live bucket whose id fits the directory and whose local depth does
    not exceed the global one. *)
Definition slots_ok (global_depth : Z) (heap : list Bucket)
    (slots : list (option loc)) : Prop :=
  ∀ i l, slots !! i = Some (Some l) →
    ∃ b, heap !! l = Some b
         ∧ 0 ≤ id_ b < 2 ^ (global_depth + 1)
         ∧ 0 ≤ local_depth_ b ≤ global_depth.

Record table_wf (t : ExtendibleHash) : Prop := {
  wf_depth : 0 ≤ global_depth_ t;
  wf_length : Z.of_nat (length (buckets_ t)) = 2 ^ (global_depth_ t + 1);
  wf_slots : slots_ok (global_depth_ t) (heap_ t) (buckets_ t)
}.

(** A run of [Insert] calls. *)
Definition insert_all (kvs : list (K * V)) (t : ExtendibleHash) : option ExtendibleHash :=
  foldl (λ acc '(k, v), acc ≫= Insert k v) (Some t) kvs.

End table.

Arguments Bucket K {_ _} V.
Arguments ExtendibleHash K {_ _} V.

(** [std::hash<int>] of libstdc++: the value itself, as a 64-bit [size_t]. *)
Definition hash_int (k : Z) : Z := k mod 2 ^ 64.

(** [ExtendibleHash<int, std::string>] with buckets of two entries, the
    table of the split scenario. *)
Definition table2 : ExtendibleHash Z string := ExtendibleHash_new 2.

Definition scenario : list (Z * string) :=
  [(0, "a"); (1, "b"); (2, "c"); (4, "d")]%string.

(** Number of entries and capacity of the bucket behind a slot. *)
Definition entries_at {K} `{Countable K} {V} (t : ExtendibleHash K V) (id : Z) : option (Z * Z) :=
  (λ b, (Z.of_nat (size (data_ b)), size_ b)) <$> bucket_at t id.

End Hash.

(** * B+Tree pages
      (src/page/b_plus_tree_leaf_page.cpp, src/page/b_plus_tree_internal_page.cpp) *)

Module BTree.

Local Open Scope Z_scope.

(** Modelled from the spec: config.h is not among the sources.  "One
    reserved sentinel denotes invalid", taken as -1; the header page is "the
    reserved page at id 0". *)
Definition INVALID_PAGE_ID : Z := -1.
Definition HEADER_PAGE_ID : Z := 0.

(** Modelled from the spec: the key, comparator and record-id types
    (generic_key.h, rid.h) are not among the sources.  Keys are
    [GenericKey]s holding an integer ([SetFromInteger]), compared by
    [GenericComparator]: negative, zero or positive.  Record ids and page
    ids are integers as well, so a slot is a pair of integers whichever
    page type looks at it. *)
Abbreviation KeyType := Z (only parsing).
Abbreviation ValueType := Z (only parsing).
Abbreviation page_id_t := Z (only parsing).
Abbreviation MappingType := (Z * Z)%type (only parsing).

Definition comparator (a b : KeyType) : Z :=
  match a ?= b with
  | Lt => -1
  | Eq => 0
  | Gt => 1
  end.

(** Conversions the C++ code leaves implicit. *)
Definition to_size_t (x : Z) : Z := x mod 2 ^ 64.
Definition to_int (x : Z) : Z :=
  let y := x mod 2 ^ 32 in if y <? 2 ^ 31 then y else y - 2 ^ 32.

(** The slot array of a page is the memory behind [array]: a total map from
    slot index to slot.  Slots at [size] and beyond hold whatever the page
    memory holds there. *)
Abbreviation slots := (Z → Z * Z) (only parsing).

(** [memcpy(dst_arr + dst, src_arr + src, n * sizeof(MappingType))].  The
    byte count is a [size_t]: a negative [n] wraps to an enormous length,
    which is undefined behaviour ([None]).  [memmove] is the same within
    one array. *)
Definition memcpy (dst_arr : slots) (dst : Z) (src_arr : slots) (src n : Z) : option slots :=
  if n <? 0 then None
  else Some (λ i, if (dst <=? i) && (i <? dst + n) then src_arr (i - dst + src) else dst_arr i).

Definition memmove (arr : slots) (dst src n : Z) : option slots :=
  memcpy arr dst arr src n.

Definition store (arr : slots) (i : Z) (x : MappingType) : slots :=
  λ j, if j =? i then x else arr j.

(** The slots [0 .. n-1], as a list. *)
Definition prefix (arr : slots) (n : Z) : list MappingType :=
  arr <$> seqZ 0 n.

(** An array holding the given slots, and [(0, 0)] everywhere else
    (zeroed page memory). *)
Definition slots_of_list (l : list MappingType) : slots :=
  λ i, if i <? 0 then (0, 0) else default (0, 0) (l !! Z.to_nat i).

Inductive IndexPageType := INVALID_INDEX_PAGE | LEAF_PAGE | INTERNAL_PAGE.

(** Modelled from the spec: the page headers (b_plus_tree_page.h and the two
    subclass headers) are not among the sources; the fields are those of
    the spec's page format: "page type tag, current size, max size, page id,
    parent id, and for leaves a next-page id - followed by a packed array of
    fixed-width entries".  One record serves both subclasses, so that
    casting a page to either of them reads the same fields. *)
Record BPlusTreePage := mkPage {
  page_type_ : IndexPageType;
  size_ : Z;
  max_size_ : Z;
  parent_page_id_ : page_id_t;
  page_id_ : page_id_t;
  next_page_id_ : page_id_t;
  array : slots
}.

Definition SetPageType (t : IndexPageType) (p : BPlusTreePage) : BPlusTreePage :=
  mkPage t (size_ p) (max_size_ p) (parent_page_id_ p) (page_id_ p) (next_page_id_ p) (array p).
Definition SetSize (n : Z) (p : BPlusTreePage) : BPlusTreePage :=
  mkPage (page_type_ p) n (max_size_ p) (parent_page_id_ p) (page_id_ p) (next_page_id_ p) (array p).
Definition SetMaxSize (n : Z) (p : BPlusTreePage) : BPlusTreePage :=
  mkPage (page_type_ p) (size_ p) n (parent_page_id_ p) (page_id_ p) (next_page_id_ p) (array p).
Definition SetParentPageId (id : page_id_t) (p : BPlusTreePage) : BPlusTreePage :=
  mkPage (page_type_ p) (size_ p) (max_size_ p) id (page_id_ p) (next_page_id_ p) (array p).
Definition SetPageId (id : page_id_t) (p : BPlusTreePage) : BPlusTreePage :=
  mkPage (page_type_ p) (size_ p) (max_size_ p) (parent_page_id_ p) id (next_page_id_ p) (array p).
Definition SetNextPageId (id : page_id_t) (p : BPlusTreePage) : BPlusTreePage :=
  mkPage (page_type_ p) (size_ p) (max_size_ p) (parent_page_id_ p) (page_id_ p) id (array p).
Definition set_array (a : slots) (p : BPlusTreePage) : BPlusTreePage :=
  mkPage (page_type_ p) (size_ p) (max_size_ p) (parent_page_id_ p) (page_id_ p) (next_page_id_ p) a.

Definition GetSize (p : BPlusTreePage) : Z := size_ p.
Definition GetMaxSize (p : BPlusTreePage) : Z := max_size_ p.
Definition GetPageId (p : BPlusTreePage) : page_id_t := page_id_ p.
Definition GetParentPageId (p : BPlusTreePage) : page_id_t := parent_page_id_ p.
Definition GetNextPageId (p : BPlusTreePage) : page_id_t := next_page_id_ p.
Definition IncreaseSize (amount : Z) (p : BPlusTreePage) : BPlusTreePage :=
  SetSize (size_ p + amount) p.

(** Modelled from the spec: b_plus_tree_page.cpp is not among the sources;
    "GetMinSize = ceil(max/2)", a leaf is a page of type leaf, and the root
    is the page without a parent. *)
Definition GetMinSize (p : BPlusTreePage) : Z := (max_size_ p + 1) / 2.
Definition IsLeafPage (p : BPlusTreePage) : bool :=
  match page_type_ p with LEAF_PAGE => true | _ => false end.
Definition IsRootPage (p : BPlusTreePage) : bool :=
  parent_page_id_ p =? INVALID_PAGE_ID.

(** [BinarySearch], the same function in both page files:
      size_t start = 1, end = size - 1, middle = 0;
      while (start < end) {
        middle = start + ((end - start) >> 1);
        if (cmp(array[middle].first, key) < 0)      start = middle + 1;
        else if (cmp(array[middle].first, key) > 0) end = middle;
        else { start = middle; break; }
      }
      return start;
    The interval at least halves at every round, so 64 rounds exhaust any
    [size_t] interval. *)
Fixpoint BinarySearch_loop (fuel : nat) (arr : slots) (key : KeyType)
    (start end_ : Z) : Z :=
  match fuel with
  | O => start
  | S fuel =>
      if start <? end_ then
        let middle := start + Z.shiftr (end_ - start) 1 in
        if comparator (arr middle).1 key <? 0
        then BinarySearch_loop fuel arr key (middle + 1) end_
        else if comparator (arr middle).1 key >? 0
        then BinarySearch_loop fuel arr key start middle
        else middle
      else start
  end.

Definition BinarySearch (arr : slots) (size : Z) (key : KeyType) : Z :=
  let start := 1 in
  let end_ := to_size_t (to_size_t size - 1) in
  to_int (BinarySearch_loop 64 arr key start end_).

(** Keys strictly increasing over the slots [lo .. hi]. *)
Definition keys_increasing (arr : slots) (lo hi : Z) : Prop :=
  ∀ i j, lo ≤ i → i < j → j ≤ hi → (arr i).1 < (arr j).1.

(** Child ids strictly increasing over the slots [lo .. hi]. *)
Definition values_increasing (arr : slots) (lo hi : Z) : Prop :=
  ∀ i j, lo ≤ i → i < j → j ≤ hi → (arr i).2 < (arr j).2.

(** An [assert] that fails aborts the program: [None]. *)
Definition assert (c : bool) : option unit := if c then Some () else None.

(** ** The buffer pool, as the tree sees it *)

(** Calls the tree makes on the pool, in order, with what they returned. *)
Inductive PoolEvent :=
  | EvFetchPage (page_id : page_id_t) (ok : bool)
  | EvNewPage (page_id : option page_id_t)
  | EvUnpinPage (page_id : page_id_t) (is_dirty ok : bool).

(** Modelled from the spec: buffer_pool_manager.cpp and header_page.h are
    not among the sources, only the class declaration is.  [pages_] holds
    the image of every tree page by page id (frame or disk: eviction writes
    a dirty page back before its frame is reused, so the image is the same);
    [pin_count_] is the pin count of every page and [allocated_] the next id
    the disk manager hands out.  A frame can be found for a page that is
    not pinned as long as fewer than [pool_size_] pages are pinned.
    [fresh_] is the memory a new page starts with, [header_] the records of
    the header page, [log_] the calls made so far. *)
Record BufferPoolManager := mkPool {
  pool_size_ : Z;
  pages_ : gmap Z BPlusTreePage;
  pin_count_ : gmap Z Z;
  allocated_ : page_id_t;
  fresh_ : BPlusTreePage;
  header_ : gmap string Z;
  log_ : list PoolEvent
}.

(** Modelled from the spec: b_plus_tree.h is not among the sources; the
    members are those the constructor in b_plus_tree.cpp initialises (the
    comparator is [comparator] above). *)
Record BPlusTree := mkTree {
  index_name_ : string;
  root_page_id_ : page_id_t;
  buffer_pool_manager_ : BufferPoolManager
}.

(** How a call ends: it returns, it leaves by a C++ exception, it aborts
    (failed [assert], null or wild pointer), or the model's loop bound was
    too small. *)
Inductive result (A : Type) : Type :=
  | Ret (a : A) (t : BPlusTree)
  | Throw (msg : string) (t : BPlusTree)
  | Abort
  | OutOfFuel.
Arguments Ret {A} a t.
Arguments Throw {A} msg t.
Arguments Abort {A}.
Arguments OutOfFuel {A}.

Definition M (A : Type) : Type := BPlusTree → result A.

#[global] Instance M_ret : MRet M := λ A a t, Ret a t.
#[global] Instance M_bind : MBind M := λ A B f m t,
  match m t with
  | Ret a t' => f a t'
  | Throw msg t' => Throw msg t'
  | Abort => Abort
  | OutOfFuel => OutOfFuel
  end.

Definition throw {A} (msg : string) : M A := λ t, Throw msg t.
Definition abort {A} : M A := λ _, Abort.
Definition out_of_fuel {A} : M A := λ _, OutOfFuel.
Definition lift {A} (o : option A) : M A :=
  match o with
  | Some a => mret a
  | None => abort
  end.

Definition get_root : M page_id_t := λ t, Ret (root_page_id_ t) t.
Definition set_root (id : page_id_t) : M unit :=
  λ t, Ret () (mkTree (index_name_ t) id (buffer_pool_manager_ t)).
Definition get_pool : M BufferPoolManager := λ t, Ret (buffer_pool_manager_ t) t.
Definition set_pool (bpm : BufferPoolManager) : M unit :=
  λ t, Ret () (mkTree (index_name_ t) (root_page_id_ t) bpm).

(** Reading and writing a page through a pointer into its frame; the pointer
    is named by the page id of the frame. *)
Definition get_page (ptr : page_id_t) : M BPlusTreePage :=
  bpm ← get_pool; lift (pages_ bpm !! ptr).
Definition put_page (ptr : page_id_t) (p : BPlusTreePage) : M unit :=
  bpm ← get_pool;
  _ ← lift (pages_ bpm !! ptr);
  set_pool (mkPool (pool_size_ bpm) (<[ptr := p]> (pages_ bpm)) (pin_count_ bpm)
                   (allocated_ bpm) (fresh_ bpm) (header_ bpm) (log_ bpm)).

Definition update (ptr : page_id_t) (f : BPlusTreePage → BPlusTreePage) : M unit :=
  p ← get_page ptr; put_page ptr (f p).

Fixpoint for_each (l : list Z) (body : Z → M unit) : M unit :=
  match l with
  | [] => mret ()
  | i :: l => body i;; for_each l body
  end.

Definition pins (bpm : BufferPoolManager) (page_id : page_id_t) : Z :=
  default 0 (pin_count_ bpm !! page_id).
Definition pinned_frames (bpm : BufferPoolManager) : Z :=
  Z.of_nat (size (filter (λ kv, 0 < kv.2) (pin_count_ bpm))).
Definition on_disk (bpm : BufferPoolManager) (page_id : page_id_t) : bool :=
  bool_decide (page_id = HEADER_PAGE_ID) || bool_decide (is_Some (pages_ bpm !! page_id)).
Definition frame_available (bpm : BufferPoolManager) : bool :=
  pinned_frames bpm <? pool_size_ bpm.

Definition record (e : PoolEvent) (pin_count : gmap Z Z) (bpm : BufferPoolManager)
    : BufferPoolManager :=
  mkPool (pool_size_ bpm) (pages_ bpm) pin_count (allocated_ bpm) (fresh_ bpm)
         (header_ bpm) (log_ bpm ++ [e]).

(** Modelled from the spec: [FetchPage] "returns a pinned frame for pid.  If
    pid is already resident, increments its pin count [...] Fails (returns
    nothing) when no frame is free and every frame is pinned."  The result
    is the frame of the page, or [None] for [nullptr]; an id that names no
    page of the index has no bytes to read and is answered with [nullptr]
    as well. *)
Definition FetchPage (page_id : page_id_t) : M (option page_id_t) :=
  bpm ← get_pool;
  if on_disk bpm page_id && ((0 <? pins bpm page_id) || frame_available bpm)
  then
    set_pool (record (EvFetchPage page_id true)
                (<[page_id := pins bpm page_id + 1]> (pin_count_ bpm)) bpm);;
    mret (Some page_id)
  else
    set_pool (record (EvFetchPage page_id false) (pin_count_ bpm) bpm);;
    mret None.

(** Modelled from the spec: [UnpinPage] "decrements the pin count [...]
    Fails when pid is not resident or pin count is already 0." *)
Definition UnpinPage (page_id : page_id_t) (is_dirty : bool) : M bool :=
  bpm ← get_pool;
  if on_disk bpm page_id && (0 <? pins bpm page_id)
  then
    set_pool (record (EvUnpinPage page_id is_dirty true)
                (<[page_id := pins bpm page_id - 1]> (pin_count_ bpm)) bpm);;
    mret true
  else
    set_pool (record (EvUnpinPage page_id is_dirty false) (pin_count_ bpm) bpm);;
    mret false.

(** Modelled from the spec: [NewPage] "allocates a fresh page id via the
    disk manager, obtains a free frame as in FetchPage, initializes it
    (pin=1, dirty=false) [...] Fails identically to FetchPage when no frame
    can be freed."  The result is the id written through the reference,
    which also names the frame; [None] for [nullptr]. *)
Definition NewPage : M (option page_id_t) :=
  bpm ← get_pool;
  if frame_available bpm
  then
    let page_id := allocated_ bpm in
    set_pool (mkPool (pool_size_ bpm) (<[page_id := fresh_ bpm]> (pages_ bpm))
                     (<[page_id := 1]> (pin_count_ bpm)) (page_id + 1) (fresh_ bpm)
                     (header_ bpm) (log_ bpm ++ [EvNewPage (Some page_id)]));;
    mret (Some page_id)
  else
    set_pool (record (EvNewPage None) (pin_count_ bpm) bpm);;
    mret None.

(** Modelled from the spec: header_page.h is not among the sources.
    [HeaderPage::InsertRecord] adds a record for a name that has none,
    [UpdateRecord] changes the record of a name that has one ("the index
    either inserts a new record (first root) or updates the existing
    one"). *)
Definition set_header (h : gmap string Z) : M unit :=
  bpm ← get_pool;
  set_pool (mkPool (pool_size_ bpm) (pages_ bpm) (pin_count_ bpm) (allocated_ bpm)
                   (fresh_ bpm) h (log_ bpm)).
Definition InsertRecord (name : string) (root_id : page_id_t) : M bool :=
  bpm ← get_pool;
  match header_ bpm !! name with
  | Some _ => mret false
  | None => set_header (<[name := root_id]> (header_ bpm));; mret true
  end.
Definition UpdateRecord (name : string) (root_id : page_id_t) : M bool :=
  bpm ← get_pool;
  match header_ bpm !! name with
  | Some _ => set_header (<[name := root_id]> (header_ bpm));; mret true
  | None => mret false
  end.

(** Successful pins ([FetchPage], [NewPage]) and unpins of a page in a log. *)
Definition is_pin (page_id : page_id_t) (e : PoolEvent) : bool :=
  match e with
  | EvFetchPage p true => bool_decide (p = page_id)
  | EvNewPage (Some p) => bool_decide (p = page_id)
  | _ => false
  end.
Definition is_unpin (page_id : page_id_t) (e : PoolEvent) : bool :=
  match e with
  | EvUnpinPage p _ true => bool_decide (p = page_id)
  | _ => false
  end.
Definition count_pins (page_id : page_id_t) (log : list PoolEvent) : nat :=
  length (filter (λ e, is_pin page_id e = true) log).
Definition count_unpins (page_id : page_id_t) (log : list PoolEvent) : nat :=
  length (filter (λ e, is_unpin page_id e = true) log).

(** ** Leaf pages *)

Module Leaf.

Section leaf.

(** [(PAGE_SIZE - sizeof(BPlusTreeLeafPage)) / sizeof(MappingType)], a
    constant of the memory layout. *)
Variable leaf_max_size : Z.

(** [BPlusTreeLeafPage::Init] *)
Definition Init (page_id parent_id : page_id_t) (p : BPlusTreePage) : BPlusTreePage :=
  SetNextPageId INVALID_PAGE_ID
    (SetParentPageId parent_id
      (SetPageId page_id
        (SetMaxSize leaf_max_size
          (SetSize 0
            (SetPageType LEAF_PAGE p))))).

End leaf.

(** [BPlusTreeLeafPage::KeyIndex] *)
Definition KeyIndex (key : KeyType) (p : BPlusTreePage) : Z :=
  BinarySearch (array p) (GetSize p) key.

(** [BPlusTreeLeafPage::KeyAt] *)
Definition KeyAt (index : Z) (p : BPlusTreePage) : option KeyType :=
  assert ((0 <=? index) && (index <? GetSize p));;
  Some (array p index).1.

(** [BPlusTreeLeafPage::GetItem] *)
Definition GetItem (index : Z) (p : BPlusTreePage) : option MappingType :=
  assert (index <? GetSize p);;
  Some (array p index).

(** [BPlusTreeLeafPage::Insert]: the new size and the page afterwards.
      if (size == 0 || comparator(key, array[size-1].first) > 0)
        insert_index = size;
      else if (comparator(key, array[0].first) < 0) {
        memmove(array+1, array, size*sizeof(MappingType));  insert_index = 0;
      } else {
        insert_index = KeyIndex(key, comparator);
        memmove(array+insert_index, array+insert_index+1, (size-insert_index)*sizeof(MappingType));
      }
      array[insert_index] = pair;  IncreaseSize(1);  return size+1; *)
Definition Insert (key : KeyType) (value : ValueType) (p : BPlusTreePage)
    : option (Z * BPlusTreePage) :=
  let size := GetSize p in
  '(insert_index, arr) ←
    (if (size =? 0) || (comparator key (array p (size - 1)).1 >? 0)
     then Some (size, array p)
     else if comparator key (array p 0).1 <? 0
     then arr ← memmove (array p) 1 0 size; Some (0, arr)
     else
       let insert_index := KeyIndex key p in
       arr ← memmove (array p) insert_index (insert_index + 1) (size - insert_index);
       Some (insert_index, arr));
  Some (size + 1, IncreaseSize 1 (set_array (store arr insert_index (key, value)) p)).

(** [BPlusTreeLeafPage::CopyHalfFrom] *)
Definition CopyHalfFrom (items : slots) (first size : Z) (p : BPlusTreePage)
    : option BPlusTreePage :=
  let start := GetSize p in
  assert (start =? 0);;
  arr ← memcpy (array p) start items first size;
  Some (IncreaseSize size (set_array arr p)).

(** [BPlusTreeLeafPage::MoveHalfTo]: (this page, the recipient) afterwards. *)
Definition MoveHalfTo (p recipient : BPlusTreePage)
    : option (BPlusTreePage * BPlusTreePage) :=
  let size := GetSize p in
  let half := Z.shiftr (1 + size) 1 in
  recipient ← CopyHalfFrom (array p) (size - half) half recipient;
  Some (IncreaseSize (-1 * half) p, recipient).

(** [BPlusTreeLeafPage::Lookup]: [Some value] for [true] with the value
    stored through the reference, [None] for [false].
      int index = BinarySearch(array, size, key, comparator);
      if (index == -1) return false;
      value = array[index].second;  return true; *)
Definition Lookup (key : KeyType) (p : BPlusTreePage) : option ValueType :=
  let size := GetSize p in
  let index := BinarySearch (array p) size key in
  if index =? -1 then None else Some (array p index).2.

(** [BPlusTreeLeafPage::RemoveAndDeleteRecord]: the returned number and the
    page afterwards.
      int index = BinarySearch(array, size, key, comparator);
      if (index != -1) {
        memmove(array+index+1, array+index, (size-index-1)*sizeof(MappingType));
        IncreaseSize(-1);
      }
      return size; *)
Definition RemoveAndDeleteRecord (key : KeyType) (p : BPlusTreePage)
    : option (Z * BPlusTreePage) :=
  let size := GetSize p in
  let index := BinarySearch (array p) size key in
  if negb (index =? -1) then
    arr ← memmove (array p) (index + 1) index (size - index - 1);
    Some (size, IncreaseSize (-1) (set_array arr p))
  else Some (size, p).

(** [BPlusTreeLeafPage::CopyAllFrom], called on the recipient with [items]
    pointing at the giving page's array: (recipient, giver's array)
    afterwards.
      int current_size = GetSize();
      memcpy(items, array+current_size, size*sizeof(MappingType));
      IncreaseSize(size); *)
Definition CopyAllFrom (items : slots) (size : Z) (p : BPlusTreePage)
    : option (BPlusTreePage * slots) :=
  let current_size := GetSize p in
  items ← memcpy items 0 (array p) current_size size;
  Some (IncreaseSize size p, items).

(** [BPlusTreeLeafPage::MoveAllTo]: (this page, the recipient) afterwards.
      int size = GetSize();
      recipient->CopyAllFrom(array, size);
      recipient->SetNextPageId(GetNextPageId());
      IncreaseSize(-1*size); *)
Definition MoveAllTo (p recipient : BPlusTreePage)
    : option (BPlusTreePage * BPlusTreePage) :=
  let size := GetSize p in
  '(recipient, items) ← CopyAllFrom (array p) size recipient;
  let p := set_array items p in
  let recipient := SetNextPageId (GetNextPageId p) recipient in
  Some (IncreaseSize (-1 * size) p, recipient).

(** [BPlusTreeLeafPage::CopyLastFrom]:
      int size = GetSize();
      array[size] = item;
      IncreaseSize(1); *)
Definition CopyLastFrom (item : MappingType) (p : BPlusTreePage) : BPlusTreePage :=
  let size := GetSize p in
  IncreaseSize 1 (set_array (store (array p) size item) p).

End Leaf.

(** ** Internal pages *)

Module Internal.

Section internal.

(** [(PAGE_SIZE - sizeof(BPlusTreeInternalPage)) / sizeof(MappingType)] *)
Variable internal_max_size : Z.

(** [BPlusTreeInternalPage::Init] *)
Definition Init (page_id parent_id : page_id_t) (p : BPlusTreePage) : BPlusTreePage :=
  SetParentPageId parent_id
    (SetPageId page_id
      (SetMaxSize internal_max_size
        (SetSize 0
          (SetPageType INTERNAL_PAGE p)))).

End internal.

(** [BPlusTreeInternalPage::KeyAt], [SetKeyAt], [ValueAt] *)
Definition KeyAt (index : Z) (p : BPlusTreePage) : option KeyType :=
  assert ((0 <=? index) && (index <? GetSize p));;
  Some (array p index).1.

Definition SetKeyAt (index : Z) (key : KeyType) (p : BPlusTreePage) : option BPlusTreePage :=
  assert ((0 <=? index) && (index <? GetSize p));;
  Some (set_array (store (array p) index (key, (array p index).2)) p).

Definition ValueAt (index : Z) (p : BPlusTreePage) : option ValueType :=
  assert ((0 <=? index) && (index <=? GetSize p));;
  Some (array p index).2.

(** [BPlusTreeInternalPage::ValueIndex]:
      int start = 0, end = size - 1, middle = 0;
      while (start <= end) {
        middle = start + ((end - start) >> 1);
        if (array[middle].second > value)      end = middle - 1;
        else if (array[middle].second < value) start = middle + 1;
        else break;
      }
      return start <= end ? middle : -1;
    The loop state is (start, end, middle); 32 rounds exhaust any [int]
    interval. *)
Fixpoint ValueIndex_loop (fuel : nat) (arr : slots) (value : ValueType)
    (start end_ middle : Z) : Z * Z * Z :=
  match fuel with
  | O => (start, end_, middle)
  | S fuel =>
      if start <=? end_ then
        let middle := start + Z.shiftr (end_ - start) 1 in
        if (arr middle).2 >? value
        then ValueIndex_loop fuel arr value start (middle - 1) middle
        else if (arr middle).2 <? value
        then ValueIndex_loop fuel arr value (middle + 1) end_ middle
        else (start, end_, middle)
      else (start, end_, middle)
  end.

Definition ValueIndex (value : ValueType) (p : BPlusTreePage) : Z :=
  let size := GetSize p in
  let '(start, end_, middle) := ValueIndex_loop 32 (array p) value 0 (size - 1) 0 in
  if start <=? end_ then middle else -1.

(** [BPlusTreeInternalPage::Lookup]:
      int left = 1, right = size - 1;
      if (comparator(key, array[left].first) < 0)       value = array[left - 1].second;
      else if (comparator(key, array[right].first) > 0) value = array[right].second;
      else {
        int index = BinarySearch(array, size, key, comparator);
        assert(left <= index && index <= right);
        value = array[index - 1].second;
      }
      return value; *)
Definition Lookup (key : KeyType) (p : BPlusTreePage) : option ValueType :=
  let size := GetSize p in
  let left := 1 in
  let right := size - 1 in
  if comparator key (array p left).1 <? 0 then Some (array p (left - 1)).2
  else if comparator key (array p right).1 >? 0 then Some (array p right).2
  else
    let index := BinarySearch (array p) size key in
    assert ((left <=? index) && (index <=? right));;
    Some (array p (index - 1)).2.

(** [BPlusTreeInternalPage::PopulateNewRoot] *)
Definition PopulateNewRoot (old_value : ValueType) (new_key : KeyType)
    (new_value : ValueType) (p : BPlusTreePage) : BPlusTreePage :=
  let arr := store (array p) 0 ((array p 0).1, old_value) in
  let arr := store arr 1 (new_key, new_value) in
  IncreaseSize 2 (set_array arr p).

(** [BPlusTreeInternalPage::InsertNodeAfter]: the returned size and the page
    afterwards.
      assert(size < max_size);
      int old_index = ValueIndex(old_value);
      int dest_index = old_index + 2, src_index = old_index + 1,
          num_bytes = (size - src_index) * sizeof(MappingType);
      memmove(array + dest_index, array + src_index, num_bytes);
      IncreaseSize(1);
      return size + 1; *)
Definition InsertNodeAfter (old_value : ValueType) (new_key : KeyType)
    (new_value : ValueType) (p : BPlusTreePage) : option (Z * BPlusTreePage) :=
  let size := GetSize p in
  let max_size := GetMaxSize p in
  assert (size <? max_size);;
  let old_index := ValueIndex old_value p in
  let dest_index := old_index + 2 in
  let src_index := old_index + 1 in
  arr ← memmove (array p) dest_index src_index (size - src_index);
  Some (size + 1, IncreaseSize 1 (set_array arr p)).

(** [BPlusTreeInternalPage::Remove] *)
Definition Remove (index : Z) (p : BPlusTreePage) : option BPlusTreePage :=
  let size := GetSize p in
  arr ← memmove (array p) index (index + 1) (size - index - 1);
  Some (IncreaseSize (-1) (set_array arr p)).

(** The members below go through the buffer pool; [this] and [recipient]
    are pointers to pinned pages. *)

(** [BPlusTreeInternalPage::CopyHalfFrom], called on the recipient with
    [items] pointing at slot [first] of the page [from]:
      int start = GetSize();  assert(start == 0);
      for (int i = 0; i < size; i++) {
        Page *page = buffer_pool_manager->FetchPage(items[i].second);
        child = reinterpret_cast<...>(page->GetData());
        child->SetParentPageId(page_id);
        buffer_pool_manager->UnpinPage(child->GetPageId(), true);
        array[i + start] = items[i];
      }
      IncreaseSize(size); *)
Definition CopyHalfFrom (this from : page_id_t) (first size : Z) : M unit :=
  p ← get_page this;
  let page_id := GetPageId p in
  let start := GetSize p in
  lift (assert (start =? 0));;
  for_each (seqZ 0 size) (λ i,
    giver ← get_page from;
    let item := array giver (first + i) in
    page ← FetchPage item.2;
    child ← lift page;
    update child (SetParentPageId page_id);;
    c ← get_page child;
    UnpinPage (GetPageId c) true;;
    update this (λ p, set_array (store (array p) (i + start) item) p));;
  update this (IncreaseSize size).

(** [BPlusTreeInternalPage::MoveHalfTo] *)
Definition MoveHalfTo (this recipient : page_id_t) : M unit :=
  p ← get_page this;
  let size := GetSize p in
  let half := Z.shiftr (1 + size) 1 in
  CopyHalfFrom recipient this (size - half) half;;
  update this (IncreaseSize (-1 * half)).

(** [BPlusTreeInternalPage::CopyLastFrom] *)
Definition CopyLastFrom (this : page_id_t) (pair : MappingType) : M unit :=
  p ← get_page this;
  let current_size := GetSize p in
  put_page this (IncreaseSize 1 (set_array (store (array p) current_size pair) p));;
  let child_id := pair.2 in
  p ← get_page this;
  let id := GetPageId p in
  child_page ← FetchPage child_id;
  child ← lift child_page;
  update child (SetParentPageId id);;
  UnpinPage child_id true;;
  mret ().

(** [BPlusTreeInternalPage::MoveFirstToEndOf]:
      Page *parent_page = buffer_pool_manager->FetchPage(parent_id);
      int index_in_parent = parent->ValueIndex(id);
      KeyType key = parent->KeyAt(index_in_parent);
      pair = std::make_pair(key, array[0].second);
      parent->SetKeyAt(index_in_parent, array[1].first);
      buffer_pool_manager->UnpinPage(parent_id, true);
      Remove(0);
      recipient->CopyLastFrom(pair, buffer_pool_manager); *)
Definition MoveFirstToEndOf (this recipient : page_id_t) : M unit :=
  p ← get_page this;
  let id := GetPageId p in
  let parent_id := GetParentPageId p in
  parent_page ← FetchPage parent_id;
  parent_ptr ← lift parent_page;
  parent ← get_page parent_ptr;
  let index_in_parent := ValueIndex id parent in
  key ← lift (KeyAt index_in_parent parent);
  p ← get_page this;
  let pair := (key, (array p 0).2) in
  parent ← lift (SetKeyAt index_in_parent (array p 1).1 parent);
  put_page parent_ptr parent;;
  UnpinPage parent_id true;;
  p ← get_page this;
  p ← lift (Remove 0 p);
  put_page this p;;
  CopyLastFrom recipient pair.

(** [BPlusTreeInternalPage::RemoveAndReturnOnlyChild]: the returned value
    and the page afterwards.
      IncreaseSize(-1);
      return array[1].second; *)
Definition RemoveAndReturnOnlyChild (p : BPlusTreePage) : ValueType * BPlusTreePage :=
  let p := IncreaseSize (-1) p in
  ((array p 1).2, p).

(** [BPlusTreeInternalPage::CopyAllFrom], called on the recipient with
    [items] pointing at the array of the page [from]:
      int current_size = GetSize();
      int max_size = GetMaxSize();
      assert(current_size + size <= max_size);
      page_id_t page_id = this->GetPageId();
      for (int i = 0; i < size; i++) {
        Page *page = buffer_pool_manager->FetchPage(items[i].second);
        child = reinterpret_cast<...>(page->GetData());
        child->SetParentPageId(page_id);
        buffer_pool_manager->UnpinPage(page->GetPageId(), true);
        array[i + current_size] = items[i];
      }
      IncreaseSize(size);
    [page->GetPageId()] is the id of the frame, which is the id fetched. *)
Definition CopyAllFrom (this from : page_id_t) (size : Z) : M unit :=
  p ← get_page this;
  let current_size := GetSize p in
  let max_size := GetMaxSize p in
  lift (assert (current_size + size <=? max_size));;
  let page_id := GetPageId p in
  for_each (seqZ 0 size) (λ i,
    giver ← get_page from;
    let item := array giver i in
    page ← FetchPage item.2;
    child ← lift page;
    update child (SetParentPageId page_id);;
    UnpinPage child true;;
    update this (λ p, set_array (store (array p) (i + current_size) item) p));;
  update this (IncreaseSize size).

(** [BPlusTreeInternalPage::MoveAllTo]:
      page_id_t parent_page_id = GetParentPageId();
      int size = GetSize();
      Page *page = buffer_pool_manager->FetchPage(parent_page_id);
      parent = reinterpret_cast<...>(page->GetData());
      SetKeyAt(0, parent->KeyAt(index_in_parent));
      parent->Remove(index_in_parent);
      buffer_pool_manager->UnpinPage(parent_page_id, true);
      recipient->CopyAllFrom(array, size, buffer_pool_manager);
      IncreaseSize(-1 * size); *)
Definition MoveAllTo (this recipient : page_id_t) (index_in_parent : Z) : M unit :=
  p ← get_page this;
  let parent_page_id := GetParentPageId p in
  let size := GetSize p in
  page ← FetchPage parent_page_id;
  parent_ptr ← lift page;
  parent ← get_page parent_ptr;
  key ← lift (KeyAt index_in_parent parent);
  p ← get_page this;
  p ← lift (SetKeyAt 0 key p);
  put_page this p;;
  parent ← get_page parent_ptr;
  parent ← lift (Remove index_in_parent parent);
  put_page parent_ptr parent;;
  UnpinPage parent_page_id true;;
  CopyAllFrom recipient this size;;
  update this (IncreaseSize (-1 * size)).

(** [BPlusTreeInternalPage::CopyFirstFrom]:
      int parent_page_id = GetParentPageId();
      int page_id = GetPageId();
      Page *parent_page = buffer_pool_manager->FetchPage(parent_page_id);
      parent = reinterpret_cast<...>(parent_page->GetData());
      int size = GetSize();
      memmove(array + 1, array, size * sizeof(MappingType));
      array[0] = pair;
      IncreaseSize(1);
      parent->SetKeyAt(parent_index, pair.first);
      buffer_pool_manager->UnpinPage(parent_page_id, true);
      Page *child_page = buffer_pool_manager->FetchPage(pair.second);
      child = reinterpret_cast<...>(child_page->GetData());
      page_id_t child_page_id = child_page->GetPageId();
      child->SetParentPageId(page_id);
      buffer_pool_manager->UnpinPage(child_page_id, true); *)
Definition CopyFirstFrom (this : page_id_t) (pair : MappingType) (parent_index : Z)
    : M unit :=
  p ← get_page this;
  let parent_page_id := GetParentPageId p in
  let page_id := GetPageId p in
  parent_page ← FetchPage parent_page_id;
  parent_ptr ← lift parent_page;
  p ← get_page this;
  let size := GetSize p in
  arr ← lift (memmove (array p) 1 0 size);
  put_page this (IncreaseSize 1 (set_array (store arr 0 pair) p));;
  parent ← get_page parent_ptr;
  parent ← lift (SetKeyAt parent_index pair.1 parent);
  put_page parent_ptr parent;;
  UnpinPage parent_page_id true;;
  child_page ← FetchPage pair.2;
  child ← lift child_page;
  let child_page_id := child in
  update child (SetParentPageId page_id);;
  UnpinPage child_page_id true;;
  mret ().

(** [BPlusTreeInternalPage::MoveLastToFrontOf]:
      int size = GetSize();
      std::pair<KeyType, ValueType> last = array[size - 1];
      recipient->CopyFirstFrom(last, parent_index, buffer_pool_manager); *)
Definition MoveLastToFrontOf (this recipient : page_id_t) (parent_index : Z) : M unit :=
  p ← get_page this;
  let size := GetSize p in
  let last := array p (size - 1) in
  CopyFirstFrom recipient last parent_index.

(** [BPlusTreeInternalPage::QueueUpChildren]: the queue afterwards.
      for (int i = 0; i < GetSize(); i++) {
        auto *page = buffer_pool_manager->FetchPage(array[i].second);
        if (page == nullptr)
          throw Exception(EXCEPTION_TYPE_INDEX, "all page are pinned while printing");
        queue->push(reinterpret_cast<BPlusTreePage *>(page->GetData()));
      }
    [GetSize()] is read anew at every round; [rounds] bounds the number of
    rounds, which is the size of the page. *)
Fixpoint QueueUpChildren (rounds : nat) (this : page_id_t) (i : Z)
    (queue : list page_id_t) : M (list page_id_t) :=
  p ← get_page this;
  if i <? GetSize p then
    match rounds with
    | O => out_of_fuel
    | S rounds =>
        page ← FetchPage (array p i).2;
        match page with
        | None => throw "all page are pinned while printing"
        | Some node => QueueUpChildren rounds this (i + 1) (queue ++ [node])
        end
    end
  else mret queue.

End Internal.

(** ** Leaf pages: the members that reach into the parent page *)

Module LeafParent.

(** [BPlusTreeLeafPage::MoveFirstToEndOf]:
      recipient->CopyLastFrom(array[0]);
      int size = GetSize();
      memmove(array, array+1, (size-1)*sizeof(MappingType));
      IncreaseSize(-1);
      page_id_t page_id = GetPageId();
      page_id_t parent_page_id = GetParentPageId();
      Page* parent_page = buffer_pool_manager->FetchPage(parent_page_id);
      parent = reinterpret_cast<...>(parent_page->GetData());
      int index_in_parent = parent->ValueIndex(page_id);
      parent->SetKeyAt(index_in_parent, array[0].first);
      buffer_pool_manager->UnpinPage(parent_page_id, true); *)
Definition MoveFirstToEndOf (this recipient : page_id_t) : M unit :=
  p ← get_page this;
  update recipient (Leaf.CopyLastFrom (array p 0));;
  p ← get_page this;
  let size := GetSize p in
  arr ← lift (memmove (array p) 0 1 (size - 1));
  put_page this (IncreaseSize (-1) (set_array arr p));;
  p ← get_page this;
  let page_id := GetPageId p in
  let parent_page_id := GetParentPageId p in
  parent_page ← FetchPage parent_page_id;
  parent_ptr ← lift parent_page;
  parent ← get_page parent_ptr;
  let index_in_parent := Internal.ValueIndex page_id parent in
  p ← get_page this;
  parent ← lift (Internal.SetKeyAt index_in_parent (array p 0).1 parent);
  put_page parent_ptr parent;;
  UnpinPage parent_page_id true;;
  mret ().

(** [BPlusTreeLeafPage::CopyFirstFrom], called on the recipient; [item] is
    a reference to slot [index] of the page [from]:
      int size = GetSize();
      memmove(array+1, array, size*sizeof(MappingType));
      IncreaseSize(1);
      array[0] = item;
      page_id_t parent_page_id = GetParentPageId();
      Page* parent_page = buffer_pool_manager->FetchPage(parent_page_id);
      parent = reinterpret_cast<...>(parent_page->GetData());
      parent->SetKeyAt(parentIndex, array[0].first);
      buffer_pool_manager->UnpinPage(parent_page_id, true); *)
Definition CopyFirstFrom (this from : page_id_t) (index parentIndex : Z) : M unit :=
  p ← get_page this;
  let size := GetSize p in
  arr ← lift (memmove (array p) 1 0 size);
  put_page this (IncreaseSize 1 (set_array arr p));;
  giver ← get_page from;
  let item := array giver index in
  update this (λ p, set_array (store (array p) 0 item) p);;
  p ← get_page this;
  let parent_page_id := GetParentPageId p in
  parent_page ← FetchPage parent_page_id;
  parent_ptr ← lift parent_page;
  parent ← get_page parent_ptr;
  p ← get_page this;
  parent ← lift (Internal.SetKeyAt parentIndex (array p 0).1 parent);
  put_page parent_ptr parent;;
  UnpinPage parent_page_id true;;
  mret ().

(** [BPlusTreeLeafPage::MoveLastToFrontOf]:
      int size = GetSize();
      recipient->CopyFirstFrom(array[size-1], parentIndex, buffer_pool_manager);
      IncreaseSize(-1); *)
Definition MoveLastToFrontOf (this recipient : page_id_t) (parentIndex : Z) : M unit :=
  p ← get_page this;
  let size := GetSize p in
  CopyFirstFrom recipient this (size - 1) parentIndex;;
  update this (IncreaseSize (-1)).

End LeafParent.

(** * B+Tree index  (src/index/b_plus_tree.cpp) *)

Module Tree.

Section tree.

Variables leaf_max_size internal_max_size : Z.

(** [BPlusTree::IsEmpty] *)
Definition IsEmpty : M bool :=
  root ← get_root; mret (root =? INVALID_PAGE_ID).

(** [BPlusTree::UpdateRootPageId] *)
Definition UpdateRootPageId (insert_record : bool) : M unit :=
  header_page ← FetchPage HEADER_PAGE_ID;
  _ ← lift header_page;
  root ← get_root;
  (λ t, (if insert_record
         then InsertRecord (index_name_ t) root
         else UpdateRecord (index_name_ t) root) t);;
  UnpinPage HEADER_PAGE_ID true;;
  mret ().

(** [BPlusTree::FindLeafPage].  [page] is the [Page*] last fetched,
    [btree_page] the node pointer, which the loop only moves at the start of
    a round.
      page_id_t page_id = root_page_id_;
      Page* page = buffer_pool_manager_->FetchPage(page_id);
      BPlusTreePage* btree_page = reinterpret_cast<BPlusTreePage*>(page->GetData());
      while (page != nullptr && !btree_page->IsLeafPage()) {
        btree_page = reinterpret_cast<BPlusTreeInternalPage*>(page->GetData());
        page_id_t old_page_id = page_id;
        if (leftMost == true) page_id = btree_page->ValueAt(0);
        else                  page_id = btree_page->Loopup(key, comparator_);
        buffer_pool_manager_->UnpinPage(old_page_id);
        page = buffer_pool_manager_->FetchPage(page_id);
      }
      return reinterpret_cast<BPlusTreeLeafPage*>(btree_page); *)
Fixpoint FindLeafPage_loop (fuel : nat) (key : KeyType) (leftMost : bool)
    (page : option page_id_t) (btree_page page_id : page_id_t) : M page_id_t :=
  match page with
  | None => mret btree_page
  | Some frame =>
      node ← get_page btree_page;
      if IsLeafPage node then mret btree_page
      else
        match fuel with
        | O => out_of_fuel
        | S fuel =>
            let btree_page := frame in
            node ← get_page btree_page;
            let old_page_id := page_id in
            page_id ← lift (if leftMost then Internal.ValueAt 0 node
                            else Internal.Lookup key node);
            UnpinPage old_page_id false;;
            page ← FetchPage page_id;
            FindLeafPage_loop fuel key leftMost page btree_page page_id
        end
  end.

Definition FindLeafPage (fuel : nat) (key : KeyType) (leftMost : bool) : M page_id_t :=
  page_id ← get_root;
  page ← FetchPage page_id;
  btree_page ← lift page;
  FindLeafPage_loop fuel key leftMost page btree_page page_id.

(** [BPlusTree::GetValue]: the returned flag and the result vector.
      Page* root_page = buffer_pool_manager_->FetchPage(root_page_id_);
      BPluseTreeLeafPage* btree_leaf_page = FindLeafPage(key, false);
      if (btree_leaf_page->Lookup(key, value, comparator_)) result.push_back(value);
      else return false;
      buffer_pool_manager_->UnpinPage(btree_leaf_page->GetPageId(), false);
      return true; *)
Definition GetValue (fuel : nat) (key : KeyType) (result : list ValueType)
    : M (bool * list ValueType) :=
  root ← get_root;
  root_page ← FetchPage root;
  btree_leaf_page ← FindLeafPage fuel key false;
  leaf ← get_page btree_leaf_page;
  match Leaf.Lookup key leaf with
  | Some value =>
      UnpinPage (GetPageId leaf) false;;
      mret (true, result ++ [value])
  | None => mret (false, result)
  end.

(** [BPlusTree::StartNewTree] *)
Definition StartNewTree (key : KeyType) (value : ValueType) : M unit :=
  page ← NewPage;
  match page with
  | None => throw "out of memory"
  | Some btree_leaf_page =>
      set_root btree_leaf_page;;
      UpdateRootPageId true;;
      root ← get_root;
      update btree_leaf_page (Leaf.Init leaf_max_size root INVALID_PAGE_ID);;
      leaf ← get_page btree_leaf_page;
      r ← lift (Leaf.Insert key value leaf);
      put_page btree_leaf_page r.2;;
      root ← get_root;
      UnpinPage root true;;
      mret ()
  end.

(** [BPlusTree::Split], for a leaf and for an internal page. *)
Definition Split_leaf (node : page_id_t) : M page_id_t :=
  page ← NewPage;
  match page with
  | None => throw "out of memory"
  | Some new_node =>
      n ← get_page node;
      update new_node (Leaf.Init leaf_max_size new_node (GetParentPageId n));;
      n ← get_page node;
      nn ← get_page new_node;
      r ← lift (Leaf.MoveHalfTo n nn);
      put_page node r.1;;
      put_page new_node r.2;;
      mret new_node
  end.

Definition Split_internal (node : page_id_t) : M page_id_t :=
  page ← NewPage;
  match page with
  | None => throw "out of memory"
  | Some new_node =>
      n ← get_page node;
      update new_node (Internal.Init internal_max_size new_node (GetParentPageId n));;
      Internal.MoveHalfTo node new_node;;
      mret new_node
  end.

Definition InsertNodeAfter_at (ptr : page_id_t) (old_value : ValueType)
    (new_key : KeyType) (new_value : ValueType) : M unit :=
  p ← get_page ptr;
  r ← lift (Internal.InsertNodeAfter old_value new_key new_value p);
  put_page ptr r.2.

(** [BPlusTree::InsertIntoParent].  The source reads the parent through
    [Page* old_page = old_node->GetParentPageId();], which fetches nothing:
    the parent is reached by its page id without being pinned.  The names
    [btree_parent_page] and [new_old] of the source are [btree_old_page] and
    [new_node]. *)
Fixpoint InsertIntoParent (fuel : nat) (old_node : page_id_t) (key : KeyType)
    (new_node : page_id_t) : M unit :=
  match fuel with
  | O => out_of_fuel
  | S fuel =>
      old ← get_page old_node;
      if IsRootPage old then
        new_root_page ← NewPage;
        match new_root_page with
        | None => throw "out of memory"
        | Some btree_root_page =>
            set_root btree_root_page;;
            old ← get_page old_node;
            new ← get_page new_node;
            update btree_root_page
              (Internal.PopulateNewRoot (GetPageId old) key (GetPageId new));;
            root ← get_root;
            update old_node (SetParentPageId root);;
            update new_node (SetParentPageId root);;
            UpdateRootPageId false
        end
      else
        let btree_old_page := GetParentPageId old in
        parent ← get_page btree_old_page;
        new ← get_page new_node;
        (if GetSize parent <? GetMaxSize parent then
           InsertNodeAfter_at btree_old_page (GetPageId old) key (GetPageId new)
         else
           btree_new_page ← Split_internal btree_old_page;
           np ← get_page btree_new_page;
           mid_key ← lift (Internal.KeyAt 0 np);
           (if comparator key mid_key <? 0 then
              InsertNodeAfter_at btree_old_page (GetPageId old) key (GetPageId new)
            else
              InsertNodeAfter_at btree_new_page (GetPageId old) key (GetPageId new);;
              np ← get_page btree_new_page;
              update new_node (SetParentPageId (GetPageId np)));;
           InsertIntoParent fuel btree_old_page key btree_new_page;;
           np ← get_page btree_new_page;
           UnpinPage (GetPageId np) true;;
           mret ());;
        parent ← get_page btree_old_page;
        UnpinPage (GetPageId parent) true;;
        mret ()
  end.

Definition Leaf_Insert_at (ptr : page_id_t) (key : KeyType) (value : ValueType) : M unit :=
  p ← get_page ptr;
  r ← lift (Leaf.Insert key value p);
  put_page ptr r.2.

(** [BPlusTree::InsertIntoLeaf] *)
Definition InsertIntoLeaf (fuel : nat) (key : KeyType) (value : ValueType) : M bool :=
  btree_leaf_page ← FindLeafPage fuel key false;
  leaf ← get_page btree_leaf_page;
  match Leaf.Lookup key leaf with
  | Some tmp => mret false
  | None =>
      (if GetSize leaf <? GetMaxSize leaf then
         Leaf_Insert_at btree_leaf_page key value
       else
         btree_new_leaf_page ← Split_leaf btree_leaf_page;
         leaf ← get_page btree_leaf_page;
         update btree_new_leaf_page (SetNextPageId (GetNextPageId leaf));;
         new_leaf ← get_page btree_new_leaf_page;
         update btree_leaf_page (SetNextPageId (GetPageId new_leaf));;
         new_leaf ← get_page btree_new_leaf_page;
         mid_key ← lift (Leaf.KeyAt 0 new_leaf);
         InsertIntoParent fuel btree_leaf_page mid_key btree_new_leaf_page;;
         (if comparator key mid_key <? 0
          then Leaf_Insert_at btree_leaf_page key value
          else Leaf_Insert_at btree_new_leaf_page key value);;
         new_leaf ← get_page btree_new_leaf_page;
         UnpinPage (GetPageId new_leaf) true;;
         mret ());;
      leaf ← get_page btree_leaf_page;
      UnpinPage (GetPageId leaf) true;;
      mret true
  end.

(** [BPlusTree::Insert] *)
Definition Insert (fuel : nat) (key : KeyType) (value : ValueType) : M bool :=
  IsEmpty ≫= λ is_empty : bool,
  if is_empty then StartNewTree key value;; mret true
  else InsertIntoLeaf fuel key value.

(** [BPlusTree::CoalesceOrRedistribute]: [return false;] *)
Definition CoalesceOrRedistribute (node : page_id_t) : M bool := mret false.

(** [BPlusTree::Remove]:
      if (IsEmpty()) return;
      BPlusTreeLeafPage* btree_leaf_page = FindLeafPage(key, false);
      if (btree_leaf_page == nullptr) return;
      if (btree_leaef_page->GetSize() < btree_leaf_page->GetMinSize())
        CoalesceOrRedistribute(btree_leaf_page, transaction);
    The pointer [FindLeafPage] returns is never null when it returns. *)
Definition Remove (fuel : nat) (key : KeyType) : M unit :=
  IsEmpty ≫= λ is_empty : bool,
  if is_empty then mret ()
  else
    btree_leaf_page ← FindLeafPage fuel key false;
    leaf ← get_page btree_leaf_page;
    if GetSize leaf <? GetMinSize leaf
    then CoalesceOrRedistribute btree_leaf_page;; mret ()
    else mret ().

(** [BPlusTree::AdjustRoot].  The source names its argument
    [old_root_node] and reads it as [old_root_page]; the page fetched as
    [new_root_page] is read through the name [page].
      int size = old_root_page->GetSize();
      if (!old_root_page->IsLeafPage()) {
        if (size == 1) {
          root_page_id_ = old_root_node->ValueAt(0);
          UpdateRootPageId(false);
          Page* new_root_page = buffer_pool_manager_->FetchPage(root_page_id_);
          BPlusTreePage* new_root_node = reinterpret_cast<BPlusTreePage*>(page->GetData());
          new_root_node->SetParentPageId(INVALID_PAGE_ID);
          buffer_pool_manager_->UnpinPage(new_root_node->GetPageId(), true);
          return true;
        }
      } else {
        if (old_root_page->GetSize() == 0) {
          root_page_id_ = INVALID_PAGE_ID;
          UpdateRootPageId(false);
          return true;
        }
      }
      return false; *)
Definition AdjustRoot (old_root_node : page_id_t) : M bool :=
  old_root ← get_page old_root_node;
  let size := GetSize old_root in
  if negb (IsLeafPage old_root) then
    if size =? 1 then
      child ← lift (Internal.ValueAt 0 old_root);
      set_root child;;
      UpdateRootPageId false;;
      root ← get_root;
      new_root_page ← FetchPage root;
      new_root_node ← lift new_root_page;
      update new_root_node (SetParentPageId INVALID_PAGE_ID);;
      new_root ← get_page new_root_node;
      UnpinPage (GetPageId new_root) true;;
      mret true
    else mret false
  else
    if GetSize old_root =? 0 then
      set_root INVALID_PAGE_ID;;
      UpdateRootPageId false;;
      mret true
    else mret false.

End tree.

(** The header record [UpdateRootPageId] leaves: [InsertRecord] adds a
    record only for a name that has none, [UpdateRecord] changes a record
    only where there is one. *)
Definition header_after (insert_record : bool) (name : string) (root : Z)
    (header : gmap string Z) : gmap string Z :=
  match header !! name with
  | Some _ => if insert_record then header else <[name := root]> header
  | None => if insert_record then <[name := root]> header else header
  end.

(** An index named "idx" over a pool of [pool_size] frames whose memory is
    zeroed, holding no tree yet; leaves take 4 entries, internal pages 4. *)
Definition zero_page : BPlusTreePage :=
  mkPage INVALID_INDEX_PAGE 0 0 0 0 0 (slots_of_list []).

Definition empty_pool (pool_size : Z) : BufferPoolManager :=
  mkPool pool_size ∅ ∅ 1 zero_page ∅ [].

Definition empty_tree (pool_size : Z) : BPlusTree :=
  mkTree "idx" INVALID_PAGE_ID (empty_pool pool_size).

(** A computation that, when it returns, has written to no page and has
    left the root where it was. *)
Definition same_pages (t t' : BPlusTree) : Prop :=
  pages_ (buffer_pool_manager_ t') = pages_ (buffer_pool_manager_ t)
  ∧ root_page_id_ t' = root_page_id_ t.

Definition read_only {A} (m : M A) : Prop :=
  ∀ t a t', m t = Ret a t' → same_pages t t'.

(** Test pages: a leaf and an internal page of capacity 10 with the given
    slots, the rest of the page zeroed. *)
Definition leaf_of (l : list MappingType) (next : page_id_t) : BPlusTreePage :=
  mkPage LEAF_PAGE (Z.of_nat (length l)) 10 INVALID_PAGE_ID 2 next (slots_of_list l).
Definition internal_of (l : list MappingType) : BPlusTreePage :=
  mkPage INTERNAL_PAGE (Z.of_nat (length l)) 10 INVALID_PAGE_ID 3 INVALID_PAGE_ID
         (slots_of_list l).

(** A parent (page 3) over internal children with the given page ids, in
    slot order, separated by the keys 10, 20, ...; child [c] has the two
    leaves [100 + c] and [200 + c] below it.  Every page is resident and
    unpinned. *)
Definition family_pages (children : list page_id_t) : list (page_id_t * BPlusTreePage) :=
  (3, mkPage INTERNAL_PAGE (Z.of_nat (length children)) 10 INVALID_PAGE_ID 3
        INVALID_PAGE_ID (slots_of_list (imap (λ j c, (10 * Z.of_nat j, c)) children)))
  :: mjoin (imap (λ j c,
       [(c, mkPage INTERNAL_PAGE 2 10 3 c INVALID_PAGE_ID
              (slots_of_list [(0, 100 + c); (10 * Z.of_nat j + 5, 200 + c)]));
        (100 + c, mkPage LEAF_PAGE 0 10 c (100 + c) INVALID_PAGE_ID (slots_of_list []));
        (200 + c, mkPage LEAF_PAGE 0 10 c (200 + c) INVALID_PAGE_ID (slots_of_list []))])
     children).

Definition family (children : list page_id_t) : BPlusTree :=
  mkTree "idx" 3
    (mkPool 10 (list_to_map (family_pages children)) ∅ 1000 zero_page ∅ []).

(** A parent (page 3) over the two leaves 1 and 2, which hold the entries
    [l1] and [l2]; [sep] is the key of the parent's slot 1.  Every page is
    resident and unpinned. *)
Definition two_leaves (l1 : list MappingType) (sep : KeyType) (l2 : list MappingType)
    : BPlusTree :=
  mkTree "idx" 3
    (mkPool 10
       (list_to_map
          [(3, mkPage INTERNAL_PAGE 2 10 INVALID_PAGE_ID 3 INVALID_PAGE_ID
                 (slots_of_list [(0, 1); (sep, 2)]));
           (1, mkPage LEAF_PAGE (Z.of_nat (length l1)) 10 3 1 2 (slots_of_list l1));
           (2, mkPage LEAF_PAGE (Z.of_nat (length l2)) 10 3 2 INVALID_PAGE_ID
                 (slots_of_list l2))])
       ∅ 1000 zero_page ∅ []).

(** The slots [0 .. size-1] of a page of a tree, and its parent pointer. *)
Definition entries_of (t : BPlusTree) (page_id : page_id_t) : option (list MappingType) :=
  (λ p, prefix (array p) (GetSize p)) <$> pages_ (buffer_pool_manager_ t) !! page_id.
Definition parent_of (t : BPlusTree) (page_id : page_id_t) : option page_id_t :=
  GetParentPageId <$> pages_ (buffer_pool_manager_ t) !! page_id.

(** What a call leaves behind, in terms that can be compared: the returned
    value, the log of pool calls, and the pin count of every page. *)
Definition returned {A} (r : result A) : option A :=
  match r with Ret a _ => Some a | _ => None end.
Definition state_after {A} (r : result A) : option BPlusTree :=
  match r with Ret _ t => Some t | _ => None end.
Definition log_of (t : BPlusTree) : list PoolEvent := log_ (buffer_pool_manager_ t).
Definition pins_of (t : BPlusTree) : list (Z * Z) :=
  map_to_list (pin_count_ (buffer_pool_manager_ t)).

(** The pool calls that a call added to the log of [t], and the pin count
    it left on the page [page_id]. *)
Definition calls_after {A} (t : BPlusTree) (page_id : page_id_t) (r : result A)
    : option (list PoolEvent * Z) :=
  (λ t', (drop (length (log_of t)) (log_of t'),
          pins (buffer_pool_manager_ t') page_id)) <$> state_after r.

(** The tree of one leaf that [Insert key value] builds in an empty index
    over a pool of ten frames. *)
Definition one_leaf_tree (key : KeyType) (value : ValueType) : BPlusTree :=
  default (empty_tree 10) (state_after (Insert 4 4 0 key value (empty_tree 10))).

End Tree.

End BTree.

(** * Facts about the LRU replacer *)

Section lru_facts.
Import LRU.
Context `{Countable T}.
Implicit Types (s : LRUReplacer T) (l : list (iterator * T)) (q : list T).

Lemma list_erase_values l n v :
  (∀ m w, (m, w) ∈ l → (m = n ↔ w = v)) →
  (list_erase n l).*2 = filter (λ y, y ≠ v) l.*2.
Proof.
  unfold list_erase. induction l as [|[m w] l IH]; intros Hl; [done|].
  assert (m = n ↔ w = v) as Hmw by (apply Hl; left).
  assert ((filter (λ p : iterator * T, p.1 ≠ n) l).*2 = filter (λ y, y ≠ v) l.*2) as IH'.
  { apply IH. intros m' w' Hin. apply Hl. by right. }
  rewrite fmap_cons, !filter_cons. simpl.
  destruct (decide (m ≠ n)) as [Hm|Hm], (decide (w ≠ v)) as [Hw|Hw]; simpl.
  - f_equal. exact IH'.
  - exfalso. apply Hm, Hmw. by destruct (decide (w = v)).
  - exfalso. apply Hw, Hmw. by destruct (decide (m = n)).
  - exact IH'.
Qed.

Lemma filter_absent q v : v ∉ q → filter (λ y, y ≠ v) q = q.
Proof.
  induction q as [|y q IH]; intros Hv; [done|].
  apply not_elem_of_cons in Hv as [Hy Hq].
  rewrite filter_cons. destruct (decide (y ≠ v)); [|done].
  by rewrite IH.
Qed.

Lemma Inv_new : Inv (@LRUReplacer_new T _ _).
Proof.
  split; simpl.
  - constructor.
  - intros v n. rewrite lookup_empty. split; [done|]. by intros ?%elem_of_nil.
  - by intros n v ?%elem_of_nil.
Qed.

Lemma Inv_same_node s n v w :
  Inv s → (n, v) ∈ list_ s → (n, w) ∈ list_ s → v = w.
Proof.
  intros [Hnd _ _]. revert Hnd.
  induction (list_ s) as [|[m u] l IH]; simpl; intros Hnd Hv Hw.
  - by apply elem_of_nil in Hv.
  - apply NoDup_cons in Hnd as [Hm Hnd].
    apply elem_of_cons in Hv as [Hv|Hv], Hw as [Hw|Hw]; simplify_eq.
    + done.
    + exfalso. apply Hm. apply list_elem_of_fmap. by exists (m, w).
    + exfalso. apply Hm. apply list_elem_of_fmap. by exists (m, v).
    + by apply IH.
Qed.

Lemma Inv_erase_values s it v :
  Inv s → map_ s !! v = Some it →
  (list_erase it (list_ s)).*2 = filter (λ y, y ≠ v) (elems s).
Proof.
  intros HI Hit. apply list_erase_values. intros m w Hin. split.
  - intros ->. apply (inv_map _ HI) in Hit. eapply Inv_same_node; eauto.
  - intros ->. apply (inv_map _ HI) in Hin. congruence.
Qed.

Lemma Inv_absent s v : Inv s → map_ s !! v = None → v ∉ elems s.
Proof.
  intros HI Hv [[n w] [-> Hin]]%list_elem_of_fmap. simpl in Hv.
  apply (inv_map _ HI) in Hin. congruence.
Qed.

Lemma elem_of_list_erase l it p : p ∈ list_erase it l ↔ p.1 ≠ it ∧ p ∈ l.
Proof. unfold list_erase. by rewrite list_elem_of_filter. Qed.

Lemma NoDup_list_erase l it : NoDup l.*1 → NoDup (list_erase it l).*1.
Proof.
  unfold list_erase. induction l as [|[m w] l IH]; simpl; [done|].
  intros [Hm Hnd]%NoDup_cons. rewrite filter_cons. simpl.
  destruct (decide (m ≠ it)); [|by apply IH].
  rewrite fmap_cons. apply NoDup_cons. split; [|by apply IH].
  intros [[m' w'] [Hm' [_ Hin]%list_elem_of_filter]]%list_elem_of_fmap.
  simpl in Hm'. subst m'. apply Hm. apply list_elem_of_fmap. by exists (m, w').
Qed.

Lemma list_erase_cons_ne l it n v :
  n ≠ it → list_erase it ((n, v) :: l) = (n, v) :: list_erase it l.
Proof.
  intros Hn. unfold list_erase. rewrite filter_cons. simpl.
  by destruct (decide (n ≠ it)).
Qed.

(** [Insert] puts its value in front and drops the older occurrence. *)
Lemma Insert_elems s v :
  Inv s → elems (Insert v s) = v :: filter (λ y, y ≠ v) (elems s).
Proof.
  intros HI. unfold elems, Insert. simpl.
  destruct (map_ s !! v) as [it|] eqn:Hit; simpl.
  - assert (it < next_node_ s) as Hlt.
    { apply (inv_fresh _ HI it v). by apply (inv_map _ HI). }
    rewrite list_erase_cons_ne by lia.
    rewrite fmap_cons. simpl. f_equal. by apply Inv_erase_values.
  - f_equal. symmetry. apply filter_absent. by apply Inv_absent.
Qed.

Lemma Insert_Inv s v : Inv s → Inv (Insert v s).
Proof.
  intros HI. pose proof (inv_fresh _ HI) as Hfresh.
  assert (next_node_ s ∉ (list_ s).*1) as Hnew.
  { intros [[m w] [Hm Hin]]%list_elem_of_fmap. apply Hfresh in Hin. simpl in Hm. lia. }
  unfold Insert. destruct (map_ s !! v) as [it|] eqn:Hit; simpl.
  - assert (it < next_node_ s) as Hlt.
    { apply (Hfresh it v). by apply (inv_map _ HI). }
    rewrite list_erase_cons_ne by lia. split; simpl.
    + apply NoDup_cons. split.
      * intros [[m w] [Hm [_ Hin]%elem_of_list_erase]]%list_elem_of_fmap.
        apply Hnew. apply list_elem_of_fmap. by exists (m, w).
      * apply NoDup_list_erase, HI.
    + intros w m. rewrite elem_of_cons, elem_of_list_erase. simpl.
      destruct (decide (v = w)) as [->|Hne].
      * rewrite lookup_insert_eq. split.
        -- intros ?. left. by simplify_eq.
        -- intros [Heq|[Hm Hin]]; [by simplify_eq|].
           apply (inv_map _ HI) in Hin. congruence.
      * rewrite lookup_insert_ne by done. rewrite (inv_map _ HI). split.
        -- intros Hin. right. split; [|done]. intros ->.
           apply Hne. apply (inv_map _ HI) in Hit. eapply Inv_same_node; eauto.
        -- intros [Heq|[_ Hin]]; [by simplify_eq|done].
    + intros m w [Heq|[_ Hin]%elem_of_list_erase]%elem_of_cons.
      * simplify_eq. lia.
      * apply Hfresh in Hin. lia.
  - split; simpl.
    + apply NoDup_cons. split; [done|apply HI].
    + intros w m. rewrite elem_of_cons.
      destruct (decide (v = w)) as [->|Hne].
      * rewrite lookup_insert_eq. split.
        -- intros ?. left. by simplify_eq.
        -- intros [Heq|Hin]; [by simplify_eq|].
           apply (inv_map _ HI) in Hin. congruence.
      * rewrite lookup_insert_ne by done. rewrite (inv_map _ HI). split.
        -- intros Hin. by right.
        -- intros [Heq|Hin]; [by simplify_eq|done].
    + intros m w [Heq|Hin]%elem_of_cons.
      * simplify_eq. lia.
      * apply Hfresh in Hin. lia.
Qed.

End lru_facts.

Section lru_refinement.
Import LRU.
Context `{Countable T}.
Implicit Types (s : LRUReplacer T) (l : list (iterator * T)) (q : list T).
Implicit Types (o : Op T) (ops : list (Op T)).

Lemma list_erase_absent l it : it ∉ l.*1 → list_erase it l = l.
Proof.
  unfold list_erase. induction l as [|[m w] l IH]; simpl; intros Hit; [done|].
  apply not_elem_of_cons in Hit as [Hm Hl].
  rewrite filter_cons. simpl.
  destruct (decide (m ≠ it)) as [_|Hn]; [|exfalso; apply Hn; congruence].
  by rewrite IH.
Qed.

Lemma Erase_elems s v :
  Inv s → elems (Erase v s).2 = filter (λ y, y ≠ v) (elems s).
Proof.
  intros HI. unfold Erase. destruct (map_ s !! v) as [it|] eqn:Hit; simpl.
  - by apply Inv_erase_values.
  - symmetry. apply filter_absent. by apply Inv_absent.
Qed.

Lemma Erase_Inv s v : Inv s → Inv (Erase v s).2.
Proof.
  intros HI. unfold Erase. destruct (map_ s !! v) as [it|] eqn:Hit; simpl; [|done].
  split; simpl.
  - apply NoDup_list_erase, HI.
  - intros w m. rewrite elem_of_list_erase. simpl.
    destruct (decide (v = w)) as [->|Hne].
    + rewrite lookup_delete_eq. split; [done|]. intros [Hm Hin].
      apply (inv_map _ HI) in Hin. congruence.
    + rewrite lookup_delete_ne by done. rewrite (inv_map _ HI). split; [|tauto].
      intros Hin. split; [|done]. intros ->. apply Hne.
      apply (inv_map _ HI) in Hit. eapply Inv_same_node; eauto.
  - intros m w [_ Hin]%elem_of_list_erase. by apply (inv_fresh _ HI) in Hin.
Qed.

Lemma Victim_snoc s l n x :
  list_ s = l ++ [(n, x)] →
  Victim s = (Some x, {| list_ := l; map_ := delete x (map_ s); next_node_ := next_node_ s |}).
Proof.
  intros Hl. unfold Victim. rewrite Hl, last_snoc. by rewrite removelast_last.
Qed.

Lemma Erase_last s l n x :
  Inv s → list_ s = l ++ [(n, x)] →
  (Erase x s).2 = {| list_ := l; map_ := delete x (map_ s); next_node_ := next_node_ s |}.
Proof.
  intros HI Hl. unfold Erase.
  assert (map_ s !! x = Some n) as ->.
  { apply (inv_map _ HI). rewrite Hl. apply elem_of_app. right. by left. }
  simpl. f_equal. rewrite Hl. unfold list_erase. rewrite filter_app.
  pose proof (inv_nodup _ HI) as Hnd. rewrite Hl, fmap_app in Hnd.
  apply NoDup_app in Hnd as (_ & Hdisj & _).
  fold (list_erase n l). rewrite list_erase_absent.
  - rewrite filter_cons. simpl. destruct (decide (n ≠ n)); [done|]. by rewrite app_nil_r.
  - intros Hn. apply (Hdisj n Hn). by left.
Qed.

Lemma Victim_Inv s : Inv s → Inv (Victim s).2.
Proof.
  intros HI. destruct (last (list_ s)) as [[n x]|] eqn:Hlast.
  - apply last_Some in Hlast as [l Hl].
    rewrite (Victim_snoc _ _ _ _ Hl). simpl.
    rewrite <- (Erase_last _ _ _ _ HI Hl). by apply Erase_Inv.
  - unfold Victim. by rewrite Hlast.
Qed.

Lemma Victim_elems s : elems (Victim s).2 = removelast (elems s).
Proof.
  destruct (last (list_ s)) as [[n x]|] eqn:Hlast.
  - apply last_Some in Hlast as [l Hl].
    rewrite (Victim_snoc _ _ _ _ Hl). unfold elems. simpl.
    by rewrite Hl, fmap_snoc, removelast_last.
  - unfold Victim. rewrite Hlast. simpl.
    apply last_None in Hlast. unfold elems. by rewrite Hlast.
Qed.

Lemma Victim_value s : (Victim s).1 = last (elems s).
Proof.
  unfold Victim, elems. rewrite fmap_last.
  by destruct (last (list_ s)) as [[n x]|].
Qed.

Lemma step_abstracts s q o :
  abstracts s q → abstracts (step s o) (last_insert_order_step q o).
Proof.
  intros [HI Hq]. destruct o as [x| |x]; simpl.
  - split; [by apply Insert_Inv|].
    rewrite Insert_elems by done.
    by rewrite Hq, filter_reverse, reverse_snoc.
  - split; [by apply Victim_Inv|].
    rewrite Victim_elems, Hq. destruct q as [|y q]; [done|].
    simpl. by rewrite reverse_cons, removelast_last.
  - split; [by apply Erase_Inv|].
    rewrite Erase_elems by done. by rewrite Hq, filter_reverse.
Qed.

Lemma foldl_abstracts ops s q :
  abstracts s q →
  abstracts (foldl step s ops) (foldl last_insert_order_step q ops).
Proof.
  revert s q. induction ops as [|o ops IH]; intros s q Hsq; [done|].
  simpl. by apply IH, step_abstracts.
Qed.

Lemma run_abstracts ops : abstracts (run ops) (last_insert_order ops).
Proof. apply foldl_abstracts. split; [apply Inv_new|done]. Qed.

(** [remove_dups] keeps the last occurrence of every value. *)
Lemma remove_dups_snoc (xs : list T) x :
  remove_dups (xs ++ [x]) = filter (λ y, y ≠ x) (remove_dups xs) ++ [x].
Proof.
  induction xs as [|y xs IH]; [done|].
  cbn [app remove_dups].
  destruct (decide (y = x)) as [->|Hne].
  - destruct (decide_rel elem_of x (xs ++ [x])) as [_|Hnin].
    + rewrite IH. destruct (decide_rel elem_of x xs); [done|].
      rewrite filter_cons. by destruct (decide (x ≠ x)).
    + exfalso. apply Hnin, elem_of_app. right. by left.
  - destruct (decide_rel elem_of y (xs ++ [x])) as [Hin|Hnin];
      destruct (decide_rel elem_of y xs) as [Hin'|Hnin'].
    + done.
    + exfalso. apply elem_of_app in Hin as [?|Hin]; [done|].
      apply list_elem_of_singleton in Hin. done.
    + exfalso. apply Hnin, elem_of_app. by left.
    + rewrite filter_cons. destruct (decide (y ≠ x)); [|done].
      cbn [app]. by rewrite IH.
Qed.

(** After a run of [Insert] calls the order is the run itself without the
    earlier occurrences of values inserted again. *)
Lemma last_insert_order_inserts (xs : list T) :
  last_insert_order (OpInsert <$> xs) = remove_dups xs.
Proof.
  unfold last_insert_order. induction xs as [|x xs IH] using rev_ind; [done|].
  by rewrite fmap_app, foldl_app, IH, remove_dups_snoc.
Qed.

Lemma last_insert_order_victims ops (k : nat) :
  last_insert_order (ops ++ replicate k OpVictim) = drop k (last_insert_order ops).
Proof.
  unfold last_insert_order. rewrite foldl_app.
  generalize (foldl last_insert_order_step [] ops). clear ops.
  induction k as [|k IH]; intros q; [done|].
  cbn [replicate foldl last_insert_order_step]. rewrite IH.
  destruct q as [|x q]; [|done]. simpl. by rewrite drop_nil.
Qed.

End lru_refinement.

(** C8.  After any history of [Insert], [Victim] and [Erase] calls, [Victim]
    hands out the live value whose last [Insert] is the oldest, the replacer
    holds exactly the live values, and [Victim] fails exactly when it is
    empty.  After a run of [Insert] calls with the values [xs], the [k+1]-th
    [Victim] returns the [k]-th value of [xs] once every value is kept at
    its last occurrence only, and fails past the end.  On the history
    Insert 1, 2, 3; Victim; Insert 2; Victim; Victim; Victim the four
    [Victim] calls return 1, 3, 2 and then fail. *)
Theorem Victim_returns_in_last_insert_order :
  (∀ (T : Type) (EqT : EqDecision T) (CntT : Countable T) (ops : list (LRU.Op T)),
      (LRU.Victim (LRU.run ops)).1 = head (LRU.last_insert_order ops)
      ∧ LRU.Size (LRU.run ops) = length (LRU.last_insert_order ops)
      ∧ ((LRU.Victim (LRU.run ops)).1 = None ↔ LRU.Size (LRU.run ops) = 0))
  ∧ (∀ (T : Type) (EqT : EqDecision T) (CntT : Countable T) (xs : list T) (k : nat),
      (LRU.Victim (LRU.run ((LRU.OpInsert <$> xs) ++ replicate k LRU.OpVictim))).1
      = remove_dups xs !! k)
  ∧ (let s3 := LRU.Insert 3%Z (LRU.Insert 2%Z (LRU.Insert 1%Z LRU.LRUReplacer_new)) in
     let v1 := LRU.Victim s3 in
     let v2 := LRU.Victim (LRU.Insert 2%Z v1.2) in
     let v3 := LRU.Victim v2.2 in
     let v4 := LRU.Victim v3.2 in
     v1.1 = Some 1%Z ∧ v2.1 = Some 3%Z ∧ v3.1 = Some 2%Z ∧ v4.1 = None).
Proof.
  split.
  - intros T EqT CntT ops.
    destruct (run_abstracts ops) as [HI Hq].
    assert (LRU.Size (LRU.run ops) = length (LRU.last_insert_order ops)) as Hsize.
    { unfold LRU.Size. rewrite <- (length_fmap snd). fold (LRU.elems (LRU.run ops)).
      by rewrite Hq, length_reverse. }
    split; [|split; [done|]].
    + by rewrite Victim_value, Hq, last_reverse.
    + rewrite Victim_value, last_None. unfold LRU.Size, LRU.elems.
      split.
      * intros Hnil%fmap_nil_inv. by rewrite Hnil.
      * intros Hlen%nil_length_inv. by rewrite Hlen.
  - split; [|vm_compute; done].
    intros T EqT CntT xs k.
    destruct (run_abstracts ((LRU.OpInsert <$> xs) ++ replicate k LRU.OpVictim))
      as [_ Hq].
    rewrite Victim_value, Hq, last_reverse.
    rewrite last_insert_order_victims, last_insert_order_inserts.
    by rewrite head_lookup, lookup_drop, Nat.add_0_r.
Qed.


(** * Facts about the extendible hash table *)

Section hash_bits.
Import Hash.
Local Open Scope Z_scope.

Lemma GETBIT_mask n :
  0 ≤ n ≤ 32 → 4294967295 - Z.shiftl 4294967295 n mod 2 ^ 32 = Z.ones n.
Proof.
  intros Hn. rewrite Z.shiftl_mul_pow2 by lia. rewrite Z.ones_equiv.
  assert (0 < 2 ^ n ≤ 2 ^ 32) as Hpow.
  { split; [apply Z.pow_pos_nonneg; lia|apply Z.pow_le_mono_r; lia]. }
  change (2 ^ 32) with 4294967296 in *.
  assert ((4294967295 * 2 ^ n) mod 4294967296 = 4294967296 - 2 ^ n) as ->; [|lia].
  symmetry. apply Z.mod_unique with (2 ^ n - 1); lia.
Qed.

(** Up to a global depth of 30, where the C shifts are defined, [GETBIT]
    keeps the low [y + 1] bits. *)
Lemma GETBIT_low_bits x y : 0 ≤ y ≤ 30 → GETBIT x y = x mod 2 ^ (y + 1).
Proof.
  intros Hy. unfold GETBIT. rewrite GETBIT_mask by lia. apply Z.land_ones. lia.
Qed.

Lemma GETBIT_range x y : 0 ≤ y → 0 ≤ GETBIT x y < 2 ^ (y + 1).
Proof.
  intros Hy. unfold GETBIT. destruct (decide (y + 1 ≤ 32)) as [Hle|Hgt].
  - rewrite GETBIT_mask by lia. rewrite Z.land_ones by lia.
    apply Z.mod_pos_bound. apply Z.pow_pos_nonneg; lia.
  - assert (Z.shiftl 4294967295 (y + 1) mod 2 ^ 32 = 0) as ->.
    { rewrite Z.shiftl_mul_pow2 by lia.
      replace (y + 1) with ((y + 1 - 32) + 32) by lia.
      rewrite Z.pow_add_r, Z.mul_assoc by lia. apply Z.mod_mul. lia. }
    change (4294967295 - 0) with (Z.ones 32). rewrite Z.land_ones by lia.
    pose proof (Z.mod_pos_bound x (2 ^ 32) ltac:(lia)).
    assert (2 ^ 32 ≤ 2 ^ (y + 1)) by (apply Z.pow_le_mono_r; lia). lia.
Qed.

Lemma SETBIT_range x y n :
  0 ≤ x < 2 ^ n → 0 ≤ y < n → 0 ≤ SETBIT x y < 2 ^ n.
Proof.
  intros Hx Hy. unfold SETBIT. rewrite Z.shiftl_1_l.
  assert (0 < 2 ^ y) as Hpos by (apply Z.pow_pos_nonneg; lia).
  split; [apply Z.lor_nonneg; lia|].
  destruct (decide (x = 0)) as [->|Hx0].
  - rewrite Z.lor_0_l. apply Z.pow_lt_mono_r; lia.
  - apply Z.log2_lt_pow2.
    + assert (0 ≤ Z.lor x (2 ^ y)) by (apply Z.lor_nonneg; lia).
      assert (Z.lor x (2 ^ y) ≠ 0); [|lia].
      rewrite Z.lor_eq_0_iff. lia.
    + rewrite Z.log2_lor by lia. rewrite Z.log2_pow2 by lia.
      apply Z.max_lub_lt; [|lia]. apply Z.log2_lt_pow2; lia.
Qed.

End hash_bits.

Section hash_facts.
Import Hash.
Local Open Scope Z_scope.
Context `{Countable K} {V : Type}.
Variable Hasher : K → Z.
Implicit Types (b : Bucket K V) (t : ExtendibleHash K V).
Implicit Types (heap : list (Bucket K V)) (slots : list (option loc)).

Lemma vector_get_in_range {A} (v : list A) i :
  0 ≤ i < Z.of_nat (length v) → ∃ x, vector_get v i = Some x ∧ v !! Z.to_nat i = Some x.
Proof.
  intros Hi. unfold vector_get.
  destruct (0 <=? i) eqn:Hle; [|lia].
  destruct (lookup_lt_is_Some_2 v (Z.to_nat i)) as [x Hx]; [lia|]. eauto.
Qed.

Lemma vector_set_in_range {A} (v : list A) i x :
  0 ≤ i < Z.of_nat (length v) → vector_set v i x = Some (<[Z.to_nat i := x]> v).
Proof.
  intros Hi. unfold vector_set.
  destruct (0 <=? i) eqn:Hle; [|lia]. destruct (i <? Z.of_nat (length v)) eqn:Hlt; [done|lia].
Qed.

Lemma vector_get_Some {A} (v : list A) i x :
  vector_get v i = Some x → v !! Z.to_nat i = Some x.
Proof. unfold vector_get. by destruct (0 <=? i). Qed.

Lemma Split_headers b :
  id_ (Split Hasher b).1 = id_ b
  ∧ local_depth_ (Split Hasher b).1 = local_depth_ b + 1
  ∧ id_ (Split Hasher b).2 = SETBIT (id_ b) (local_depth_ b + 1)
  ∧ local_depth_ (Split Hasher b).2 = local_depth_ b + 1.
Proof.
  unfold Split.
  set (f := λ '(this, new_bucket) '(k, v), _).
  assert (∀ kvs (p : Bucket K V * Bucket K V),
            id_ (foldl f p kvs).1 = id_ p.1
            ∧ local_depth_ (foldl f p kvs).1 = local_depth_ p.1
            ∧ id_ (foldl f p kvs).2 = id_ p.2
            ∧ local_depth_ (foldl f p kvs).2 = local_depth_ p.2) as Hfold.
  { induction kvs as [|[k v] kvs IH]; intros [this nb]; [done|].
    simpl. destruct (negb (ISZERO (Hasher k) (local_depth_ b + 1))); apply IH. }
  match goal with |- context [foldl f ?p ?kvs] => exact (Hfold kvs p) end.
Qed.

Lemma slots_ok_mono G G' heap slots :
  G ≤ G' → slots_ok G heap slots → slots_ok G' heap slots.
Proof.
  intros HG Hok i l Hil. destruct (Hok i l Hil) as (b & Hb & Hid & Hd).
  exists b. split; [done|]. split; [|lia].
  assert (2 ^ (G + 1) ≤ 2 ^ (G' + 1)) by (apply Z.pow_le_mono_r; lia). lia.
Qed.

Lemma slots_ok_heap_update G heap slots l b' :
  header_ok G b' → slots_ok G heap slots → slots_ok G (<[l := b']> heap) slots.
Proof.
  intros [Hid Hd] Hok i l' Hil. destruct (Hok i l' Hil) as (b & Hb & Hb').
  destruct (decide (l = l')) as [->|Hne].
  - exists b'. split; [|done]. apply list_lookup_insert_eq. by eapply lookup_lt_Some.
  - exists b. by rewrite list_lookup_insert_ne.
Qed.

Lemma slots_ok_heap_app G heap slots b' :
  slots_ok G heap slots → slots_ok G (heap ++ [b']) slots.
Proof.
  intros Hok i l Hil. destruct (Hok i l Hil) as (b & Hb & Hb').
  exists b. split; [|done]. by apply lookup_app_l_Some.
Qed.

Lemma slots_ok_set G heap slots i l b :
  heap !! l = Some b → header_ok G b →
  slots_ok G heap slots → slots_ok G heap (<[i := Some l]> slots).
Proof.
  intros Hl [Hid Hd] Hok j l' Hj.
  destruct (decide (i = j)) as [->|Hne].
  - destruct (decide (j < length slots)%nat).
    + rewrite list_lookup_insert_eq in Hj by done. simplify_eq. eauto.
    + rewrite list_insert_ge in Hj by lia. eauto.
  - rewrite list_lookup_insert_ne in Hj by done. eauto.
Qed.

Lemma slots_ok_copy G heap slots i j p :
  slots !! j = Some p →
  slots_ok G heap slots → slots_ok G heap (<[i := p]> slots).
Proof.
  intros Hp Hok k l Hk.
  destruct (decide (i = k)) as [->|Hne].
  - destruct (decide (k < length slots)%nat).
    + rewrite list_lookup_insert_eq in Hk by done. simplify_eq. eauto.
    + rewrite list_insert_ge in Hk by lia. eauto.
  - rewrite list_lookup_insert_ne in Hk by done. eauto.
Qed.

Lemma slots_ok_resize G heap slots n :
  slots_ok G heap slots → slots_ok G heap (resize n None slots).
Proof.
  intros Hok i l Hil.
  destruct (decide (i < length slots)%nat) as [Hlt|Hge].
  - apply (Hok i l). destruct (decide (i < n)%nat).
    + by rewrite lookup_resize in Hil by lia.
    + rewrite lookup_ge_None_2 in Hil; [done|]. rewrite length_resize. lia.
  - destruct (decide (i < n)%nat).
    + rewrite lookup_resize_new in Hil by lia. done.
    + rewrite lookup_ge_None_2 in Hil; [done|]. rewrite length_resize. lia.
Qed.

Lemma expand_copy_ok G heap slots i :
  0 ≤ G → 0 ≤ i < 2 ^ G →
  Z.of_nat (length slots) = 2 ^ (G + 1) → slots_ok G heap slots →
  ∃ slots', expand_copy G heap (Some slots) i = Some slots'
            ∧ length slots' = length slots ∧ slots_ok G heap slots'.
Proof.
  intros HG Hi Hlen Hok.
  assert (2 ^ (G + 1) = 2 * 2 ^ G) as Hpow.
  { rewrite Z.pow_add_r by lia. change (2 ^ 1) with 2. lia. }
  assert (0 ≤ SETBIT i G < Z.of_nat (length slots)) as Hset.
  { rewrite Hlen. apply SETBIT_range; lia. }
  unfold expand_copy. simpl.
  destruct (vector_get_in_range slots i) as (p & -> & Hp); [lia|]. simpl.
  destruct p as [l|].
  - destruct (Hok _ _ Hp) as (b & -> & Hb). simpl.
    destruct (local_depth_ b <? G).
    + rewrite vector_set_in_range by done. eexists. split; [done|].
      split; [by rewrite length_insert|]. by eapply slots_ok_copy.
    + eauto.
  - rewrite vector_set_in_range by done. eexists. split; [done|].
    split; [by rewrite length_insert|]. by eapply slots_ok_copy.
Qed.

Lemma expand_fold_ok G heap (js : list Z) slots :
  0 ≤ G → (∀ i, i ∈ js → 0 ≤ i < 2 ^ G) →
  Z.of_nat (length slots) = 2 ^ (G + 1) → slots_ok G heap slots →
  ∃ slots', foldl (expand_copy G heap) (Some slots) js = Some slots'
            ∧ length slots' = length slots ∧ slots_ok G heap slots'.
Proof.
  intros HG. revert slots. induction js as [|j js IH]; intros slots Hjs Hlen Hok.
  - simpl. eauto.
  - cbn [foldl].
    destruct (expand_copy_ok G heap slots j) as (slots1 & -> & Hlen1 & Hok1);
      [done|apply Hjs; by left|done|done|].
    destruct (IH slots1) as (slots2 & -> & Hlen2 & Hok2);
      [intros i Hi; apply Hjs; by right|by rewrite Hlen1|done|].
    exists slots2. split; [done|]. split; [congruence|done].
Qed.

Lemma expand_ok G heap slots id nl nb :
  0 ≤ G → 0 ≤ id < 2 ^ (G + 1) →
  heap !! nl = Some nb → header_ok G nb → slots_ok G heap slots →
  ∃ slots', expand id nl G heap slots = Some slots'
            ∧ Z.of_nat (length slots') = 2 ^ (G + 1) ∧ slots_ok G heap slots'.
Proof.
  intros HG Hid Hnl Hnb Hok. unfold expand.
  set (slots0 := resize _ None slots).
  assert (0 < 2 ^ (G + 1)) as Hpos by (apply Z.pow_pos_nonneg; lia).
  assert (Z.of_nat (length slots0) = 2 ^ (G + 1)) as Hlen0.
  { unfold slots0. rewrite length_resize, Z.shiftl_1_l. lia. }
  rewrite vector_set_in_range by lia. simpl.
  destruct (expand_fold_ok G heap (seqZ 0 (Z.shiftl 1 G)) (<[Z.to_nat id := Some nl]> slots0))
    as (slots' & -> & Hlen' & Hok').
  - done.
  - intros i Hi%elem_of_seqZ. rewrite Z.shiftl_1_l in Hi. lia.
  - by rewrite length_insert.
  - eapply slots_ok_set; [done..|]. by apply slots_ok_resize.
  - exists slots'. split; [done|]. split; [|done].
    by rewrite Hlen', length_insert.
Qed.

(** The constructor builds two slots, each with a bucket of its own. *)
Lemma ExtendibleHash_new_unfold size :
  ExtendibleHash_new (K:=K) (V:=V) size =
  {| bucket_size_ := size; global_depth_ := 0;
     buckets_ := [Some 0%nat; Some 1%nat];
     heap_ := [Bucket_new 0 0 size; Bucket_new 1 0 size] |}.
Proof. reflexivity. Qed.

Lemma ExtendibleHash_new_wf size : table_wf (ExtendibleHash_new (K:=K) (V:=V) size).
Proof.
  rewrite ExtendibleHash_new_unfold. split; [done|done|].
  intros i l Hil. simpl in *.
  destruct i as [|[|i]]; simplify_eq/=; eexists; (split; [reflexivity|]); simpl; lia.
Qed.

Lemma Remove_wf key t r t' :
  table_wf t → Remove Hasher key t = Some (r, t') → table_wf t'.
Proof.
  intros [HG Hlen Hok] Hrm. unfold Remove in Hrm.
  destruct (vector_get (buckets_ t) (slot_of Hasher key t)) as [[l|]|] eqn:Hget;
    simplify_eq/=.
  apply vector_get_Some in Hget. destruct (Hok _ _ Hget) as (b & Hb & Hhdr).
  rewrite Hb in Hrm. simpl in Hrm.
  unfold Bucket_Remove in Hrm. destruct (data_ b !! key); simplify_eq/=.
  - split; simpl; [done..|]. by apply slots_ok_heap_update.
  - split; simpl; [done..|]. by rewrite list_insert_id.
Qed.

Lemma header_ok_mono G G' b : G ≤ G' → header_ok G b → header_ok G' b.
Proof.
  intros HG [Hid Hd]. split; [|lia].
  assert (2 ^ (G + 1) ≤ 2 ^ (G' + 1)) by (apply Z.pow_le_mono_r; lia). lia.
Qed.

(** On a well-formed table every subscript of [Insert] is in range and
    every pointer it follows is live: the call returns, and the table it
    leaves is well formed again. *)
Lemma Insert_wf key value t :
  table_wf t → ∃ t', Insert Hasher key value t = Some t' ∧ table_wf t'.
Proof.
  intros [HG Hlen Hok]. unfold Insert.
  pose proof (GETBIT_range (Hasher key) (global_depth_ t) HG) as Hid.
  fold (slot_of Hasher key t) in Hid.
  set (id := slot_of Hasher key t) in *.
  destruct (vector_get_in_range (buckets_ t) id) as (p & -> & Hp); [lia|].
  cbn -[Put Split expand].
  destruct p as [l|].
  - destruct (Hok _ _ Hp) as (b & Hb & Hhdr). rewrite Hb. cbn -[Put Split expand].
    destruct (Put key value b) as [fits b1] eqn:HPut.
    assert (header_ok (global_depth_ t) b1) as Hhdr1.
    { unfold Put in HPut. by simplify_eq/=. }
    destruct fits.
    + eexists. split; [done|]. split; simpl; [done..|].
      by apply slots_ok_heap_update.
    + pose proof (Split_headers b1) as (Hs1 & Hs2 & Hs3 & Hs4).
      destruct (Split Hasher b1) as [b2 nb]. cbn -[expand] in *.
      destruct Hhdr1 as [Hid1 Hd1].
      set (heap' := <[l:=b2]> (heap_ t) ++ [nb]).
      assert (heap' !! length (<[l:=b2]> (heap_ t)) = Some nb) as Hnl.
      { by apply list_lookup_middle. }
      destruct (local_depth_ b2 >? global_depth_ t) eqn:Hcmp.
      * set (G' := global_depth_ t + 1).
        assert (local_depth_ b1 + 1 = G') as HL by lia.
        assert (2 ^ (global_depth_ t + 1) ≤ 2 ^ (G' + 1)) as Hpow.
        { apply Z.pow_le_mono_r; lia. }
        assert (header_ok G' nb) as Hnb.
        { split; [|lia]. rewrite Hs3. apply SETBIT_range; lia. }
        destruct (expand_ok G' heap' (buckets_ t) (id_ nb)
                    (length (<[l:=b2]> (heap_ t))) nb) as (slots' & -> & Hlen' & Hok').
        -- lia.
        -- apply Hnb.
        -- done.
        -- done.
        -- apply slots_ok_heap_app, slots_ok_heap_update.
           ++ split; lia.
           ++ eapply slots_ok_mono; [|done]. lia.
        -- simpl. eexists. split; [done|]. split; simpl; [lia|done|done].
      * assert (header_ok (global_depth_ t) nb) as Hnb.
        { split; [|lia]. rewrite Hs3. apply SETBIT_range; lia. }
        rewrite vector_set_in_range by (rewrite Hlen; apply Hnb). simpl.
        eexists. split; [done|]. split; simpl; [done|by rewrite length_insert|].
        eapply slots_ok_set; [done..|].
        apply slots_ok_heap_app, slots_ok_heap_update; [|done]. split; lia.
  - rewrite vector_set_in_range by lia. simpl.
    rewrite list_lookup_middle by done. simpl.
    eexists. split; [done|]. split; simpl; [done|by rewrite length_insert|].
    eapply slots_ok_set.
    + apply list_lookup_insert_eq. rewrite length_app. simpl. lia.
    + split; simpl; lia.
    + apply slots_ok_heap_update; [split; simpl; lia|]. by apply slots_ok_heap_app.
Qed.

Lemma reachable_wf t : reachable Hasher t → table_wf t.
Proof.
  induction 1 as [size|t key value t' _ IH HIns|t key r t' _ IH HRm].
  - apply ExtendibleHash_new_wf.
  - destruct (Insert_wf key value t IH) as (t'' & Ht'' & Hwf). congruence.
  - by eapply Remove_wf.
Qed.


Lemma insert_all_reachable kvs t t' :
  reachable Hasher t → insert_all Hasher kvs t = Some t' → reachable Hasher t'.
Proof.
  unfold insert_all. revert t. induction kvs as [|[k v] kvs IH]; intros t Hr Hall.
  - by simplify_eq/=.
  - cbn [foldl mbind option_bind] in Hall.
    destruct (Insert Hasher k v t) as [t1|] eqn:H1.
    + apply (IH t1); [|done]. by eapply reachable_Insert.
    + exfalso. clear -Hall. induction kvs as [|[k' v'] kvs IH']; [done|].
      apply IH'. exact Hall.
Qed.

End hash_facts.


(** C3 as stated fails on the table the constructor builds: its global
    depth is 0, yet the directory has two slots, not [2 ^ 0]. *)
Lemma initial_directory_has_two_slots :
  ¬ (∀ t : Hash.ExtendibleHash Z string,
       Hash.reachable Hash.hash_int t →
       Hash.GetNumBuckets t = (2 ^ Hash.GetGlobalDepth t)%Z).
Proof.
  intros Hclaim.
  specialize (Hclaim Hash.table2 (Hash.reachable_new _ 2%Z)).
  vm_compute in Hclaim. discriminate.
Qed.

(** The agreement of a bucket's keys on their low bits does not survive the
    split that reinstalls one slot only (see C4): after the scenario and the
    inserts (7,e), (7,f), (5,g) the bucket of slot 5 has local depth 3 and
    holds the keys 5 and 7, which differ in their low 3 bits. *)
Lemma bucket_keys_can_disagree :
  ∃ t b,
    Hash.insert_all Hash.hash_int
      (Hash.scenario ++ [(7, "e"); (7, "f"); (5, "g")]%Z%string) Hash.table2 = Some t
    ∧ Hash.bucket_at t 5 = Some b
    ∧ Hash.local_depth_ b = 3%Z
    ∧ is_Some (Hash.data_ b !! 5%Z) ∧ is_Some (Hash.data_ b !! 7%Z)
    ∧ (Hash.hash_int 5 mod 2 ^ 3 ≠ Hash.hash_int 7 mod 2 ^ 3)%Z.
Proof.
  destruct (Hash.insert_all Hash.hash_int (Hash.scenario ++ _) Hash.table2) as [t|] eqn:Ht;
    vm_compute in Ht; [|discriminate].
  injection Ht as <-.
  eexists _, _. split; [done|]. split; [by vm_compute|].
  split; [done|]. split; [by eexists|]. split; [by eexists|]. by vm_compute.
Qed.

(** C3, amended.  In every reachable state the directory has exactly
    [2 ^ (G + 1)] slots, [G] being the global depth; [Find] consults the slot
    [slot_of], which lies inside the directory and, while [G <= 30], is the
    low [G + 1] bits of the key's hash. *)
Theorem directory_has_two_to_the_G_plus_one_slots :
  ∀ (K : Type) (EqK : EqDecision K) (CntK : Countable K) (V : Type)
    (Hasher : K → Z) (t : Hash.ExtendibleHash K V),
    Hash.reachable Hasher t →
    (Hash.GetNumBuckets t = 2 ^ (Hash.GetGlobalDepth t + 1)
     ∧ ∀ key,
         Hash.Find Hasher key t
           = Hash.Get key <$> Hash.bucket_at t (Hash.slot_of Hasher key t)
         ∧ 0 ≤ Hash.slot_of Hasher key t < Hash.GetNumBuckets t
         ∧ (Hash.GetGlobalDepth t ≤ 30 →
            Hash.slot_of Hasher key t
              = Hasher key mod 2 ^ (Hash.GetGlobalDepth t + 1)))%Z.
Proof.
  intros K EqK CntK V Hasher t Hr.
  destruct (reachable_wf Hasher t Hr) as [HG Hlen _].
  unfold Hash.GetNumBuckets, Hash.GetGlobalDepth.
  split; [done|]. intros key. split; [done|]. split.
  - rewrite Hlen. by apply GETBIT_range.
  - intros HG30. apply GETBIT_low_bits. lia.
Qed.

(** The amended C3 at the table of the split scenario after its four
    inserts: global depth 2, eight slots, key 4 routed to slot 4. *)
Lemma directory_has_two_to_the_G_plus_one_slots_witness :
  ∃ t, Hash.insert_all Hash.hash_int Hash.scenario Hash.table2 = Some t
       ∧ Hash.reachable Hash.hash_int t
       ∧ Hash.GetGlobalDepth t = 2%Z
       ∧ Hash.GetNumBuckets t = (2 ^ (2 + 1))%Z
       ∧ Hash.slot_of Hash.hash_int 4%Z t = (Hash.hash_int 4 mod 2 ^ (2 + 1))%Z.
Proof.
  destruct (Hash.insert_all Hash.hash_int Hash.scenario Hash.table2) as [t|] eqn:Ht;
    [|vm_compute in Ht; discriminate].
  assert (Hash.reachable Hash.hash_int t) as Hr.
  { eapply insert_all_reachable; [apply Hash.reachable_new|exact Ht]. }
  assert (Hash.GetGlobalDepth t = 2%Z) as HG.
  { vm_compute in Ht. injection Ht as <-. reflexivity. }
  pose proof (directory_has_two_to_the_G_plus_one_slots Z _ _ string Hash.hash_int t Hr)
    as [Hsize Hslot].
  destruct (Hslot 4%Z) as (_ & _ & Hlow).
  rewrite HG in Hsize, Hlow.
  exists t. split; [reflexivity|]. split; [exact Hr|]. split; [exact HG|].
  split; [exact Hsize|]. apply Hlow. lia.
Defined.

(** What [Bucket::Put] does, for every bucket: afterwards the key is in the
    bucket, an entry that was there is kept, and the answer is [false]
    exactly when the bucket then holds [size_] entries. *)
Lemma Put_resident `{Countable K} {V} (k : K) (v : V) (b : Hash.Bucket K V) :
  is_Some (Hash.data_ (Hash.Put k v b).2 !! k)
  ∧ (∀ k' v', Hash.data_ b !! k' = Some v' → Hash.data_ (Hash.Put k v b).2 !! k' = Some v')
  ∧ ((Hash.Put k v b).1 = false
     ↔ Z.of_nat (size (Hash.data_ (Hash.Put k v b).2)) = Hash.size_ b).
Proof.
  unfold Hash.Put, Hash.map_insert. simpl.
  destruct (Hash.data_ b !! k) as [w|] eqn:Hk; simpl.
  - split; [by rewrite Hk|]. split; [done|].
    rewrite negb_false_iff. apply Z.eqb_eq.
  - split; [by rewrite lookup_insert_eq|]. split.
    + intros k' v' Hk'. rewrite lookup_insert_ne; [done|congruence].
    + rewrite negb_false_iff. apply Z.eqb_eq.
Qed.

(** C4 on the code.  The split scenario goes through: after
    (0,a),(1,b),(2,c),(4,d) the global depth is 2 and 0, 2 and 4 are found.
    One more insert, (7,e), splits the bucket shared by the odd slots and
    installs the new bucket in slot 3 only, so [Find 7] looks in slot 7 and
    misses the key just inserted.  A second insert of a present key keeps
    the old value. *)
Theorem Insert_can_lose_the_inserted_key :
  (∃ t, Hash.insert_all Hash.hash_int Hash.scenario Hash.table2 = Some t
        ∧ Hash.GetGlobalDepth t = 2%Z
        ∧ Hash.Find Hash.hash_int 0%Z t = Some (Some "a"%string)
        ∧ Hash.Find Hash.hash_int 2%Z t = Some (Some "c"%string)
        ∧ Hash.Find Hash.hash_int 4%Z t = Some (Some "d"%string))
  ∧ (∃ t, Hash.insert_all Hash.hash_int (Hash.scenario ++ [(7%Z, "e"%string)]) Hash.table2
            = Some t
          ∧ Hash.Find Hash.hash_int 7%Z t = Some None)
  ∧ (∃ t, Hash.insert_all Hash.hash_int [(0%Z, "a"%string); (0%Z, "b"%string)] Hash.table2
            = Some t
          ∧ Hash.Find Hash.hash_int 0%Z t = Some (Some "a"%string)).
Proof.
  split; [|split].
  - destruct (Hash.insert_all Hash.hash_int Hash.scenario Hash.table2) as [t|] eqn:Ht;
      vm_compute in Ht; [|discriminate].
    exists t. split; [done|]. injection Ht as <-. by vm_compute.
  - destruct (Hash.insert_all Hash.hash_int (Hash.scenario ++ _) Hash.table2) as [t|] eqn:Ht;
      vm_compute in Ht; [|discriminate].
    exists t. split; [done|]. injection Ht as <-. by vm_compute.
  - destruct (Hash.insert_all Hash.hash_int [_; _] Hash.table2) as [t|] eqn:Ht;
      vm_compute in Ht; [|discriminate].
    exists t. split; [done|]. injection Ht as <-. by vm_compute.
Qed.

(** C9 on the code.  [Put] answers as the claim says (see [Put_resident]),
    but nothing keeps a bucket within its capacity: with buckets of two
    entries, inserting 0, 4 and 8 fills the bucket of slot 0 with 0 and 4,
    the split that follows moves neither of them, and 8 then becomes the
    third entry of a bucket whose capacity is 2. *)
Theorem bucket_can_exceed_its_capacity :
  ∃ t, Hash.insert_all Hash.hash_int [(0, "a"); (4, "b"); (8, "c")]%Z%string Hash.table2
         = Some t
       ∧ Hash.entries_at t (Hash.slot_of Hash.hash_int 8%Z t) = Some (3%Z, 2%Z).
Proof.
  destruct (Hash.insert_all Hash.hash_int [_; _; _] Hash.table2) as [t|] eqn:Ht;
    vm_compute in Ht; [|discriminate].
  exists t. split; [done|]. injection Ht as <-. by vm_compute.
Qed.

(** * Facts about the B+Tree pages *)

Section search_facts.
Import BTree.
Local Open Scope Z_scope.
Implicit Types (arr : Z → Z * Z) (p : BPlusTreePage).

Lemma comparator_lt a b : (comparator a b <? 0) = true ↔ a < b.
Proof.
  unfold comparator. destruct (Z.compare_spec a b); rewrite Z.ltb_lt; lia.
Qed.

Lemma comparator_gt a b : (comparator a b >? 0) = true ↔ b < a.
Proof.
  unfold comparator. rewrite Z.gtb_ltb, Z.ltb_lt.
  destruct (Z.compare_spec a b); lia.
Qed.

Lemma to_size_t_small x : 0 ≤ x < 2 ^ 64 → to_size_t x = x.
Proof. intros Hx. unfold to_size_t. by apply Z.mod_small. Qed.

Lemma to_int_small x : 0 ≤ x < 2 ^ 31 → to_int x = x.
Proof.
  intros Hx. unfold to_int. rewrite Z.mod_small by lia.
  destruct (x <? 2 ^ 31) eqn:Hlt; [done|lia].
Qed.

Lemma pow2_succ (fuel : nat) : 2 ^ Z.of_nat (S fuel) = 2 * 2 ^ Z.of_nat fuel.
Proof. rewrite Nat2Z.inj_succ, Z.pow_succ_r; lia. Qed.

Lemma pow2_pos (fuel : nat) : 0 < 2 ^ Z.of_nat fuel.
Proof. apply Z.pow_pos_nonneg; lia. Qed.

Lemma half_bounds d : 2 * (d / 2) ≤ d < 2 * (d / 2) + 2.
Proof.
  pose proof (Z.mul_div_le d 2). pose proof (Z.mul_succ_div_gt d 2). lia.
Qed.

(** With enough rounds for the interval, the loop of [BinarySearch] stops at
    the first slot of a sorted interval whose key is not below [key]. *)
Lemma BinarySearch_loop_first_not_below arr key (fuel : nat) :
  ∀ start end_,
    start ≤ end_ → end_ - start < 2 ^ Z.of_nat fuel →
    keys_increasing arr start end_ →
    key ≤ (arr end_).1 →
    let r := BinarySearch_loop fuel arr key start end_ in
    start ≤ r ≤ end_ ∧ key ≤ (arr r).1 ∧ ∀ i, start ≤ i → i < r → (arr i).1 < key.
Proof.
  induction fuel as [|fuel IH]; intros start end_ Hse Hfuel Hinc Hend.
  - simpl in *. assert (start = end_) as -> by lia.
    split; [lia|]. split; [done|]. intros; lia.
  - rewrite pow2_succ in Hfuel. pose proof (pow2_pos fuel) as Hpos.
    cbn [BinarySearch_loop].
    destruct (start <? end_) eqn:Hlt; [apply Z.ltb_lt in Hlt|apply Z.ltb_ge in Hlt].
    + rewrite Z.shiftr_div_pow2 by lia. change (2 ^ 1) with 2.
      pose proof (half_bounds (end_ - start)) as Hhalf.
      set (middle := start + (end_ - start) / 2) in *.
      assert (start ≤ middle < end_) as Hmid by (unfold middle; lia).
      destruct (comparator (arr middle).1 key <? 0) eqn:Hc1.
      * apply comparator_lt in Hc1.
        destruct (IH (middle + 1) end_) as (Hr & Hkr & Hbelow).
        -- lia.
        -- unfold middle. lia.
        -- intros i j ? ? ?. apply Hinc; lia.
        -- done.
        -- split; [lia|]. split; [done|]. intros i Hi1 Hi2.
           destruct (decide (i ≤ middle)) as [Hle|Hgt]; [|apply Hbelow; lia].
           destruct (decide (i = middle)) as [->|Hne]; [done|].
           pose proof (Hinc i middle). lia.
      * destruct (comparator (arr middle).1 key >? 0) eqn:Hc2.
        -- apply comparator_gt in Hc2.
           destruct (IH start middle) as (Hr & Hkr & Hbelow).
           ++ lia.
           ++ unfold middle. lia.
           ++ intros i j ? ? ?. apply Hinc; lia.
           ++ lia.
           ++ split; [lia|]. split; [done|]. done.
        -- assert ((arr middle).1 = key) as Heq.
           { destruct (decide ((arr middle).1 < key)) as [H1|H1].
             - apply comparator_lt in H1. congruence.
             - destruct (decide (key < (arr middle).1)) as [H2|H2]; [|lia].
               apply comparator_gt in H2. congruence. }
           split; [lia|]. split; [lia|]. intros i Hi1 Hi2.
           pose proof (Hinc i middle). lia.
    + assert (start = end_) as -> by lia.
      split; [lia|]. split; [done|]. intros; lia.
Qed.

(** On a page whose keys [1 .. size-1] increase, [BinarySearch] for a key
    that is stored returns the slot that holds it. *)
Lemma BinarySearch_stored_key arr size i :
  2 ≤ size < 2 ^ 31 → keys_increasing arr 1 (size - 1) → 1 ≤ i ≤ size - 1 →
  BinarySearch arr size (arr i).1 = i.
Proof.
  intros Hsize Hinc Hi. unfold BinarySearch.
  assert (2 ^ 31 < 2 ^ 64) as Hpow by done.
  rewrite (to_size_t_small size) by lia. rewrite to_size_t_small by lia.
  destruct (BinarySearch_loop_first_not_below arr (arr i).1 64 1 (size - 1))
    as (Hr & Hkr & Hbelow).
  - lia.
  - change (2 ^ Z.of_nat 64) with (2 ^ 64). lia.
  - done.
  - destruct (decide (i = size - 1)) as [->|Hne]; [done|].
    pose proof (Hinc i (size - 1)). lia.
  - set (r := BinarySearch_loop 64 arr (arr i).1 1 (size - 1)) in *.
    assert (r = i) as ->; [|apply to_int_small; lia].
    destruct (decide (r < i)) as [Hlt|Hge].
    + pose proof (Hinc r i). lia.
    + destruct (decide (i < r)) as [Hlt|Hge']; [|lia].
      pose proof (Hbelow i). lia.
Qed.

(** Looking up a stored separator key [K_i] answers the child to its left,
    [C_(i-1)], for every slot [i] of every sorted internal page. *)
Lemma Internal_Lookup_stored_key p i :
  2 ≤ GetSize p < 2 ^ 31 →
  keys_increasing (array p) 1 (GetSize p - 1) →
  1 ≤ i ≤ GetSize p - 1 →
  Internal.Lookup (array p i).1 p = Some (array p (i - 1)).2.
Proof.
  intros Hsize Hinc Hi. unfold Internal.Lookup.
  destruct (comparator (array p i).1 (array p 1).1 <? 0) eqn:Hc1.
  { apply comparator_lt in Hc1.
    destruct (decide (i = 1)) as [->|Hne]; [lia|].
    pose proof (Hinc 1 i). lia. }
  destruct (comparator (array p i).1 (array p (GetSize p - 1)).1 >? 0) eqn:Hc2.
  { apply comparator_gt in Hc2.
    destruct (decide (i = GetSize p - 1)) as [->|Hne]; [lia|].
    pose proof (Hinc i (GetSize p - 1)). lia. }
  rewrite BinarySearch_stored_key by done.
  unfold assert. destruct (1 <=? i) eqn:H1; [|lia].
  destruct (i <=? GetSize p - 1) eqn:H2; [done|lia].
Qed.

End search_facts.


Section value_index_facts.
Import BTree.
Local Open Scope Z_scope.
Implicit Types (arr : Z → Z * Z) (p : BPlusTreePage).

(** With enough rounds for the interval, the loop of [ValueIndex] stops with
    [middle] on the slot of a child that is present in a sorted interval. *)
Lemma ValueIndex_loop_finds arr i (fuel : nat) :
  ∀ start end_ middle,
    start ≤ i ≤ end_ → end_ - start + 1 < 2 ^ Z.of_nat fuel →
    values_increasing arr start end_ →
    ∃ s e, Internal.ValueIndex_loop fuel arr (arr i).2 start end_ middle = (s, e, i)
           ∧ s ≤ e.
Proof.
  induction fuel as [|fuel IH]; intros start end_ middle Hi Hfuel Hinc.
  - simpl in Hfuel. lia.
  - rewrite pow2_succ in Hfuel. cbn [Internal.ValueIndex_loop].
    destruct (start <=? end_) eqn:Hle; [|lia].
    rewrite Z.shiftr_div_pow2 by lia. change (2 ^ 1) with 2.
    pose proof (half_bounds (end_ - start)) as Hhalf.
    set (mid := start + (end_ - start) / 2) in *.
    assert (start ≤ mid ≤ end_) as Hmid by (unfold mid; lia).
    destruct ((arr mid).2 >? (arr i).2) eqn:Hc1.
    + rewrite Z.gtb_ltb in Hc1. apply Z.ltb_lt in Hc1.
      assert (i < mid) as Hlt.
      { destruct (decide (i < mid)) as [|Hge]; [done|].
        destruct (decide (i = mid)) as [->|Hne]; [lia|].
        pose proof (Hinc mid i). lia. }
      apply IH; [lia|unfold mid; lia|]. intros a b ? ? ?. apply Hinc; lia.
    + rewrite Z.gtb_ltb in Hc1. apply Z.ltb_ge in Hc1.
      destruct ((arr mid).2 <? (arr i).2) eqn:Hc2.
      * apply Z.ltb_lt in Hc2.
        assert (mid < i) as Hlt.
        { destruct (decide (mid < i)) as [|Hge]; [done|].
          destruct (decide (i = mid)) as [->|Hne]; [lia|].
          pose proof (Hinc i mid). lia. }
        apply IH; [lia|unfold mid; lia|]. intros a b ? ? ?. apply Hinc; lia.
      * apply Z.ltb_ge in Hc2.
        assert (mid = i) as ->.
        { destruct (decide (mid < i)) as [Hlt|Hge].
          - pose proof (Hinc mid i). lia.
          - destruct (decide (i < mid)) as [Hlt|Hge']; [|lia].
            pose proof (Hinc i mid). lia. }
        exists start, end_. split; [done|lia].
Qed.

(** [ValueIndex] finds every child of a page whose child ids ascend. *)
Lemma ValueIndex_sorted p i :
  GetSize p < 2 ^ 31 →
  values_increasing (array p) 0 (GetSize p - 1) →
  0 ≤ i < GetSize p →
  Internal.ValueIndex (array p i).2 p = i.
Proof.
  intros Hsize Hinc Hi. unfold Internal.ValueIndex.
  destruct (ValueIndex_loop_finds (array p) i 32 0 (GetSize p - 1) 0)
    as (s & e & -> & Hse); [lia| |done|].
  - change (2 ^ Z.of_nat 32) with (2 ^ 32).
    assert (2 ^ 31 < 2 ^ 32) by done. lia.
  - destruct (s <=? e) eqn:Hle; [done|lia].
Qed.

(** On such a page [InsertNodeAfter] opens the gap right behind the old
    child: the slots from [i + 1] on move up by one. *)
Lemma InsertNodeAfter_sorted p i new_key new_value :
  GetSize p < 2 ^ 31 → GetSize p < GetMaxSize p →
  values_increasing (array p) 0 (GetSize p - 1) →
  0 ≤ i < GetSize p →
  ∃ p', Internal.InsertNodeAfter (array p i).2 new_key new_value p
          = Some (GetSize p + 1, p')
        ∧ GetSize p' = GetSize p + 1
        ∧ ∀ j, array p' j
               = if (i + 2 <=? j) && (j <? GetSize p + 1) then array p (j - 1)
                 else array p j.
Proof.
  intros Hsize Hmax Hinc Hi. unfold Internal.InsertNodeAfter.
  rewrite ValueIndex_sorted by done.
  unfold assert. destruct (GetSize p <? GetMaxSize p) eqn:Hlt; [|lia]. simpl.
  unfold memmove, memcpy. destruct (GetSize p - (i + 1) <? 0) eqn:Hneg; [lia|]. simpl.
  eexists. split; [done|]. split; [done|]. intros j. simpl.
  replace (i + 2 + (GetSize p - (i + 1))) with (GetSize p + 1) by lia.
  destruct ((i + 2 <=? j) && (j <? GetSize p + 1)); [|done].
  f_equal. lia.
Qed.

End value_index_facts.

Section lookup_between.
Import BTree.
Local Open Scope Z_scope.

(** Away from the separators [Internal.Lookup] descends as the page order
    asks: for a key strictly between [K_i] and [K_(i+1)] it answers [C_i]. *)
Lemma Internal_Lookup_between p i key :
  2 ≤ GetSize p < 2 ^ 31 →
  keys_increasing (array p) 1 (GetSize p - 1) →
  1 ≤ i < GetSize p - 1 →
  (array p i).1 < key < (array p (i + 1)).1 →
  Internal.Lookup key p = Some (array p i).2.
Proof.
  intros Hsize Hinc Hi Hkey. unfold Internal.Lookup.
  destruct (comparator key (array p 1).1 <? 0) eqn:Hc1.
  { apply comparator_lt in Hc1.
    destruct (decide (i = 1)) as [->|Hne]; [lia|].
    pose proof (Hinc 1 i). lia. }
  destruct (comparator key (array p (GetSize p - 1)).1 >? 0) eqn:Hc2.
  { apply comparator_gt in Hc2.
    destruct (decide (i + 1 = GetSize p - 1)) as [Heq|Hne]; [rewrite Heq in Hkey; lia|].
    pose proof (Hinc (i + 1) (GetSize p - 1)). lia. }
  assert (key ≤ (array p (GetSize p - 1)).1) as Hlast.
  { destruct (decide (key ≤ (array p (GetSize p - 1)).1)) as [|Hgt]; [done|].
    assert ((comparator key (array p (GetSize p - 1)).1 >? 0) = true); [|congruence].
    apply comparator_gt. lia. }
  unfold BinarySearch.
  assert (2 ^ 31 < 2 ^ 64) as Hpow by done.
  rewrite (to_size_t_small (GetSize p)) by lia. rewrite to_size_t_small by lia.
  destruct (BinarySearch_loop_first_not_below (array p) key 64 1 (GetSize p - 1))
    as (Hr & Hkr & Hbelow); [lia| |done|done|].
  { change (2 ^ Z.of_nat 64) with (2 ^ 64). lia. }
  set (r := BinarySearch_loop 64 (array p) key 1 (GetSize p - 1)) in *.
  assert (r = i + 1) as ->.
  { destruct (decide (r ≤ i)) as [Hle|Hgt].
    - destruct (decide (r = i)) as [->|Hne]; [lia|]. pose proof (Hinc r i). lia.
    - destruct (decide (i + 1 < r)) as [Hlt|Hge]; [|lia].
      pose proof (Hbelow (i + 1)). lia. }
  rewrite to_int_small by lia.
  unfold assert. destruct (1 <=? i + 1) eqn:H1; [|lia].
  destruct (i + 1 <=? GetSize p - 1) eqn:H2; [|lia]. simpl.
  by replace (i + 1 - 1) with i by lia.
Qed.

End lookup_between.

(** C5 on the code.  On the internal page with children 100, 101 and the
    separator key 10, [Lookup 10] answers 100, the child to the left of the
    separator, where the rightmost slot with a key [<= 10] holds 101.  The
    same happens at every separator of every sorted page: looking up [K_i]
    answers [C_(i-1)]. *)
Theorem Internal_Lookup_of_a_separator_goes_left :
  BTree.Internal.Lookup 10 (BTree.Tree.internal_of [(0, 100); (10, 101)]%Z) = Some 100%Z
  ∧ ∀ p i,
      (2 ≤ BTree.GetSize p < 2 ^ 31)%Z →
      BTree.keys_increasing (BTree.array p) 1 (BTree.GetSize p - 1) →
      (1 ≤ i ≤ BTree.GetSize p - 1)%Z →
      BTree.Internal.Lookup (BTree.array p i).1 p = Some (BTree.array p (i - 1)%Z).2.
Proof.
  split; [by vm_compute|]. intros p i. apply Internal_Lookup_stored_key.
Qed.

(** C6 on the code.  [CopyAllFrom] copies from the recipient into the giving
    page: the recipient's slots stay as they were, so the entries the size
    now covers are whatever lay behind its old size.  Moving the leaf
    [(5,50),(6,60)] into the leaf [(1,10)] whose page memory continues with
    (98,98),(99,99) leaves the recipient with [(1,10),(98,98),(99,99)].  The
    sizes and the next-page id come out as the claim says. *)
Theorem Leaf_MoveAllTo_keeps_the_recipient_slots :
  (∀ p recipient p' recipient',
     BTree.Leaf.MoveAllTo p recipient = Some (p', recipient') →
     BTree.array recipient' = BTree.array recipient
     ∧ BTree.GetSize p' = 0%Z
     ∧ BTree.GetSize recipient' = (BTree.GetSize recipient + BTree.GetSize p)%Z
     ∧ BTree.GetNextPageId recipient' = BTree.GetNextPageId p)
  ∧ (let p := BTree.Tree.leaf_of [(5, 50); (6, 60)]%Z 77%Z in
     let recipient :=
       BTree.mkPage BTree.LEAF_PAGE 1 10 BTree.INVALID_PAGE_ID 4 2
         (BTree.slots_of_list [(1, 10); (98, 98); (99, 99)]%Z) in
     (λ r, (BTree.prefix (BTree.array r.2) (BTree.GetSize r.2), BTree.GetNextPageId r.2))
       <$> BTree.Leaf.MoveAllTo p recipient
     = Some ([(1, 10); (98, 98); (99, 99)]%Z, 77%Z)).
Proof.
  split; [|by vm_compute].
  intros p recipient p' recipient' Hmove.
  unfold BTree.Leaf.MoveAllTo, BTree.Leaf.CopyAllFrom, BTree.memcpy in Hmove.
  destruct (BTree.GetSize p <? 0)%Z; simplify_eq/=.
  split; [done|]. split; [|done].
  unfold BTree.GetSize. simpl. lia.
Qed.

(** C10.  [ValueIndex] is a binary search over the child ids.  On a page
    whose child ids ascend it returns the slot of every child that is
    present, and [InsertNodeAfter] then opens its gap right behind that
    slot.  On the page with children 9, 7, 8 it returns -1 for the child 9 of
    slot 0; [InsertNodeAfter] for that child then moves every slot, slot 0
    included, and [MoveFirstToEndOf] of page 9 below such a parent aborts on
    [KeyAt(-1)], where below the parent 7, 8, 9 it goes through. *)
Theorem ValueIndex_needs_ascending_child_ids :
  (∀ p i,
     (BTree.GetSize p < 2 ^ 31)%Z →
     BTree.values_increasing (BTree.array p) 0 (BTree.GetSize p - 1) →
     (0 ≤ i < BTree.GetSize p)%Z →
     BTree.Internal.ValueIndex (BTree.array p i).2 p = i
     ∧ ∀ new_key new_value,
         (BTree.GetSize p < BTree.GetMaxSize p)%Z →
         ∃ p', BTree.Internal.InsertNodeAfter (BTree.array p i).2 new_key new_value p
                 = Some ((BTree.GetSize p + 1)%Z, p')
               ∧ ∀ j, BTree.array p' j
                      = if ((i + 2 <=? j) && (j <? BTree.GetSize p + 1))%Z
                        then BTree.array p (j - 1)%Z else BTree.array p j)
  ∧ (let q := BTree.Tree.internal_of [(0, 9); (10, 7); (20, 8)]%Z in
     (BTree.array q 0).2 = 9%Z
     ∧ BTree.Internal.ValueIndex 9 q = (-1)%Z
     ∧ (λ r, BTree.prefix (BTree.array r.2) r.1) <$> BTree.Internal.InsertNodeAfter 9 15 55 q
       = Some [(0, 9); (0, 9); (10, 7); (20, 8)]%Z)
  ∧ BTree.Internal.MoveFirstToEndOf 9 7 (BTree.Tree.family [9; 7; 8]%Z) = BTree.Abort
  ∧ BTree.Tree.entries_of (BTree.Tree.family [9; 7; 8]%Z) 3 = Some [(0, 9); (10, 7); (20, 8)]%Z
  ∧ (BTree.Tree.state_after
       (BTree.Internal.MoveFirstToEndOf 8 7 (BTree.Tree.family [7; 8; 9]%Z))
     ≫= λ t, BTree.Tree.entries_of t 7) = Some [(0, 107); (5, 207); (10, 108)]%Z.
Proof.
  split.
  - intros p i Hsize Hinc Hi. split; [by apply ValueIndex_sorted|].
    intros new_key new_value Hmax.
    destruct (InsertNodeAfter_sorted p i new_key new_value) as (p' & Hp' & _ & Harr);
      [done..|].
    by exists p'.
  - split; [|split; [|split]]; by vm_compute.
Qed.

(** C10 at the page with children 7, 8, 9: child 8 is found in slot 1. *)
Lemma ValueIndex_needs_ascending_child_ids_witness :
  let q := BTree.Tree.internal_of [(0, 7); (10, 8); (20, 9)]%Z in
  BTree.values_increasing (BTree.array q) 0 (BTree.GetSize q - 1)
  ∧ BTree.Internal.ValueIndex 8 q = 1%Z.
Proof.
  intros q.
  assert (BTree.values_increasing (BTree.array q) 0 (BTree.GetSize q - 1)) as Hinc.
  { intros i j Hi Hij Hj. change (BTree.GetSize q - 1)%Z with 2%Z in Hj.
    assert (i = 0 ∨ i = 1)%Z as [-> | ->] by lia;
      assert (j = 1 ∨ j = 2)%Z as [-> | ->] by lia; try lia; by vm_compute. }
  split; [exact Hinc|].
  apply (proj1 (proj1 ValueIndex_needs_ascending_child_ids q 1%Z
                  ltac:(by vm_compute) Hinc ltac:(by vm_compute))).
Defined.


(** * Facts about the B+Tree index *)

Section tree_facts.
Import BTree BTree.Tree.
Local Open Scope Z_scope.

Lemma same_pages_refl t : same_pages t t.
Proof. done. Qed.

Lemma same_pages_trans t1 t2 t3 :
  same_pages t1 t2 → same_pages t2 t3 → same_pages t1 t3.
Proof. intros [H1 H2] [H3 H4]. split; congruence. Qed.

Lemma read_only_ret {A} (a : A) : read_only (mret a).
Proof. intros t a' t' [= _ <-]. apply same_pages_refl. Qed.

Lemma read_only_bind {A B} (m : M A) (f : A → M B) :
  read_only m → (∀ a, read_only (f a)) → read_only (m ≫= f).
Proof.
  intros Hm Hf t b t' Hret. unfold mbind, M_bind in Hret.
  destruct (m t) as [a t1| | |] eqn:Hmt; try done.
  eapply same_pages_trans; [by eapply Hm|by eapply Hf].
Qed.

Lemma read_only_lift {A} (o : option A) : read_only (lift o).
Proof. destruct o; [apply read_only_ret|done]. Qed.

Lemma read_only_get_root : read_only get_root.
Proof. intros t a t' [= _ <-]. apply same_pages_refl. Qed.

Lemma read_only_get_page ptr : read_only (get_page ptr).
Proof.
  apply read_only_bind; [|intros; apply read_only_lift].
  intros t a t' [= _ <-]. apply same_pages_refl.
Qed.

Lemma read_only_FetchPage page_id : read_only (FetchPage page_id).
Proof.
  intros t a t' Hret. unfold FetchPage, mbind, M_bind, get_pool, set_pool in Hret.
  destruct (on_disk _ _ && _); unfold mret, M_ret in Hret;
    injection Hret as _ <-; by split.
Qed.

Lemma read_only_UnpinPage page_id is_dirty : read_only (UnpinPage page_id is_dirty).
Proof.
  intros t a t' Hret. unfold UnpinPage, mbind, M_bind, get_pool, set_pool in Hret.
  destruct (on_disk _ _ && _); unfold mret, M_ret in Hret;
    injection Hret as _ <-; by split.
Qed.

Lemma read_only_FindLeafPage_loop fuel key leftMost :
  ∀ page btree_page page_id,
    read_only (FindLeafPage_loop fuel key leftMost page btree_page page_id).
Proof.
  induction fuel as [|fuel IH]; intros page btree_page page_id;
    (destruct page as [frame|]; [|apply read_only_ret]); cbn [FindLeafPage_loop];
    (apply read_only_bind; [apply read_only_get_page|]); intros node;
    (destruct (IsLeafPage node); [apply read_only_ret|]); [done|].
  apply read_only_bind; [apply read_only_get_page|]. intros node'.
  apply read_only_bind; [apply read_only_lift|]. intros page_id'.
  apply read_only_bind; [apply read_only_UnpinPage|]. intros _.
  apply read_only_bind; [apply read_only_FetchPage|]. intros page'.
  apply IH.
Qed.

Lemma read_only_FindLeafPage fuel key leftMost :
  read_only (FindLeafPage fuel key leftMost).
Proof.
  apply read_only_bind; [apply read_only_get_root|]. intros page_id.
  apply read_only_bind; [apply read_only_FetchPage|]. intros page.
  apply read_only_bind; [apply read_only_lift|]. intros btree_page.
  apply read_only_FindLeafPage_loop.
Qed.

(** [Remove] writes to no page, whatever the tree and the key. *)
Lemma read_only_Remove fuel key : read_only (Remove fuel key).
Proof.
  apply read_only_bind.
  { apply read_only_bind; [apply read_only_get_root|]. intros; apply read_only_ret. }
  intros [|]; [apply read_only_ret|].
  apply read_only_bind; [apply read_only_FindLeafPage|]. intros leaf.
  apply read_only_bind; [apply read_only_get_page|]. intros node.
  destruct (GetSize node <? GetMinSize node); [|apply read_only_ret].
  apply read_only_bind; [apply read_only_ret|]. intros; apply read_only_ret.
Qed.

(** [RemoveAndDeleteRecord] returns the size the page had on entry. *)
Lemma RemoveAndDeleteRecord_returns_old_size key p n p' :
  Leaf.RemoveAndDeleteRecord key p = Some (n, p') → n = GetSize p.
Proof.
  unfold Leaf.RemoveAndDeleteRecord. intros Hrm.
  destruct (negb _); [|by simplify_eq].
  destruct (memmove _ _ _ _); by simplify_eq/=.
Qed.

(** [Leaf.Lookup] never answers [false] on a page that holds entries: the
    search starts at slot 1 and has no "not found" result. *)
Lemma Leaf_Lookup_always_hits key p :
  1 ≤ GetSize p < 2 ^ 31 → is_Some (Leaf.Lookup key p).
Proof.
  intros Hsize. unfold Leaf.Lookup, BinarySearch.
  assert (2 ^ 31 < 2 ^ 64) as Hpow by done.
  rewrite (to_size_t_small (GetSize p)) by lia. rewrite to_size_t_small by lia.
  assert (∀ (fuel : nat) start end_,
            1 ≤ start → start ≤ end_ ∨ end_ = 0 →
            1 ≤ BinarySearch_loop fuel (array p) key start end_ ≤ Z.max start end_)
    as Hloop.
  { induction fuel as [|fuel IH]; intros start end_ Hs He; [simpl; lia|].
    cbn [BinarySearch_loop]. destruct (start <? end_) eqn:Hlt; [|lia].
    apply Z.ltb_lt in Hlt. rewrite Z.shiftr_div_pow2 by lia. change (2 ^ 1) with 2.
    pose proof (half_bounds (end_ - start)) as Hhalf.
    set (middle := start + (end_ - start) / 2) in *.
    destruct (comparator _ _ <? 0).
    - specialize (IH (middle + 1) end_). unfold middle in *. lia.
    - destruct (comparator _ _ >? 0); [|unfold middle; lia].
      specialize (IH start middle). unfold middle in *. lia. }
  specialize (Hloop 64%nat 1 (GetSize p - 1)).
  set (r := BinarySearch_loop 64 (array p) key 1 (GetSize p - 1)) in *.
  rewrite to_int_small by lia.
  destruct (r =? -1) eqn:Hr; [lia|]. by eexists.
Qed.

(** In a tree whose pages all hold entries, [InsertIntoLeaf] takes every key
    for a duplicate: whenever it returns, it returns [false]. *)
Lemma InsertIntoLeaf_returns_false lms ims fuel key value t b t' :
  (∀ page_id p, pages_ (buffer_pool_manager_ t) !! page_id = Some p →
                1 ≤ GetSize p < 2 ^ 31) →
  InsertIntoLeaf lms ims fuel key value t = Ret b t' → b = false.
Proof.
  intros Hpages Hret. unfold InsertIntoLeaf in Hret.
  unfold mbind at 1, M_bind at 1 in Hret.
  destruct (FindLeafPage fuel key false t) as [leaf t1| | |] eqn:Hfind; try done.
  destruct (read_only_FindLeafPage fuel key false t leaf t1 Hfind) as [Hsame _].
  unfold mbind at 1, M_bind at 1 in Hret.
  destruct (get_page leaf t1) as [node t2| | |] eqn:Hget; try done.
  assert (pages_ (buffer_pool_manager_ t) !! leaf = Some node) as Hnode.
  { rewrite <- Hsame. unfold get_page, mbind, M_bind, get_pool, lift in Hget.
    destruct (pages_ (buffer_pool_manager_ t1) !! leaf) as [node'|]; [|done].
    unfold mret, M_ret in Hget. by injection Hget as -> _. }
  destruct (Leaf_Lookup_always_hits key node (Hpages _ _ Hnode)) as [v Hv].
  rewrite Hv in Hret. unfold mret, M_ret in Hret. by injection Hret as <- _.
Qed.

End tree_facts.

(** C1 on the code.  In an empty index over zeroed page memory,
    [Insert key value] succeeds and puts the pair into slot 0 of the new
    root leaf.  [GetValue key] then reads slot 1, which [Insert] never wrote:
    it answers 0 whatever [value] is.  A second [Insert] of the key returns
    false, and [GetValue] answers 0 again. *)
Theorem GetValue_after_Insert_reads_the_wrong_slot :
  ∀ (fuel : nat) (key value value' : Z),
    BTree.Tree.returned
      ((b1 ← BTree.Tree.Insert 4 4 fuel key value;
        r1 ← BTree.Tree.GetValue fuel key [];
        b2 ← BTree.Tree.Insert 4 4 fuel key value';
        r2 ← BTree.Tree.GetValue fuel key [];
        mret (b1, r1, b2, r2)) (BTree.Tree.empty_tree 10))
    = Some (true, (true, [0%Z]), false, (true, [0%Z]))
    ∧ BTree.Tree.entries_of (BTree.Tree.one_leaf_tree key value) 1 = Some [(key, value)].
Proof.
  intros fuel key value value'. split.
  - destruct fuel; vm_compute; reflexivity.
  - vm_compute. reflexivity.
Qed.

(** C2 on the code.  [Remove] never calls [RemoveAndDeleteRecord]: it writes
    to no page of any tree.  On the one-leaf tree holding key 5 the leaf
    still holds (5, 7) after [Remove 5], and [GetValue 5] answers as it did
    before.  [RemoveAndDeleteRecord] itself returns the size before the
    deletion, moves the slots the wrong way (deleting key 2 from
    [(1,10),(2,20),(3,30)] leaves [(1,10),(2,20)]), and shrinks the page for
    an absent key too. *)
Theorem Remove_deletes_nothing :
  (∀ fuel key t t',
     BTree.Tree.Remove fuel key t = BTree.Ret () t' → BTree.Tree.same_pages t t')
  ∧ (∀ fuel : nat,
       let r := (BTree.Tree.Remove fuel 5;; BTree.Tree.GetValue fuel 5 [])
                  (BTree.Tree.one_leaf_tree 5 7) in
       BTree.Tree.returned r = Some (true, [0%Z])
       ∧ (BTree.Tree.state_after r ≫= λ t, BTree.Tree.entries_of t 1)
         = Some [(5, 7)]%Z)
  ∧ (∀ key p n p',
       BTree.Leaf.RemoveAndDeleteRecord key p = Some (n, p') → n = BTree.GetSize p)
  ∧ (λ r, (r.1, BTree.prefix (BTree.array r.2) (BTree.GetSize r.2)))
      <$> BTree.Leaf.RemoveAndDeleteRecord 2
            (BTree.Tree.leaf_of [(1, 10); (2, 20); (3, 30)]%Z BTree.INVALID_PAGE_ID)
    = Some (3%Z, [(1, 10); (2, 20)]%Z)
  ∧ (λ r, (r.1, BTree.prefix (BTree.array r.2) (BTree.GetSize r.2)))
      <$> BTree.Leaf.RemoveAndDeleteRecord 99
            (BTree.Tree.leaf_of [(1, 10); (2, 20); (3, 30)]%Z BTree.INVALID_PAGE_ID)
    = Some (3%Z, [(1, 10); (2, 20)]%Z).
Proof.
  split; [|split; [|split; [|split]]].
  - intros fuel key t t' Hret. by eapply read_only_Remove.
  - intros fuel. destruct fuel; vm_compute; split; reflexivity.
  - apply RemoveAndDeleteRecord_returns_old_size.
  - by vm_compute.
  - by vm_compute.
Qed.

(** C7 on the code.  On the one-leaf tree, whose root is page 1 and on
    which no page is pinned: [GetValue] fetches the root twice and unpins it
    once; [Remove] fetches it and never unpins it; [Insert] of a key it
    takes for present fetches it and returns false without unpinning it.
    Each call returns with the root still pinned. *)
Theorem tree_operations_leave_pages_pinned :
  ∀ (fuel : nat) (key value : Z),
    let t := BTree.Tree.one_leaf_tree key value in
    BTree.root_page_id_ t = 1%Z
    ∧ BTree.pins (BTree.buffer_pool_manager_ t) 1 = 0%Z
    ∧ BTree.count_pins 1 (BTree.Tree.log_of t) = BTree.count_unpins 1 (BTree.Tree.log_of t)
    ∧ BTree.Tree.calls_after t 1 (BTree.Tree.GetValue fuel key [] t)
      = Some ([BTree.EvFetchPage 1 true; BTree.EvFetchPage 1 true;
               BTree.EvUnpinPage 1 false true], 1%Z)
    ∧ BTree.Tree.calls_after t 1 (BTree.Tree.Remove fuel key t)
      = Some ([BTree.EvFetchPage 1 true], 1%Z)
    ∧ BTree.Tree.calls_after t 1 (BTree.Tree.Insert 4 4 fuel key value t)
      = Some ([BTree.EvFetchPage 1 true], 1%Z)
    ∧ BTree.Tree.returned (BTree.Tree.Insert 4 4 fuel key value t) = Some false.
Proof.
  intros fuel key value.
  destruct fuel; vm_compute; repeat split; reflexivity.
Qed.

(** * Further properties of the code *)

Section lru_more.
Import LRU.
Context `{Countable T}.
Implicit Types (s : LRUReplacer T) (l : list (iterator * T)) (q : list T).

Lemma Inv_NoDup_elems s : Inv s → NoDup (elems s).
Proof.
  intros HI. unfold elems. apply NoDup_fmap_2_strong.
  - intros [n v] [m w] Hv Hw Heq. simpl in Heq. subst w.
    apply (inv_map _ HI) in Hv, Hw. congruence.
  - eapply NoDup_fmap_1, (inv_nodup _ HI).
Qed.

Lemma Inv_elem_of_elems s x : Inv s → x ∈ elems s ↔ is_Some (map_ s !! x).
Proof.
  intros HI. unfold elems. rewrite list_elem_of_fmap. split.
  - intros [[n v] [-> Hin]]. exists n. by apply (inv_map _ HI).
  - intros [n Hn]. exists (n, x). split; [done|]. by apply (inv_map _ HI).
Qed.

Lemma length_filter_ne q x :
  NoDup q →
  length (filter (λ y, y ≠ x) q) + (if decide (x ∈ q) then 1 else 0) = length q.
Proof.
  induction q as [|y q IH]; intros Hnd.
  - simpl. destruct (decide (x ∈ [])) as [Hin|]; [by apply elem_of_nil in Hin|done].
  - apply NoDup_cons in Hnd as [Hy Hnd]. specialize (IH Hnd).
    rewrite filter_cons. destruct (decide (y ≠ x)) as [Hne|Heq].
    + simpl. destruct (decide (x ∈ y :: q)) as [Hin|Hnin];
        destruct (decide (x ∈ q)) as [Hin'|Hnin']; try lia.
      * apply elem_of_cons in Hin as [?|?]; [congruence|done].
      * exfalso. apply Hnin. by right.
    + assert (y = x) as -> by (by destruct (decide (y = x))).
      destruct (decide (x ∈ x :: q)) as [_|Hnin]; [|exfalso; apply Hnin; by left].
      destruct (decide (x ∈ q)); [done|]. simpl. lia.
Qed.

Lemma Erase_result s x : Inv s → (Erase x s).1 = true ↔ x ∈ elems s.
Proof.
  intros HI. rewrite Inv_elem_of_elems by done. unfold Erase.
  destruct (map_ s !! x) as [it|]; simpl.
  - split; [by eexists|done].
  - split; [done|]. by intros [? ?].
Qed.

End lru_more.

(** X1.  After any history of calls the replacer holds no value twice, and
    [map_] knows exactly the values of [list_]: every iterator it stores
    designates a live node that holds the value it is filed under, so the
    [list_.erase(iter->second)] of [Insert] and [Erase] never goes through a
    dangling iterator. *)
Theorem replacer_holds_no_value_twice :
  ∀ (T : Type) (EqT : EqDecision T) (CntT : Countable T) (ops : list (LRU.Op T)),
    NoDup (LRU.elems (LRU.run ops))
    ∧ (∀ x, x ∈ LRU.elems (LRU.run ops) ↔ is_Some (LRU.map_ (LRU.run ops) !! x))
    ∧ (∀ x it, LRU.map_ (LRU.run ops) !! x = Some it ↔ (it, x) ∈ LRU.list_ (LRU.run ops)).
Proof.
  intros T EqT CntT ops. destruct (run_abstracts ops) as [HI _].
  split; [by apply Inv_NoDup_elems|]. split.
  - intros x. by apply Inv_elem_of_elems.
  - apply HI.
Qed.

(** X2.  After any history, [Erase x] answers [true] exactly when [x] is
    held.  It then takes [x] out and leaves the other values in their order,
    one value fewer; when it answers [false] the replacer is unchanged. *)
Theorem Erase_answers_whether_the_value_was_held :
  ∀ (T : Type) (EqT : EqDecision T) (CntT : Countable T) (ops : list (LRU.Op T)) (x : T),
    let s := LRU.run ops in
    (((LRU.Erase x s).1 = true) ↔ x ∈ LRU.elems s)
    ∧ LRU.elems (LRU.Erase x s).2 = filter (λ y, y ≠ x) (LRU.elems s)
    ∧ ¬ (x ∈ LRU.elems (LRU.Erase x s).2)
    ∧ ((LRU.Erase x s).1 = true → S (LRU.Size (LRU.Erase x s).2) = LRU.Size s)
    ∧ ((LRU.Erase x s).1 = false → (LRU.Erase x s).2 = s).
Proof.
  intros T EqT CntT ops x s. destruct (run_abstracts ops) as [HI _]. fold s in HI.
  pose proof (Erase_elems s x HI) as Helems.
  split; [by apply Erase_result|]. split; [done|]. split; [|split].
  - rewrite Helems. intros [Hne _]%list_elem_of_filter. by apply Hne.
  - intros Hin%Erase_result; [|done].
    pose proof (length_filter_ne (LRU.elems s) x (Inv_NoDup_elems s HI)) as Hlen.
    destruct (decide (x ∈ LRU.elems s)); [|done].
    unfold LRU.Size. rewrite <- !(length_fmap snd).
    fold (LRU.elems (LRU.Erase x s).2) (LRU.elems s). rewrite Helems. lia.
  - unfold LRU.Erase. by destruct (LRU.map_ s !! x).
Qed.

(** X3.  After any history, [Insert x] makes [x] the value that will be
    handed out last and keeps the others in their order: the size grows by
    one when [x] was not held and stays the same when it was.  An [Erase x]
    right after it succeeds and leaves the other values as they were. *)
Theorem Insert_of_a_held_value_keeps_the_size :
  ∀ (T : Type) (EqT : EqDecision T) (CntT : Countable T) (ops : list (LRU.Op T)) (x : T),
    let s := LRU.run ops in
    LRU.elems (LRU.Insert x s) = x :: filter (λ y, y ≠ x) (LRU.elems s)
    ∧ LRU.Size (LRU.Insert x s)
      = (if decide (x ∈ LRU.elems s) then LRU.Size s else S (LRU.Size s))
    ∧ (LRU.Erase x (LRU.Insert x s)).1 = true
    ∧ LRU.elems (LRU.Erase x (LRU.Insert x s)).2 = filter (λ y, y ≠ x) (LRU.elems s).
Proof.
  intros T EqT CntT ops x s. destruct (run_abstracts ops) as [HI _]. fold s in HI.
  pose proof (Insert_elems s x HI) as Helems.
  pose proof (Insert_Inv s x HI) as HI'.
  split; [done|]. split; [|split].
  - pose proof (length_filter_ne (LRU.elems s) x (Inv_NoDup_elems s HI)) as Hlen.
    unfold LRU.Size. rewrite <- !(length_fmap snd).
    fold (LRU.elems (LRU.Insert x s)) (LRU.elems s). rewrite Helems. simpl.
    destruct (decide (x ∈ LRU.elems s)); lia.
  - apply Erase_result; [done|]. rewrite Helems. by left.
  - rewrite Erase_elems by done. rewrite Helems.
    rewrite filter_cons. destruct (decide (x ≠ x)); [done|].
    rewrite list_filter_filter. apply list_filter_iff. tauto.
Qed.

Section hash_more.
Import Hash.
Local Open Scope Z_scope.
Context `{Countable K} {V : Type}.
Variable Hasher : K → Z.
Implicit Types (b : Bucket K V) (t : ExtendibleHash K V).

(** The loop of [Split], entry by entry: an entry whose bit is set leaves
    the old bucket and is put into the new one. *)
Lemma Split_fold depth (kvs : list (K * V)) (this nb : Bucket K V) k :
  let f := λ '(this, new_bucket) '(k, v),
             if negb (ISZERO (Hasher k) depth)
             then (set_data this (delete k (data_ this)), (Put k v new_bucket).2)
             else (this, new_bucket) in
  data_ (foldl f (this, nb) kvs).1 !! k
    = (if bool_decide (k ∈ kvs.*1) && negb (ISZERO (Hasher k) depth)
       then None else data_ this !! k)
  ∧ data_ (foldl f (this, nb) kvs).2 !! k
    = (match data_ nb !! k with
       | Some w => Some w
       | None => if negb (ISZERO (Hasher k) depth)
                 then (list_to_map kvs : gmap K V) !! k else None
       end).
Proof.
  intros f. revert this nb. induction kvs as [|[k0 v0] kvs IH]; intros this nb.
  - simpl. split.
    + done.
    + destruct (data_ nb !! k); [done|]. rewrite lookup_empty.
      by destruct (negb (ISZERO (Hasher k) depth)).
  - cbn [foldl]. unfold f at 2 4. 
    destruct (negb (ISZERO (Hasher k0) depth)) eqn:Hbit.
    + destruct (IH (set_data this (delete k0 (data_ this))) (Put k0 v0 nb).2) as [IH1 IH2].
      rewrite IH1, IH2. clear IH1 IH2. simpl.
      destruct (decide (k = k0)) as [->|Hne].
      * rewrite Hbit. rewrite lookup_delete_eq, lookup_insert_eq.
        rewrite (bool_decide_eq_true_2 (k0 ∈ k0 :: _)) by (by left). simpl.
        split; [by destruct (bool_decide _)|].
        unfold map_insert. destruct (data_ nb !! k0) as [w|] eqn:Hw.
        -- by rewrite Hw.
        -- by rewrite lookup_insert_eq.
      * rewrite lookup_delete_ne, lookup_insert_ne by done. split.
        -- rewrite (bool_decide_ext (k ∈ k0 :: _) (k ∈ kvs.*1)); [done|].
           rewrite elem_of_cons. split; [by intros [?|?]|by right].
        -- unfold map_insert. destruct (data_ nb !! k0) as [w|] eqn:Hw; [done|].
           by rewrite lookup_insert_ne.
    + destruct (IH this nb) as [IH1 IH2]. rewrite IH1, IH2. clear IH1 IH2. simpl.
      destruct (decide (k = k0)) as [->|Hne].
      * rewrite Hbit. rewrite andb_false_r. split; [by rewrite andb_false_r|done].
      * rewrite lookup_insert_ne by done. split; [|done].
        rewrite (bool_decide_ext (k ∈ k0 :: _) (k ∈ kvs.*1)); [done|].
        rewrite elem_of_cons. split; [by intros [?|?]|by right].
Qed.

Lemma Split_lookup b k :
  data_ (Split Hasher b).1 !! k
    = (if ISZERO (Hasher k) (local_depth_ b + 1) then data_ b !! k else None)
  ∧ data_ (Split Hasher b).2 !! k
    = (if ISZERO (Hasher k) (local_depth_ b + 1) then None else data_ b !! k).
Proof.
  unfold Split.
  match goal with |- context [foldl ?f (?this, ?nb) ?kvs] =>
    destruct (Split_fold (local_depth_ b + 1) kvs this nb k) as [H1 H2] end.
  cbv zeta in H1, H2. rewrite H1, H2. clear H1 H2. simpl.
  rewrite list_to_map_to_list, lookup_empty.
  destruct (ISZERO (Hasher k) (local_depth_ b + 1)); simpl.
  - by rewrite andb_false_r.
  - split; [|done]. rewrite andb_true_r.
    destruct (data_ b !! k) as [v|] eqn:Hk.
    + rewrite bool_decide_eq_true_2; [done|].
      apply list_elem_of_fmap. exists (k, v). split; [done|]. by apply elem_of_map_to_list.
    + by destruct (bool_decide _).
Qed.


Lemma bucket_at_Some t id l b :
  vector_get (buckets_ t) id = Some (Some l) → heap_ t !! l = Some b →
  bucket_at t id = Some b.
Proof. intros Hget Hl. unfold bucket_at. rewrite Hget. simpl. done. Qed.

Lemma Remove_spec key t r t' :
  Remove Hasher key t = Some (r, t') →
  ∃ l b, vector_get (buckets_ t) (slot_of Hasher key t) = Some (Some l)
         ∧ heap_ t !! l = Some b
         ∧ r = bool_decide (is_Some (data_ b !! key))
         ∧ t' = {| bucket_size_ := bucket_size_ t; global_depth_ := global_depth_ t;
                   buckets_ := buckets_ t;
                   heap_ := <[l := set_data b (delete key (data_ b))]> (heap_ t) |}.
Proof.
  unfold Remove. intros Hrm.
  destruct (vector_get (buckets_ t) (slot_of Hasher key t)) as [[l|]|] eqn:Hget;
    simplify_eq/=.
  destruct (heap_ t !! l) as [b|] eqn:Hb; simplify_eq/=.
  exists l, b. split; [done|]. split; [done|].
  unfold Bucket_Remove in Hrm. destruct (data_ b !! key) as [v|] eqn:Hk; simplify_eq/=.
  - done.
  - split; [done|]. f_equal. rewrite delete_id by done. by destruct b.
Qed.

End hash_more.


(** What [Remove] leaves behind when it returns. *)
Lemma Remove_then_Find (K : Type) (EqK : EqDecision K) (CntK : Countable K) (V : Type)
    (Hasher : K → Z) (t t' : Hash.ExtendibleHash K V) (key : K) (r : bool) :
  Hash.Remove Hasher key t = Some (r, t') →
  Hash.Find Hasher key t' = Some None
  ∧ (r = true ↔ ∃ v, Hash.Find Hasher key t = Some (Some v))
  ∧ (∀ k, k ≠ key → Hash.Find Hasher k t' = Hash.Find Hasher k t)
  ∧ Hash.GetGlobalDepth t' = Hash.GetGlobalDepth t
  ∧ Hash.GetNumBuckets t' = Hash.GetNumBuckets t
  ∧ (∀ id, Hash.GetLocalDepth t' id = Hash.GetLocalDepth t id).
Proof.
  intros Hrm.
  apply Remove_spec in Hrm as (l & b & Hget & Hb & -> & Ht').
  assert (l < length (Hash.heap_ t))%nat as Hl by (by eapply lookup_lt_Some).
  assert (Hash.buckets_ t' = Hash.buckets_ t) as Hbuckets by (by rewrite Ht').
  assert (Hash.global_depth_ t' = Hash.global_depth_ t) as Hdepth by (by rewrite Ht').
  assert (Hash.heap_ t'
          = <[l := Hash.set_data b (delete key (Hash.data_ b))]> (Hash.heap_ t)) as Hheap
    by (by rewrite Ht').
  clear Ht'.
  assert (∀ k, Hash.slot_of Hasher k t' = Hash.slot_of Hasher k t) as Hslot.
  { intros k. unfold Hash.slot_of. by rewrite Hdepth. }
  assert (∀ id, Hash.bucket_at t' id
                = (λ c, Hash.set_data c (delete key (Hash.data_ c))) <$> Hash.bucket_at t id
                  ∨ Hash.bucket_at t' id = Hash.bucket_at t id
                    ∧ Hash.vector_get (Hash.buckets_ t) id ≠ Some (Some l)) as Hat.
  { intros id. unfold Hash.bucket_at. rewrite Hbuckets, Hheap.
    destruct (Hash.vector_get (Hash.buckets_ t) id) as [[l'|]|] eqn:Hid; simpl;
      [|by left..].
    destruct (decide (l' = l)) as [->|Hne].
    - left. rewrite list_lookup_insert_eq by done. by rewrite Hb.
    - right. rewrite list_lookup_insert_ne by done. split; [done|congruence]. }
  split; [|split; [|split; [|split; [done|split; [|]]]]].
  - unfold Hash.Find. rewrite Hslot. destruct (Hat (Hash.slot_of Hasher key t)) as [->|[_ Hne]];
      [|done].
    rewrite (bucket_at_Some _ _ _ _ Hget Hb). simpl. unfold Hash.Get. simpl.
    by rewrite lookup_delete_eq.
  - unfold Hash.Find. rewrite (bucket_at_Some _ _ _ _ Hget Hb). simpl. unfold Hash.Get.
    rewrite bool_decide_eq_true. split.
    + intros [v Hv]. exists v. by rewrite Hv.
    + intros [v Hv]. exists v. congruence.
  - intros k Hk. unfold Hash.Find. rewrite Hslot.
    destruct (Hat (Hash.slot_of Hasher k t)) as [->|[-> _]]; [|done].
    destruct (Hash.bucket_at t (Hash.slot_of Hasher k t)) as [c|]; [|done].
    simpl. unfold Hash.Get. simpl. by rewrite lookup_delete_ne.
  - unfold Hash.GetNumBuckets. by rewrite Hbuckets.
  - intros id. unfold Hash.GetLocalDepth.
    destruct (Hat id) as [->|[-> _]]; [|done].
    by destruct (Hash.bucket_at t id).
Qed.


(** X5.  When the slot of the key holds a bucket, [Remove key] returns and
    the key is gone: [Find key] then answers [false].  [Remove] answers
    [true] exactly when [Find] would have found the key, every other key is
    found as before, and neither the global depth, the number of slots nor
    any local depth changes. *)
Theorem Find_after_Remove_misses_the_key :
  ∀ (K : Type) (EqK : EqDecision K) (CntK : Countable K) (V : Type) (Hasher : K → Z)
    (t : Hash.ExtendibleHash K V) (key : K),
    is_Some (Hash.bucket_at t (Hash.slot_of Hasher key t)) →
    ∃ r t', Hash.Remove Hasher key t = Some (r, t')
      ∧ Hash.Find Hasher key t' = Some None
      ∧ (r = true ↔ ∃ v, Hash.Find Hasher key t = Some (Some v))
      ∧ (∀ k, k ≠ key → Hash.Find Hasher k t' = Hash.Find Hasher k t)
      ∧ Hash.GetGlobalDepth t' = Hash.GetGlobalDepth t
      ∧ Hash.GetNumBuckets t' = Hash.GetNumBuckets t
      ∧ (∀ id, Hash.GetLocalDepth t' id = Hash.GetLocalDepth t id).
Proof.
  intros K EqK CntK V Hasher t key [b Hb].
  assert (∃ r t', Hash.Remove Hasher key t = Some (r, t')) as (r & t' & Hrm).
  { unfold Hash.bucket_at in Hb. unfold Hash.Remove.
    destruct (Hash.vector_get _ _) as [[l|]|]; simplify_eq/=.
    rewrite Hb. simpl. destruct (Hash.Bucket_Remove key b). by eexists _, _. }
  exists r, t'. split; [done|]. by apply Remove_then_Find.
Qed.

(** X5 at the table of the split scenario: removing key 2 answers [true]
    and key 2 is no longer found. *)
Lemma Find_after_Remove_misses_the_key_witness :
  ∃ t r t', Hash.insert_all Hash.hash_int Hash.scenario Hash.table2 = Some t
            ∧ Hash.Remove Hash.hash_int 2%Z t = Some (r, t')
            ∧ Hash.Find Hash.hash_int 2%Z t' = Some None.
Proof.
  destruct (Hash.insert_all Hash.hash_int Hash.scenario Hash.table2) as [t|] eqn:Ht;
    [|vm_compute in Ht; discriminate].
  destruct (Find_after_Remove_misses_the_key Z _ _ string Hash.hash_int t 2%Z)
    as (r & t' & Hrm & Hfind & _).
  - vm_compute in Ht. injection Ht as <-. vm_compute. by eexists.
  - by exists t, r, t'.
Defined.

Section hash_insert.
Import Hash.
Local Open Scope Z_scope.
Context `{Countable K} {V : Type}.
Variable Hasher : K → Z.
Implicit Types (b : Bucket K V) (t : ExtendibleHash K V).


End hash_insert.

(** X6.  When the bucket of the key does not fill up, [Insert] returns, and
    [Find] then answers the value the key is filed under: the value it had
    before if the key was present ([std::map::insert] does not overwrite),
    else the value inserted.  Every other key is found as before and the
    directory is untouched. *)
Theorem Find_after_Insert_that_fits :
  ∀ (K : Type) (EqK : EqDecision K) (CntK : Countable K) (V : Type) (Hasher : K → Z)
    (t : Hash.ExtendibleHash K V) (key : K) (value : V) (l : nat) (b : Hash.Bucket K V),
    Hash.vector_get (Hash.buckets_ t) (Hash.slot_of Hasher key t) = Some (Some l) →
    Hash.heap_ t !! l = Some b →
    (Hash.Put key value b).1 = true →
    ∃ t', Hash.Insert Hasher key value t = Some t'
          ∧ Hash.Find Hasher key t' = Some (Some (default value (Hash.data_ b !! key)))
          ∧ (∀ k, k ≠ key → Hash.Find Hasher k t' = Hash.Find Hasher k t)
          ∧ Hash.GetGlobalDepth t' = Hash.GetGlobalDepth t
          ∧ Hash.buckets_ t' = Hash.buckets_ t.
Proof.
  intros K EqK CntK V Hasher t key value l b Hget Hb Hfits.
  assert (l < length (Hash.heap_ t))%nat as Hl by (by eapply lookup_lt_Some).
  unfold Hash.Insert. rewrite Hget. cbn -[Hash.Put Hash.Split Hash.expand].
  rewrite Hb. cbn -[Hash.Put Hash.Split Hash.expand].
  destruct (Hash.Put key value b) as [fits b1] eqn:HPut. simpl in Hfits. subst fits.
  eexists. split; [done|].
  assert (Hash.data_ b1 = Hash.map_insert key value (Hash.data_ b)) as Hdata.
  { unfold Hash.Put in HPut. by simplify_eq/=. }
  split; [|split; [|done]].
  - unfold Hash.Find, Hash.bucket_at, Hash.slot_of in *. simpl. rewrite Hget. simpl.
    rewrite list_lookup_insert_eq by done. simpl. unfold Hash.Get. rewrite Hdata.
    unfold Hash.map_insert. destruct (Hash.data_ b !! key) as [w|] eqn:Hw; simpl.
    + by rewrite Hw.
    + by rewrite lookup_insert_eq.
  - intros k Hk. unfold Hash.Find, Hash.bucket_at, Hash.slot_of. simpl.
    set (id := Hash.GETBIT (Hasher k) _).
    destruct (Hash.vector_get (Hash.buckets_ t) id) as [[l'|]|]; simpl; [|done..].
    destruct (decide (l' = l)) as [->|Hne].
    + rewrite list_lookup_insert_eq by done. rewrite Hb. simpl. unfold Hash.Get.
      rewrite Hdata. unfold Hash.map_insert.
      destruct (Hash.data_ b !! key); [done|]. by rewrite lookup_insert_ne.
    + by rewrite list_lookup_insert_ne.
Qed.

(** X6 at the empty table with buckets of two entries: key 0 goes to the
    bucket of slot 0, which then holds one entry, and is found. *)
Lemma Find_after_Insert_that_fits_witness :
  ∃ t', Hash.Insert Hash.hash_int 0%Z "a"%string Hash.table2 = Some t'
        ∧ Hash.Find Hash.hash_int 0%Z t' = Some (Some "a"%string).
Proof.
  destruct (Find_after_Insert_that_fits Z _ _ string Hash.hash_int Hash.table2 0%Z "a"%string
              0%nat (Hash.Bucket_new 0 0 2) eq_refl eq_refl eq_refl) as (t' & Hins & Hfind & _).
  exists t'. split; [exact Hins|exact Hfind].
Defined.

(** X7.  [Bucket::Split] raises the local depth by one and hands the new
    bucket exactly the entries whose hash has the bit of the new depth set,
    each with its value; the other entries stay.  No entry is lost and none
    is in both buckets. *)
Theorem Split_moves_the_entries_whose_bit_is_set :
  ∀ (K : Type) (EqK : EqDecision K) (CntK : Countable K) (V : Type) (Hasher : K → Z)
    (b : Hash.Bucket K V),
    let depth := (Hash.local_depth_ b + 1)%Z in
    let this := (Hash.Split Hasher b).1 in
    let new_bucket := (Hash.Split Hasher b).2 in
    Hash.local_depth_ this = depth
    ∧ Hash.local_depth_ new_bucket = depth
    ∧ Hash.id_ this = Hash.id_ b
    ∧ Hash.id_ new_bucket = Hash.SETBIT (Hash.id_ b) depth
    ∧ (∀ k, Hash.data_ this !! k
            = if Hash.ISZERO (Hasher k) depth then Hash.data_ b !! k else None)
    ∧ (∀ k, Hash.data_ new_bucket !! k
            = if Hash.ISZERO (Hasher k) depth then None else Hash.data_ b !! k)
    ∧ Hash.data_ this ∪ Hash.data_ new_bucket = Hash.data_ b
    ∧ Hash.data_ this ##ₘ Hash.data_ new_bucket.
Proof.
  intros K EqK CntK V Hasher b depth this new_bucket.
  destruct (Split_headers Hasher b) as (Hid1 & Hd1 & Hid2 & Hd2).
  assert (∀ k, Hash.data_ this !! k
               = if Hash.ISZERO (Hasher k) depth then Hash.data_ b !! k else None) as H1.
  { intros k. apply Split_lookup. }
  assert (∀ k, Hash.data_ new_bucket !! k
               = if Hash.ISZERO (Hasher k) depth then None else Hash.data_ b !! k) as H2.
  { intros k. apply Split_lookup. }
  repeat split; try done.
  - apply map_eq. intros k. rewrite lookup_union, H1, H2.
    destruct (Hash.ISZERO (Hasher k) depth); by destruct (Hash.data_ b !! k).
  - apply map_disjoint_spec. intros k v w Hv Hw. rewrite H1 in Hv. rewrite H2 in Hw.
    by destruct (Hash.ISZERO (Hasher k) depth).
Qed.





Section prefix_facts.
Import BTree.
Local Open Scope Z_scope.
Implicit Types (arr : Z → Z * Z) (p : BPlusTreePage).

Lemma length_prefix arr n : length (prefix arr n) = Z.to_nat n.
Proof. unfold prefix. by rewrite length_fmap, length_seqZ. Qed.

Lemma prefix_lookup arr n (i : nat) :
  Z.of_nat i < n → prefix arr n !! i = Some (arr (Z.of_nat i)).
Proof.
  intros Hi. unfold prefix. rewrite list_lookup_fmap, lookup_seqZ_lt by done. done.
Qed.

Lemma prefix_lookup_ge arr n (i : nat) :
  n ≤ Z.of_nat i → prefix arr n !! i = None.
Proof.
  intros Hi. apply lookup_ge_None_2. rewrite length_prefix. lia.
Qed.

Lemma prefix_ext arr arr' n :
  (∀ i, 0 ≤ i < n → arr i = arr' i) → prefix arr n = prefix arr' n.
Proof.
  intros Hext. unfold prefix. apply list_fmap_ext.
  intros i x Hx. apply lookup_seqZ in Hx as [-> Hi]. apply Hext. lia.
Qed.

Lemma prefix_app arr k n :
  0 ≤ k ≤ n → prefix arr n = prefix arr k ++ prefix (λ i, arr (i + k)) (n - k).
Proof.
  intros Hk. apply list_eq. intros i.
  destruct (decide (Z.of_nat i < k)) as [Hlt|Hge].
  - rewrite lookup_app_l by (rewrite length_prefix; lia).
    by rewrite !prefix_lookup by lia.
  - rewrite lookup_app_r by (rewrite length_prefix; lia). rewrite length_prefix.
    destruct (decide (Z.of_nat i < n)) as [Hlt|Hge'].
    + rewrite !prefix_lookup by lia. do 2 f_equal. lia.
    + by rewrite !prefix_lookup_ge by lia.
Qed.

Lemma prefix_snoc arr n : 0 ≤ n → prefix arr (n + 1) = prefix arr n ++ [arr n].
Proof.
  intros Hn. rewrite (prefix_app arr n (n + 1)) by lia. f_equal.
  replace (n + 1 - n) with 1 by lia. done.
Qed.

Lemma prefix_cons arr n :
  0 ≤ n → prefix arr (n + 1) = arr 0 :: prefix (λ i, arr (i + 1)) n.
Proof.
  intros Hn. rewrite (prefix_app arr 1 (n + 1)) by lia.
  replace (n + 1 - 1) with n by lia. done.
Qed.

Lemma memmove_Some arr dst src n :
  0 ≤ n →
  memmove arr dst src n
  = Some (λ i, if (dst <=? i) && (i <? dst + n) then arr (i - dst + src) else arr i).
Proof.
  intros Hn. unfold memmove, memcpy. by destruct (n <? 0) eqn:Hneg; [lia|].
Qed.

Lemma memmove_None arr dst src n : n < 0 → memmove arr dst src n = None.
Proof. intros Hn. unfold memmove, memcpy. by destruct (n <? 0) eqn:Hneg; [|lia]. Qed.

End prefix_facts.

Section search_more.
Import BTree.
Local Open Scope Z_scope.
Implicit Types (arr : Z → Z * Z) (p : BPlusTreePage).

Lemma comparator_eq a b :
  (comparator a b <? 0) = false → (comparator a b >? 0) = false → a = b.
Proof.
  intros H1 H2.
  destruct (decide (a < b)) as [Hlt|Hge]; [apply comparator_lt in Hlt; congruence|].
  destruct (decide (b < a)) as [Hgt|Hle]; [apply comparator_gt in Hgt; congruence|lia].
Qed.

(** With enough rounds for the interval, the loop of [BinarySearch] stops at
    a slot with only smaller keys before it; unless that slot is the last
    one, its key is not below [key]. *)
Lemma BinarySearch_loop_lower_bound arr key (fuel : nat) :
  ∀ start end_,
    start ≤ end_ → end_ - start < 2 ^ Z.of_nat fuel →
    keys_increasing arr start end_ →
    let r := BinarySearch_loop fuel arr key start end_ in
    start ≤ r ≤ end_
    ∧ (∀ i, start ≤ i → i < r → (arr i).1 < key)
    ∧ (r < end_ → key ≤ (arr r).1).
Proof.
  induction fuel as [|fuel IH]; intros start end_ Hse Hfuel Hinc.
  - simpl in *. assert (start = end_) as -> by lia.
    split; [lia|]. split; intros; lia.
  - rewrite pow2_succ in Hfuel. pose proof (pow2_pos fuel) as Hpos.
    cbn [BinarySearch_loop].
    destruct (start <? end_) eqn:Hlt; [apply Z.ltb_lt in Hlt|apply Z.ltb_ge in Hlt].
    + rewrite Z.shiftr_div_pow2 by lia. change (2 ^ 1) with 2.
      pose proof (half_bounds (end_ - start)) as Hhalf.
      set (middle := start + (end_ - start) / 2) in *.
      assert (start ≤ middle < end_) as Hmid by (unfold middle; lia).
      destruct (comparator (arr middle).1 key <? 0) eqn:Hc1.
      * apply comparator_lt in Hc1.
        destruct (IH (middle + 1) end_) as (Hr & Hbelow & Hkr).
        -- lia.
        -- unfold middle. lia.
        -- intros i j ? ? ?. apply Hinc; lia.
        -- split; [lia|]. split; [|done]. intros i Hi1 Hi2.
           destruct (decide (i ≤ middle)) as [Hle|Hgt]; [|apply Hbelow; lia].
           destruct (decide (i = middle)) as [->|Hne]; [done|].
           pose proof (Hinc i middle). lia.
      * destruct (comparator (arr middle).1 key >? 0) eqn:Hc2.
        -- apply comparator_gt in Hc2.
           destruct (IH start middle) as (Hr & Hbelow & Hkr).
           ++ lia.
           ++ unfold middle. lia.
           ++ intros i j ? ? ?. apply Hinc; lia.
           ++ split; [lia|]. split; [done|]. intros Hre.
              set (r := BinarySearch_loop fuel arr key start middle) in *.
              destruct (decide (r = middle)) as [->|Hne]; [lia|]. apply Hkr. lia.
        -- pose proof (comparator_eq _ _ Hc1 Hc2) as Heq.
           split; [lia|]. split; [|lia]. intros i Hi1 Hi2.
           pose proof (Hinc i middle). lia.
    + assert (start = end_) as -> by lia.
      split; [lia|]. split; intros; lia.
Qed.

Lemma BinarySearch_lower_bound arr size key :
  2 ≤ size < 2 ^ 31 → keys_increasing arr 1 (size - 1) →
  let r := BinarySearch arr size key in
  1 ≤ r ≤ size - 1
  ∧ (∀ i, 1 ≤ i → i < r → (arr i).1 < key)
  ∧ (r < size - 1 → key ≤ (arr r).1).
Proof.
  intros Hsize Hinc. unfold BinarySearch.
  assert (2 ^ 31 < 2 ^ 64) as Hpow by done.
  rewrite (to_size_t_small size) by lia. rewrite to_size_t_small by lia.
  destruct (BinarySearch_loop_lower_bound arr key 64 1 (size - 1))
    as (Hr & Hbelow & Hkr); [lia| |done|].
  { change (2 ^ Z.of_nat 64) with (2 ^ 64). lia. }
  rewrite to_int_small by lia. done.
Qed.

Lemma BinarySearch_size_1 arr key : BinarySearch arr 1 key = 1.
Proof. reflexivity. Qed.

End search_more.



(** X10.  On a leaf whose keys increase, [Lookup] finds the value of every
    key stored in the slots [1 .. size-1].  For the key of slot 0 it answers
    the value of slot 1, and for a key that is not stored but lies between
    two stored keys it answers the value filed under the next larger key:
    it never answers [false]. *)
Theorem Leaf_Lookup_never_sees_slot_0 :
  ∀ (p : BTree.BPlusTreePage),
    (2 ≤ BTree.GetSize p < 2 ^ 31)%Z →
    BTree.keys_increasing (BTree.array p) 0 (BTree.GetSize p - 1) →
    (∀ i, (1 ≤ i ≤ BTree.GetSize p - 1)%Z →
          BTree.Leaf.Lookup (BTree.array p i).1 p = Some (BTree.array p i).2)
    ∧ BTree.Leaf.Lookup (BTree.array p 0).1 p = Some (BTree.array p 1).2
    ∧ (∀ key i, (1 ≤ i ≤ BTree.GetSize p - 1)%Z →
                ((BTree.array p (i - 1)).1 < key < (BTree.array p i).1)%Z →
                BTree.Leaf.Lookup key p = Some (BTree.array p i).2).
Proof.
  intros p Hsize Hinc.
  assert (BTree.keys_increasing (BTree.array p) 1 (BTree.GetSize p - 1)) as Hinc1.
  { intros i j ? ? ?. apply Hinc; lia. }
  assert (∀ key i, (1 ≤ i ≤ BTree.GetSize p - 1)%Z →
            (∀ j, 1 ≤ j → j < i → (BTree.array p j).1 < key)%Z →
            (key ≤ (BTree.array p i).1)%Z →
            BTree.Leaf.Lookup key p = Some (BTree.array p i).2) as Hfind.
  { intros key i Hi Hbelow Hkey. unfold BTree.Leaf.Lookup.
    destruct (BinarySearch_lower_bound (BTree.array p) (BTree.GetSize p) key Hsize Hinc1)
      as (Hr & Hrbelow & Hkr).
    set (r := BTree.BinarySearch (BTree.array p) (BTree.GetSize p) key) in *.
    assert (r = i) as ->.
    { destruct (decide (r < i)%Z) as [Hlt|Hge].
      - pose proof (Hbelow r). assert (key ≤ (BTree.array p r).1)%Z by (apply Hkr; lia). lia.
      - destruct (decide (i < r)%Z) as [Hlt|Hge']; [|lia]. pose proof (Hrbelow i). lia. }
    destruct (i =? -1)%Z eqn:Hm; [lia|done]. }
  split; [|split].
  - intros i Hi. apply Hfind; [done| |lia]. intros j Hj1 Hj2. apply Hinc; lia.
  - apply (Hfind _ 1%Z); [lia|intros; lia|]. pose proof (Hinc 0 1)%Z. lia.
  - intros key i Hi Hkey. apply Hfind; [done| |lia]. intros j Hj1 Hj2.
    destruct (decide (j = i - 1)%Z) as [->|Hne]; [lia|].
    pose proof (Hinc j (i - 1))%Z. lia.
Qed.

(** X10 on the leaf (1,10), (2,20), (3,30): key 2 is found with its value,
    key 1 is answered with the value of key 2. *)
Lemma Leaf_Lookup_never_sees_slot_0_witness :
  let p := BTree.Tree.leaf_of [(1, 10); (2, 20); (3, 30)]%Z BTree.INVALID_PAGE_ID in
  BTree.Leaf.Lookup 2 p = Some 20%Z ∧ BTree.Leaf.Lookup 1 p = Some 20%Z.
Proof.
  intros p.
  assert (BTree.keys_increasing (BTree.array p) 0 (BTree.GetSize p - 1)) as Hinc.
  { intros i j Hi Hij Hj. change (BTree.GetSize p - 1)%Z with 2%Z in Hj.
    assert (i = 0 ∨ i = 1)%Z as [-> | ->] by lia;
      assert (j = 1 ∨ j = 2)%Z as [-> | ->] by lia; try lia; by vm_compute. }
  destruct (Leaf_Lookup_never_sees_slot_0 p ltac:(by vm_compute) Hinc) as (H1 & H0 & _).
  split; [exact (H1 1%Z ltac:(by vm_compute))|exact H0].
Defined.

(** X11.  [Leaf.Insert] of a key above every key of the page (or into an
    empty page) appends the pair, and of a key below every key puts the pair
    in front and moves the entries up by one: in both cases the page grows by
    one and keeps the entries it had, in their order. *)
Theorem Leaf_Insert_at_either_end_keeps_the_entries :
  ∀ (p : BTree.BPlusTreePage) (key value : Z),
    (0 ≤ BTree.GetSize p)%Z →
    ((BTree.GetSize p = 0 ∨ (BTree.array p (BTree.GetSize p - 1)).1 < key)%Z →
     ∃ p', BTree.Leaf.Insert key value p = Some ((BTree.GetSize p + 1)%Z, p')
           ∧ BTree.GetSize p' = (BTree.GetSize p + 1)%Z
           ∧ BTree.prefix (BTree.array p') (BTree.GetSize p')
             = BTree.prefix (BTree.array p) (BTree.GetSize p) ++ [(key, value)])
    ∧ ((0 < BTree.GetSize p)%Z →
       (key ≤ (BTree.array p (BTree.GetSize p - 1)).1)%Z →
       (key < (BTree.array p 0).1)%Z →
       ∃ p', BTree.Leaf.Insert key value p = Some ((BTree.GetSize p + 1)%Z, p')
             ∧ BTree.GetSize p' = (BTree.GetSize p + 1)%Z
             ∧ BTree.prefix (BTree.array p') (BTree.GetSize p')
               = (key, value) :: BTree.prefix (BTree.array p) (BTree.GetSize p)).
Proof.
  intros p key value Hsize. split.
  - intros Hlast. unfold BTree.Leaf.Insert.
    assert ((BTree.GetSize p =? 0)%Z
            || (BTree.comparator key (BTree.array p (BTree.GetSize p - 1)).1 >? 0)%Z = true)
      as ->.
    { apply orb_true_iff. destruct Hlast as [->|Hlt]; [by left|right].
      by apply comparator_gt. }
    simpl. eexists. split; [done|]. split; [done|]. simpl.
    rewrite prefix_snoc by done. f_equal.
    + apply prefix_ext. intros i Hi. unfold BTree.store.
      destruct (i =? BTree.GetSize p)%Z eqn:Heq; [lia|done].
    + unfold BTree.store. by rewrite Z.eqb_refl.
  - intros Hpos Hlast Hfirst. unfold BTree.Leaf.Insert.
    assert ((BTree.GetSize p =? 0)%Z
            || (BTree.comparator key (BTree.array p (BTree.GetSize p - 1)).1 >? 0)%Z = false)
      as ->.
    { apply orb_false_iff. split; [lia|].
      destruct (BTree.comparator _ _ >? 0)%Z eqn:Hc; [|done].
      apply comparator_gt in Hc. lia. }
    assert ((BTree.comparator key (BTree.array p 0).1 <? 0)%Z = true) as ->
      by (by apply comparator_lt).
    rewrite memmove_Some by done. simpl.
    eexists. split; [done|]. split; [done|]. simpl.
    rewrite prefix_cons by done. f_equal.
    apply prefix_ext. intros i Hi. unfold BTree.store.
    destruct (i + 1 =? 0)%Z eqn:Heq; [lia|].
    destruct ((1 <=? i + 1)%Z && (i + 1 <? 1 + BTree.GetSize p)%Z) eqn:Hin.
    + f_equal. lia.
    + apply andb_false_iff in Hin as [Hin|Hin]; lia.
Qed.

(** X11 on the leaf (3,30), (5,50): key 7 is appended, key 1 goes in
    front. *)
Lemma Leaf_Insert_at_either_end_keeps_the_entries_witness :
  let p := BTree.Tree.leaf_of [(3, 30); (5, 50)]%Z BTree.INVALID_PAGE_ID in
  (∃ p', BTree.Leaf.Insert 7 70 p = Some (3%Z, p')
         ∧ BTree.prefix (BTree.array p') (BTree.GetSize p') = [(3, 30); (5, 50); (7, 70)]%Z)
  ∧ (∃ p', BTree.Leaf.Insert 1 10 p = Some (3%Z, p')
           ∧ BTree.prefix (BTree.array p') (BTree.GetSize p') = [(1, 10); (3, 30); (5, 50)]%Z).
Proof.
  intros p.
  destruct (Leaf_Insert_at_either_end_keeps_the_entries p 7 70 ltac:(by vm_compute))
    as [Hend _].
  destruct (Leaf_Insert_at_either_end_keeps_the_entries p 1 10 ltac:(by vm_compute))
    as [_ Hfront].
  split.
  - destruct (Hend ltac:(right; by vm_compute)) as (p' & Hins & _ & Hentries).
    exists p'. split; [exact Hins|exact Hentries].
  - destruct (Hfront ltac:(by vm_compute) ltac:(by vm_compute) ltac:(by vm_compute))
      as (p' & Hins & _ & Hentries).
    exists p'. split; [exact Hins|exact Hentries].
Defined.



(** X13.  [Leaf.MoveHalfTo] into an empty recipient always goes through: it
    hands over the upper half of the entries, one more than it keeps when
    their number is odd.  The entries kept, followed by the entries handed
    over, are the entries the page had.  Into a recipient that is not empty
    the [assert] of [CopyHalfFrom] fails. *)
Theorem Leaf_MoveHalfTo_hands_over_the_upper_half :
  ∀ (p recipient : BTree.BPlusTreePage),
    (0 ≤ BTree.GetSize p)%Z →
    (BTree.GetSize recipient = 0%Z →
     ∃ p' r', BTree.Leaf.MoveHalfTo p recipient = Some (p', r')
              ∧ BTree.GetSize p' = (BTree.GetSize p / 2)%Z
              ∧ BTree.GetSize r' = ((BTree.GetSize p + 1) / 2)%Z
              ∧ BTree.prefix (BTree.array p') (BTree.GetSize p')
                ++ BTree.prefix (BTree.array r') (BTree.GetSize r')
                = BTree.prefix (BTree.array p) (BTree.GetSize p)
              ∧ BTree.GetNextPageId r' = BTree.GetNextPageId recipient
              ∧ BTree.GetParentPageId r' = BTree.GetParentPageId recipient)
    ∧ (BTree.GetSize recipient ≠ 0%Z → BTree.Leaf.MoveHalfTo p recipient = None).
Proof.
  intros p recipient Hsize. unfold BTree.Leaf.MoveHalfTo, BTree.Leaf.CopyHalfFrom.
  rewrite Z.shiftr_div_pow2 by lia. change (2 ^ 1)%Z with 2%Z.
  pose proof (half_bounds (1 + BTree.GetSize p)) as Hhalf.
  set (half := ((1 + BTree.GetSize p) / 2)%Z) in *.
  split.
  - intros Hempty. rewrite Hempty. simpl.
    unfold BTree.memcpy. destruct (half <? 0)%Z eqn:Hneg; [lia|]. simpl.
    eexists _, _. split; [reflexivity|]. simpl.
    unfold BTree.GetSize in *. simpl.
    assert (BTree.size_ p + -1 * half = BTree.size_ p / 2)%Z as Hkeep.
    { pose proof (half_bounds (BTree.size_ p)). lia. }
    split; [exact Hkeep|].
    rewrite !Hempty, !Z.add_0_l.
    split; [unfold half; f_equal; lia|].
    split; [|done].
    rewrite (prefix_app (BTree.array p) (BTree.size_ p - half) (BTree.size_ p)) by lia.
    replace (BTree.size_ p + -1 * half)%Z with (BTree.size_ p - half)%Z by lia.
    f_equal.
    replace (BTree.size_ p - (BTree.size_ p - half))%Z with half by lia.
    apply prefix_ext. intros i Hi.
    destruct ((0 <=? i)%Z && (i <? half)%Z) eqn:Hin.
    + f_equal. lia.
    + apply andb_false_iff in Hin as [Hin|Hin]; lia.
  - intros Hne. destruct (BTree.GetSize recipient =? 0)%Z eqn:Heq; [lia|done].
Qed.

(** X13 on the leaf (1,10), (2,20), (3,30) and an empty recipient: the page
    keeps (1,10) and hands over (2,20), (3,30). *)
Lemma Leaf_MoveHalfTo_hands_over_the_upper_half_witness :
  let p := BTree.Tree.leaf_of [(1, 10); (2, 20); (3, 30)]%Z BTree.INVALID_PAGE_ID in
  let recipient := BTree.Tree.leaf_of [] BTree.INVALID_PAGE_ID in
  ∃ p' r', BTree.Leaf.MoveHalfTo p recipient = Some (p', r')
           ∧ BTree.prefix (BTree.array p') (BTree.GetSize p') = [(1, 10)]%Z
           ∧ BTree.prefix (BTree.array r') (BTree.GetSize r') = [(2, 20); (3, 30)]%Z.
Proof.
  intros p recipient.
  destruct (Leaf_MoveHalfTo_hands_over_the_upper_half p recipient ltac:(by vm_compute))
    as [Hmove _].
  destruct (Hmove eq_refl) as (p' & r' & Hp' & _).
  exists p', r'. split; [exact Hp'|].
  vm_compute in Hp'. injection Hp' as <- <-. split; reflexivity.
Defined.

(** X14.  [Internal.Remove] at a slot of the page closes the gap: the
    entries behind the slot move down by one, the page shrinks by one and
    every other entry stays.  At an index from the size on, the byte count
    of its [memmove] is negative. *)
Theorem Internal_Remove_closes_the_gap :
  ∀ (p : BTree.BPlusTreePage) (index : Z),
    (0 ≤ index)%Z →
    ((index < BTree.GetSize p)%Z →
     ∃ p', BTree.Internal.Remove index p = Some p'
           ∧ BTree.GetSize p' = (BTree.GetSize p - 1)%Z
           ∧ BTree.prefix (BTree.array p') (BTree.GetSize p')
             = delete (Z.to_nat index) (BTree.prefix (BTree.array p) (BTree.GetSize p)))
    ∧ ((BTree.GetSize p ≤ index)%Z → BTree.Internal.Remove index p = None).
Proof.
  intros p index Hindex. unfold BTree.Internal.Remove. split.
  - intros Hlt. rewrite memmove_Some by lia. simpl.
    eexists. split; [reflexivity|]. unfold BTree.GetSize in *. simpl.
    split; [lia|].
    apply list_eq. intros i.
    destruct (decide (i < Z.to_nat index)%nat) as [Hi|Hi].
    + rewrite list_lookup_delete_lt by done. rewrite !prefix_lookup by lia.
      destruct ((index <=? Z.of_nat i)%Z && _) eqn:Hin; [|done].
      apply andb_true_iff in Hin as [Hin _]. lia.
    + rewrite list_lookup_delete_ge by lia.
      destruct (decide (Z.of_nat i < BTree.size_ p + -1)%Z) as [Hin|Hout].
      * rewrite !prefix_lookup by lia.
        destruct ((index <=? Z.of_nat i)%Z
                  && (Z.of_nat i <? index + (BTree.size_ p - index - 1))%Z) eqn:Hc.
        -- do 2 f_equal. lia.
        -- apply andb_false_iff in Hc as [Hc|Hc]; lia.
      * by rewrite !prefix_lookup_ge by lia.
  - intros Hge. by rewrite memmove_None by lia.
Qed.

(** X14 on the page with children 7, 8, 9: removing slot 1 leaves the
    children 7 and 9. *)
Lemma Internal_Remove_closes_the_gap_witness :
  let p := BTree.Tree.internal_of [(0, 7); (10, 8); (20, 9)]%Z in
  ∃ p', BTree.Internal.Remove 1 p = Some p'
        ∧ BTree.prefix (BTree.array p') (BTree.GetSize p') = [(0, 7); (20, 9)]%Z.
Proof.
  intros p.
  destruct (Internal_Remove_closes_the_gap p 1 ltac:(lia)) as [Hrm _].
  destruct (Hrm ltac:(by vm_compute)) as (p' & Hp' & _ & Hentries).
  exists p'. split; [exact Hp'|]. exact Hentries.
Defined.

Section value_index_more.
Import BTree.
Local Open Scope Z_scope.
Implicit Types (arr : Z → Z * Z) (p : BPlusTreePage).

(** Whatever the order of the child ids: when the loop of [ValueIndex]
    stops with [start <= end], [middle] is a slot of the interval that holds
    the value searched for. *)
Lemma ValueIndex_loop_sound arr value (fuel : nat) :
  ∀ start end_ middle,
    end_ - start + 1 < 2 ^ Z.of_nat fuel →
    ∀ s e m, Internal.ValueIndex_loop fuel arr value start end_ middle = (s, e, m) →
             s ≤ e → start ≤ m ≤ end_ ∧ (arr m).2 = value.
Proof.
  induction fuel as [|fuel IH]; intros start end_ middle Hfuel s e m Hloop Hse.
  - simpl in *. simplify_eq. lia.
  - rewrite pow2_succ in Hfuel. cbn [Internal.ValueIndex_loop] in Hloop.
    destruct (start <=? end_) eqn:Hle; [|simplify_eq; lia].
    apply Z.leb_le in Hle.
    rewrite Z.shiftr_div_pow2 in Hloop by lia. change (2 ^ 1) with 2 in Hloop.
    pose proof (half_bounds (end_ - start)) as Hhalf.
    set (mid := start + (end_ - start) / 2) in *.
    assert (start ≤ mid ≤ end_) as Hmid by (unfold mid; lia).
    destruct ((arr mid).2 >? value) eqn:Hc1.
    + apply IH in Hloop; [|unfold mid; lia|done]. lia.
    + destruct ((arr mid).2 <? value) eqn:Hc2.
      * apply IH in Hloop; [|unfold mid; lia|done]. lia.
      * simplify_eq. split; [done|]. rewrite Z.gtb_ltb in Hc1. lia.
Qed.

End value_index_more.

(** X15.  [ValueIndex] never names a wrong slot, whatever the order of the
    child ids: its answer is -1 or a slot of the page that holds the child
    asked for.  So for a child that is in no slot it answers -1. *)
Theorem ValueIndex_never_names_a_wrong_slot :
  ∀ (p : BTree.BPlusTreePage) (value : Z),
    (BTree.GetSize p < 2 ^ 31)%Z →
    let i := BTree.Internal.ValueIndex value p in
    (i = -1 ∨ (0 ≤ i < BTree.GetSize p ∧ (BTree.array p i).2 = value))%Z
    ∧ ((∀ j, 0 ≤ j < BTree.GetSize p → (BTree.array p j).2 ≠ value)%Z → i = (-1)%Z).
Proof.
  intros p value Hsize. cbv zeta. unfold BTree.Internal.ValueIndex.
  destruct (BTree.Internal.ValueIndex_loop 32 (BTree.array p) value 0
              (BTree.GetSize p - 1) 0) as [[s e] m] eqn:Hloop.
  destruct (s <=? e)%Z eqn:Hse.
  - apply ValueIndex_loop_sound in Hloop as [Hm Hv]; [| |lia].
    + split; [right; split; [lia|done]|]. intros Habsent. exfalso.
      apply (Habsent m); [lia|done].
    + change (2 ^ Z.of_nat 32)%Z with (2 ^ 32)%Z.
      assert (2 ^ 31 < 2 ^ 32)%Z by done. lia.
  - split; [by left|done].
Qed.

(** X15 on the page with children 9, 7, 8: child 5 is in no slot, the
    answer is -1. *)
Lemma ValueIndex_never_names_a_wrong_slot_witness :
  BTree.Internal.ValueIndex 5 (BTree.Tree.internal_of [(0, 9); (10, 7); (20, 8)]%Z) = (-1)%Z.
Proof.
  apply (ValueIndex_never_names_a_wrong_slot
           (BTree.Tree.internal_of [(0, 9); (10, 7); (20, 8)]%Z) 5 ltac:(by vm_compute)).
  intros j Hj. change (BTree.GetSize _) with 3%Z in Hj.
  assert (j = 0 ∨ j = 1 ∨ j = 2)%Z as [-> | [-> | ->]] by lia; by vm_compute.
Defined.

(** X16.  [PopulateNewRoot] on an empty page yields a root of two children
    with one separator key.  [Lookup] on it answers the old child for every
    key up to and including the separator, and the new child for every key
    above it. *)
Theorem Lookup_in_a_new_root_sends_the_separator_left :
  ∀ (p : BTree.BPlusTreePage) (old_value new_key new_value key : Z),
    BTree.GetSize p = 0%Z →
    let root := BTree.Internal.PopulateNewRoot old_value new_key new_value p in
    BTree.GetSize root = 2%Z
    ∧ BTree.Internal.ValueAt 0 root = Some old_value
    ∧ BTree.Internal.KeyAt 1 root = Some new_key
    ∧ BTree.Internal.ValueAt 1 root = Some new_value
    ∧ BTree.Internal.Lookup key root
      = Some (if (key <=? new_key)%Z then old_value else new_value).
Proof.
  intros p old_value new_key new_value key Hsize root.
  assert (BTree.GetSize root = 2%Z) as Hroot.
  { unfold root, BTree.Internal.PopulateNewRoot, BTree.GetSize in *. simpl. lia. }
  assert (BTree.array root 0 = ((BTree.array p 0).1, old_value)) as H0 by done.
  assert (BTree.array root 1 = (new_key, new_value)) as H1 by done.
  split; [done|].
  unfold BTree.Internal.ValueAt, BTree.Internal.KeyAt, BTree.Internal.Lookup.
  rewrite Hroot, H0, H1. simpl. repeat (split; [done|]).
  destruct (BTree.comparator key new_key <? 0)%Z eqn:Hc1.
  { apply comparator_lt in Hc1. destruct (key <=? new_key)%Z eqn:Hle; [done|lia]. }
  destruct (BTree.comparator key new_key >? 0)%Z eqn:Hc2.
  { apply comparator_gt in Hc2. destruct (key <=? new_key)%Z eqn:Hle; [lia|done]. }
  pose proof (comparator_eq _ _ Hc1 Hc2) as ->.
  by rewrite Z.leb_refl.
Qed.

(** X16 on an empty page: the root made of the children 4 and 5 with the
    separator 10 sends the key 10 to child 4 and the key 11 to child 5. *)
Lemma Lookup_in_a_new_root_sends_the_separator_left_witness :
  let root := BTree.Internal.PopulateNewRoot 4 10 5 (BTree.Tree.internal_of []) in
  BTree.Internal.Lookup 10 root = Some 4%Z ∧ BTree.Internal.Lookup 11 root = Some 5%Z.
Proof.
  intros root. split.
  - exact (proj2 (proj2 (proj2 (proj2
      (Lookup_in_a_new_root_sends_the_separator_left
         (BTree.Tree.internal_of []) 4 10 5 10 eq_refl))))).
  - exact (proj2 (proj2 (proj2 (proj2
      (Lookup_in_a_new_root_sends_the_separator_left
         (BTree.Tree.internal_of []) 4 10 5 11 eq_refl))))).
Defined.

(** X17.  [SetKeyAt] at a slot of the page changes the key of that slot and
    nothing else: [KeyAt] then answers the new key, every child id and every
    other key is as before.  At an index outside [0 .. size-1] the [assert]
    of [KeyAt] and [SetKeyAt] fails, while [ValueAt] also accepts the index
    [size], one past the last slot. *)
Theorem KeyAt_after_SetKeyAt :
  ∀ (p : BTree.BPlusTreePage) (index key : Z),
    ((0 ≤ index < BTree.GetSize p)%Z →
     ∃ p', BTree.Internal.SetKeyAt index key p = Some p'
           ∧ BTree.GetSize p' = BTree.GetSize p
           ∧ BTree.Internal.KeyAt index p' = Some key
           ∧ (∀ j, j ≠ index → BTree.Internal.KeyAt j p' = BTree.Internal.KeyAt j p)
           ∧ (∀ j, BTree.Internal.ValueAt j p' = BTree.Internal.ValueAt j p))
    ∧ ((index < 0 ∨ BTree.GetSize p ≤ index)%Z →
       BTree.Internal.SetKeyAt index key p = None ∧ BTree.Internal.KeyAt index p = None)
    ∧ ((0 ≤ BTree.GetSize p)%Z →
       BTree.Internal.ValueAt (BTree.GetSize p) p
       = Some (BTree.array p (BTree.GetSize p)).2).
Proof.
  intros p index key. split; [|split].
  - intros Hindex. unfold BTree.Internal.SetKeyAt.
    assert ((0 <=? index)%Z && (index <? BTree.GetSize p)%Z = true) as Hin.
    { apply andb_true_iff. lia. }
    rewrite Hin. simpl. eexists. split; [reflexivity|]. split; [done|].
    unfold BTree.Internal.KeyAt, BTree.Internal.ValueAt, BTree.GetSize in *. simpl.
    rewrite Hin. simpl. unfold BTree.store. split; [by rewrite Z.eqb_refl|]. split.
    + intros j Hj. destruct (j =? index)%Z eqn:Heq; [lia|done].
    + intros j. destruct (j =? index)%Z eqn:Heq; [|done].
      apply Z.eqb_eq in Heq. by subst j.
  - intros Hout. unfold BTree.Internal.SetKeyAt, BTree.Internal.KeyAt.
    assert ((0 <=? index)%Z && (index <? BTree.GetSize p)%Z = false) as ->; [|done].
    apply andb_false_iff. lia.
  - intros Hsize. unfold BTree.Internal.ValueAt.
    assert ((0 <=? BTree.GetSize p)%Z && (BTree.GetSize p <=? BTree.GetSize p)%Z = true)
      as ->; [|done].
    apply andb_true_iff. lia.
Qed.

Section monad_facts.
Import BTree.
Local Open Scope Z_scope.
Implicit Types (t : BPlusTree) (p : BPlusTreePage).

Lemma bind_inv {A B} (m : M A) (f : A → M B) t b t' :
  (m ≫= f) t = Ret b t' → ∃ a t1, m t = Ret a t1 ∧ f a t1 = Ret b t'.
Proof.
  unfold mbind, M_bind. destruct (m t) as [a t1| | |]; try done. eauto.
Qed.

Lemma bind_Ret {A B} (m : M A) (f : A → M B) t a t1 :
  m t = Ret a t1 → (m ≫= f) t = f a t1.
Proof. unfold mbind, M_bind. by intros ->. Qed.

Lemma ret_inv {A} (a b : A) t t' : (mret a : M A) t = Ret b t' → b = a ∧ t' = t.
Proof. unfold mret, M_ret. by intros [= -> ->]. Qed.

Lemma lift_inv {A} (o : option A) t a t' : lift o t = Ret a t' → o = Some a ∧ t' = t.
Proof. destruct o; [|done]. by intros [-> ->]%ret_inv. Qed.

Lemma get_root_inv t r t' : get_root t = Ret r t' → r = root_page_id_ t ∧ t' = t.
Proof. by intros [= <- <-]. Qed.

Lemma set_root_inv id t u t' :
  set_root id t = Ret u t' → t' = mkTree (index_name_ t) id (buffer_pool_manager_ t).
Proof. by intros [= <-]. Qed.

Lemma get_page_inv ptr t p t' :
  get_page ptr t = Ret p t' → t' = t ∧ pages_ (buffer_pool_manager_ t) !! ptr = Some p.
Proof.
  unfold get_page. intros (bpm & t1 & [= <- <-] & Hl)%bind_inv.
  by apply lift_inv in Hl as [-> ->].
Qed.

Lemma get_page_Ret ptr t p :
  pages_ (buffer_pool_manager_ t) !! ptr = Some p → get_page ptr t = Ret p t.
Proof. intros Hp. unfold get_page, mbind, M_bind, get_pool, lift. by rewrite Hp. Qed.

Lemma put_page_inv ptr p t u t' :
  put_page ptr p t = Ret u t' →
  is_Some (pages_ (buffer_pool_manager_ t) !! ptr)
  ∧ t' = mkTree (index_name_ t) (root_page_id_ t)
           (mkPool (pool_size_ (buffer_pool_manager_ t))
                   (<[ptr := p]> (pages_ (buffer_pool_manager_ t)))
                   (pin_count_ (buffer_pool_manager_ t))
                   (allocated_ (buffer_pool_manager_ t))
                   (fresh_ (buffer_pool_manager_ t))
                   (header_ (buffer_pool_manager_ t))
                   (log_ (buffer_pool_manager_ t))).
Proof.
  unfold put_page. intros (bpm & t1 & [= <- <-] & H)%bind_inv.
  apply bind_inv in H as (q & t2 & [Hq ->]%lift_inv & [= <-]).
  split; [by eexists|done].
Qed.

Lemma put_page_Ret ptr p t q :
  pages_ (buffer_pool_manager_ t) !! ptr = Some q →
  put_page ptr p t
  = Ret () (mkTree (index_name_ t) (root_page_id_ t)
           (mkPool (pool_size_ (buffer_pool_manager_ t))
                   (<[ptr := p]> (pages_ (buffer_pool_manager_ t)))
                   (pin_count_ (buffer_pool_manager_ t))
                   (allocated_ (buffer_pool_manager_ t))
                   (fresh_ (buffer_pool_manager_ t))
                   (header_ (buffer_pool_manager_ t))
                   (log_ (buffer_pool_manager_ t)))).
Proof. intros Hq. unfold put_page, mbind, M_bind, get_pool, lift. by rewrite Hq. Qed.

Lemma update_inv ptr (f : BPlusTreePage → BPlusTreePage) t u t' :
  update ptr f t = Ret u t' →
  ∃ p, pages_ (buffer_pool_manager_ t) !! ptr = Some p
       ∧ t' = mkTree (index_name_ t) (root_page_id_ t)
                (mkPool (pool_size_ (buffer_pool_manager_ t))
                        (<[ptr := f p]> (pages_ (buffer_pool_manager_ t)))
                        (pin_count_ (buffer_pool_manager_ t))
                        (allocated_ (buffer_pool_manager_ t))
                        (fresh_ (buffer_pool_manager_ t))
                        (header_ (buffer_pool_manager_ t))
                        (log_ (buffer_pool_manager_ t))).
Proof.
  unfold update. intros (p & t1 & [-> Hp]%get_page_inv & [_ ->]%put_page_inv)%bind_inv.
  eauto.
Qed.

Lemma update_Ret ptr (f : BPlusTreePage → BPlusTreePage) t p :
  pages_ (buffer_pool_manager_ t) !! ptr = Some p →
  update ptr f t
  = Ret () (mkTree (index_name_ t) (root_page_id_ t)
              (mkPool (pool_size_ (buffer_pool_manager_ t))
                      (<[ptr := f p]> (pages_ (buffer_pool_manager_ t)))
                      (pin_count_ (buffer_pool_manager_ t))
                      (allocated_ (buffer_pool_manager_ t))
                      (fresh_ (buffer_pool_manager_ t))
                      (header_ (buffer_pool_manager_ t))
                      (log_ (buffer_pool_manager_ t)))).
Proof.
  intros Hp. unfold update. rewrite (bind_Ret _ _ _ _ _ (get_page_Ret _ _ _ Hp)).
  by eapply put_page_Ret.
Qed.

(** The state after a pool call that changes pin counts and the log only. *)
Lemma FetchPage_inv page_id t r t' :
  FetchPage page_id t = Ret r t' →
  let bpm := buffer_pool_manager_ t in
  (r = Some page_id
   ∧ ((page_id = HEADER_PAGE_ID ∨ is_Some (pages_ bpm !! page_id))
      ∧ (0 < pins bpm page_id ∨ frame_available bpm = true))
   ∧ t' = mkTree (index_name_ t) (root_page_id_ t)
            (mkPool (pool_size_ bpm) (pages_ bpm)
                    (<[page_id := pins bpm page_id + 1]> (pin_count_ bpm))
                    (allocated_ bpm) (fresh_ bpm) (header_ bpm)
                    (log_ bpm ++ [EvFetchPage page_id true])))
  ∨ (r = None
     ∧ t' = mkTree (index_name_ t) (root_page_id_ t)
              (mkPool (pool_size_ bpm) (pages_ bpm) (pin_count_ bpm)
                      (allocated_ bpm) (fresh_ bpm) (header_ bpm)
                      (log_ bpm ++ [EvFetchPage page_id false]))).
Proof.
  intros H bpm.
  unfold FetchPage, mbind, M_bind, get_pool, set_pool, mret, M_ret, record in H.
  fold bpm in H.
  destruct (on_disk bpm page_id && _) eqn:Hc; injection H as <- <-; [left|by right].
  split; [done|]. split; [|done].
  apply andb_true_iff in Hc as [Hc Hc']. unfold on_disk in Hc. split.
  - apply orb_true_iff in Hc as [Hc|Hc]; apply bool_decide_eq_true in Hc; auto.
  - apply orb_true_iff in Hc' as [Hc'|Hc']; [left; lia|by right].
Qed.

Lemma FetchPage_Ret page_id t :
  let bpm := buffer_pool_manager_ t in
  (page_id = HEADER_PAGE_ID ∨ is_Some (pages_ bpm !! page_id)) →
  (0 < pins bpm page_id ∨ frame_available bpm = true) →
  FetchPage page_id t
  = Ret (Some page_id)
      (mkTree (index_name_ t) (root_page_id_ t)
         (mkPool (pool_size_ bpm) (pages_ bpm)
                 (<[page_id := pins bpm page_id + 1]> (pin_count_ bpm))
                 (allocated_ bpm) (fresh_ bpm) (header_ bpm)
                 (log_ bpm ++ [EvFetchPage page_id true]))).
Proof.
  intros bpm Hdisk Hframe.
  unfold FetchPage, mbind, M_bind, get_pool, set_pool, mret, M_ret, record. fold bpm.
  assert (on_disk bpm page_id && ((0 <? pins bpm page_id) || frame_available bpm) = true)
    as ->; [|done].
  apply andb_true_iff. split.
  - unfold on_disk. apply orb_true_iff.
    destruct Hdisk as [?|?]; [left|right]; by apply bool_decide_eq_true.
  - apply orb_true_iff. destruct Hframe as [?|?]; [left; lia|by right].
Qed.

Lemma UnpinPage_inv page_id is_dirty t b t' :
  UnpinPage page_id is_dirty t = Ret b t' →
  let bpm := buffer_pool_manager_ t in
  (b = true ∧ 0 < pins bpm page_id
   ∧ t' = mkTree (index_name_ t) (root_page_id_ t)
            (mkPool (pool_size_ bpm) (pages_ bpm)
                    (<[page_id := pins bpm page_id - 1]> (pin_count_ bpm))
                    (allocated_ bpm) (fresh_ bpm) (header_ bpm)
                    (log_ bpm ++ [EvUnpinPage page_id is_dirty true])))
  ∨ (b = false
     ∧ (pins bpm page_id ≤ 0 ∨ on_disk bpm page_id = false)
     ∧ t' = mkTree (index_name_ t) (root_page_id_ t)
              (mkPool (pool_size_ bpm) (pages_ bpm) (pin_count_ bpm)
                      (allocated_ bpm) (fresh_ bpm) (header_ bpm)
                      (log_ bpm ++ [EvUnpinPage page_id is_dirty false]))).
Proof.
  intros H bpm.
  unfold UnpinPage, mbind, M_bind, get_pool, set_pool, mret, M_ret, record in H.
  fold bpm in H.
  destruct (on_disk bpm page_id && _) eqn:Hc; injection H as <- <-; [left|right].
  - apply andb_true_iff in Hc as [_ Hc]. split; [done|]. split; [lia|done].
  - split; [done|]. split; [|done]. apply andb_false_iff in Hc as [Hc|Hc]; [by right|left; lia].
Qed.

Lemma UnpinPage_Ret page_id is_dirty t :
  let bpm := buffer_pool_manager_ t in
  (page_id = HEADER_PAGE_ID ∨ is_Some (pages_ bpm !! page_id)) →
  0 < pins bpm page_id →
  UnpinPage page_id is_dirty t
  = Ret true
      (mkTree (index_name_ t) (root_page_id_ t)
         (mkPool (pool_size_ bpm) (pages_ bpm)
                 (<[page_id := pins bpm page_id - 1]> (pin_count_ bpm))
                 (allocated_ bpm) (fresh_ bpm) (header_ bpm)
                 (log_ bpm ++ [EvUnpinPage page_id is_dirty true]))).
Proof.
  intros bpm Hdisk Hpins.
  unfold UnpinPage, mbind, M_bind, get_pool, set_pool, mret, M_ret, record. fold bpm.
  assert (on_disk bpm page_id && (0 <? pins bpm page_id) = true) as ->; [|done].
  apply andb_true_iff. split; [|lia].
  unfold on_disk. apply orb_true_iff.
  destruct Hdisk as [?|?]; [left|right]; by apply bool_decide_eq_true.
Qed.

(** Pin counts after a fetch and an unpin of the same page. *)
Lemma pins_insert (pin_count : gmap Z Z) id n id' :
  default 0 (<[id := n]> pin_count !! id') = if decide (id' = id) then n else default 0 (pin_count !! id').
Proof.
  destruct (decide (id' = id)) as [->|Hne].
  - by rewrite lookup_insert_eq.
  - by rewrite lookup_insert_ne.
Qed.

Lemma prefix_store_snoc arr n x :
  0 ≤ n → prefix (store arr n x) (n + 1) = prefix arr n ++ [x].
Proof.
  intros Hn. rewrite prefix_snoc by done. f_equal.
  - apply prefix_ext. intros i Hi. unfold store. destruct (i =? n) eqn:Heq; [lia|done].
  - unfold store. by rewrite Z.eqb_refl.
Qed.

Lemma prefix_tail arr n :
  1 ≤ n → prefix (λ i, arr (i + 1)) (n - 1) = tail (prefix arr n).
Proof.
  intros Hn. replace n with ((n - 1) + 1) at 2 by lia. by rewrite prefix_cons by lia.
Qed.

Lemma SetKeyAt_inv index key p p' :
  Internal.SetKeyAt index key p = Some p' →
  0 ≤ index < GetSize p
  ∧ p' = set_array (store (array p) index (key, (array p index).2)) p.
Proof.
  unfold Internal.SetKeyAt.
  destruct ((0 <=? index) && (index <? GetSize p)) eqn:Hin; [|done].
  apply andb_true_iff in Hin. intros [= <-]. split; [lia|done].
Qed.

Lemma memmove_inv arr dst src n arr' :
  memmove arr dst src n = Some arr' →
  0 ≤ n ∧ arr' = λ i, if (dst <=? i) && (i <? dst + n) then arr (i - dst + src) else arr i.
Proof.
  unfold memmove, memcpy. destruct (n <? 0) eqn:Hn; [done|]. intros [= <-].
  split; [lia|done].
Qed.

Lemma UnpinPage_inv_pinned page_id is_dirty t b t' :
  let bpm := buffer_pool_manager_ t in
  (page_id = HEADER_PAGE_ID ∨ is_Some (pages_ bpm !! page_id)) →
  0 < pins bpm page_id →
  UnpinPage page_id is_dirty t = Ret b t' →
  b = true
  ∧ t' = mkTree (index_name_ t) (root_page_id_ t)
           (mkPool (pool_size_ bpm) (pages_ bpm)
                   (<[page_id := pins bpm page_id - 1]> (pin_count_ bpm))
                   (allocated_ bpm) (fresh_ bpm) (header_ bpm)
                   (log_ bpm ++ [EvUnpinPage page_id is_dirty true])).
Proof.
  intros bpm Hdisk Hpins H. rewrite UnpinPage_Ret in H by done. by injection H as <- <-.
Qed.

Lemma FetchPage_inv_Some page_id t r frame t' t'' :
  FetchPage page_id t = Ret r t' → lift r t' = Ret frame t'' →
  let bpm := buffer_pool_manager_ t in
  frame = page_id
  ∧ ((page_id = HEADER_PAGE_ID ∨ is_Some (pages_ bpm !! page_id))
     ∧ (0 < pins bpm page_id ∨ frame_available bpm = true))
  ∧ t'' = mkTree (index_name_ t) (root_page_id_ t)
            (mkPool (pool_size_ bpm) (pages_ bpm)
                    (<[page_id := pins bpm page_id + 1]> (pin_count_ bpm))
                    (allocated_ bpm) (fresh_ bpm) (header_ bpm)
                    (log_ bpm ++ [EvFetchPage page_id true])).
Proof.
  intros Hf [-> ->]%lift_inv bpm. apply FetchPage_inv in Hf.
  destruct Hf as [([= ->] & Hdisk & ->)|[[=] _]]. done.
Qed.

End monad_facts.

Ltac minv H a t1 H1 := apply bind_inv in H as (a & t1 & H1 & H).
Ltac pcbn :=
  unfold BTree.pins in *;
  cbn [BTree.index_name_ BTree.root_page_id_ BTree.buffer_pool_manager_ BTree.pool_size_
       BTree.pages_ BTree.pin_count_ BTree.allocated_ BTree.fresh_ BTree.header_ BTree.log_] in *.

Ltac pins_solve :=
  rewrite ?pins_insert; repeat case_decide;
  repeat match goal with
         | Heq : @eq Z ?a ?b |- _ => first [subst a | subst b | rewrite Heq in *; clear Heq]
         end;
  try done; simpl; lia.

Tactic Notation "mfwd" tactic3(tac) := erewrite bind_Ret; [|tac].

Section pool_moves.
Import BTree.
Local Open Scope Z_scope.
Implicit Types (t : BPlusTree) (p : BPlusTreePage).

Lemma CopyLastFrom_spec this pair t t' p :
  pages_ (buffer_pool_manager_ t) !! this = Some p →
  0 ≤ GetSize p →
  (∀ id, 0 ≤ pins (buffer_pool_manager_ t) id) →
  Internal.CopyLastFrom this pair t = Ret () t' →
  Tree.entries_of t' this = Some (prefix (array p) (GetSize p) ++ [pair])
  ∧ Tree.parent_of t' pair.2 = Some (GetPageId p)
  ∧ (∀ id, pins (buffer_pool_manager_ t') id = pins (buffer_pool_manager_ t) id)
  ∧ (∀ id, id ≠ this → id ≠ pair.2 →
           pages_ (buffer_pool_manager_ t') !! id = pages_ (buffer_pool_manager_ t) !! id)
  ∧ root_page_id_ t' = root_page_id_ t.
Proof.
  intros Hp Hsize Hpins H. unfold Internal.CopyLastFrom in H.
  minv H p0 t0 H0. apply get_page_inv in H0 as [-> Hp0]. simplify_eq.
  minv H u1 t1 H1. apply put_page_inv in H1 as [_ ->].
  minv H p1 t2 H2. apply get_page_inv in H2 as [-> Hp1]. pcbn.
  rewrite lookup_insert_eq in Hp1. simplify_eq.
  minv H r t3 H3. minv H child t4 H4.
  destruct (FetchPage_inv_Some _ _ _ _ _ _ H3 H4) as (-> & _ & ->). clear H3 H4. pcbn.
  minv H u2 t5 H5. apply update_inv in H5 as (q & Hq & ->). pcbn.
  minv H b t6 H6. apply UnpinPage_inv in H6. pcbn.
  apply ret_inv in H as [_ ->].
  unfold pins in H6. pcbn. rewrite lookup_insert_eq in H6. simpl in H6.
  destruct H6 as [(-> & _ & ->)|(-> & Hfail & _)].
  2: { exfalso. destruct Hfail as [Hfail|Hfail].
       - specialize (Hpins pair.2). unfold pins in Hpins. lia.
       - unfold on_disk in Hfail. pcbn. apply orb_false_iff in Hfail as [_ Hfail].
         apply bool_decide_eq_false in Hfail. apply Hfail.
         destruct (decide (pair.2 = pair.2)); [|done].
         rewrite lookup_insert_eq. by eexists. }
  unfold Tree.entries_of, Tree.parent_of, pins. pcbn.
  split; [|split; [|split; [|split]]].
  - destruct (decide (pair.2 = this)) as [Heq|Hne].
    + rewrite Heq in *. rewrite lookup_insert_eq in Hq. simplify_eq.
      rewrite lookup_insert_eq. simpl. f_equal. unfold GetSize in *. simpl.
      by apply prefix_store_snoc.
    + rewrite lookup_insert_ne by done. rewrite lookup_insert_eq. simpl. f_equal.
      unfold GetSize in *. simpl. by apply prefix_store_snoc.
  - by rewrite lookup_insert_eq.
  - intros id. rewrite !pins_insert. destruct (decide (id = pair.2)) as [->|]; [lia|done].
  - intros id Hid1 Hid2. by rewrite !lookup_insert_ne.
  - done.
Qed.

End pool_moves.

Section leaf_moves.
Import BTree.
Local Open Scope Z_scope.
Implicit Types (t : BPlusTree) (p : BPlusTreePage).






(** What [LeafParent.MoveFirstToEndOf] leaves behind when it returns. *)
Lemma Leaf_MoveFirstToEndOf_spec this recipient t t' p q :
  let bpm := buffer_pool_manager_ t in
  pages_ bpm !! this = Some p → pages_ bpm !! recipient = Some q →
  this ≠ recipient → GetParentPageId p ≠ this → GetParentPageId p ≠ recipient →
  1 ≤ GetSize p → 0 ≤ GetSize q →
  (∀ id, 0 ≤ pins bpm id) →
  LeafParent.MoveFirstToEndOf this recipient t = Ret () t' →
  Tree.entries_of t' recipient = Some (prefix (array q) (GetSize q) ++ [array p 0])
  ∧ Tree.entries_of t' this = Some (tail (prefix (array p) (GetSize p)))
  ∧ (∃ parent, pages_ bpm !! GetParentPageId p = Some parent
       ∧ let i := Internal.ValueIndex (GetPageId p) parent in
         0 ≤ i < GetSize parent
         ∧ pages_ (buffer_pool_manager_ t') !! GetParentPageId p
           = Some (set_array
                     (store (array parent) i
                        ((array p (Z.min 1 (GetSize p - 1))).1, (array parent i).2))
                     parent))
  ∧ (∀ id, pins (buffer_pool_manager_ t') id = pins bpm id)
  ∧ (∀ id, id ≠ this → id ≠ recipient → id ≠ GetParentPageId p →
           pages_ (buffer_pool_manager_ t') !! id = pages_ bpm !! id).
Proof.
  intros bpm Hp Hq Hne Hpar1 Hpar2 Hsize Hsizeq Hpins H. subst bpm.
  unfold LeafParent.MoveFirstToEndOf in H.
  minv H p0 t0 H0. apply get_page_inv in H0 as [-> Hp0]. simplify_eq.
  minv H u1 t1 H1. apply update_inv in H1 as (q0 & Hq0 & ->). simplify_eq.
  minv H p1 t2 H2. apply get_page_inv in H2 as [-> Hp1]. pcbn.
  rewrite lookup_insert_ne in Hp1 by done. simplify_eq.
  minv H arr t3 H3. apply lift_inv in H3 as [Harr ->].
  apply memmove_inv in Harr as [_ ->].
  minv H u2 t4 H4. apply put_page_inv in H4 as [_ ->]. pcbn.
  minv H p2 t5 H5. apply get_page_inv in H5 as [-> Hp2]. pcbn.
  rewrite lookup_insert_eq in Hp2. simplify_eq.
  change (GetPageId (IncreaseSize (-1) (set_array _ p))) with (GetPageId p) in H.
  change (GetParentPageId (IncreaseSize (-1) (set_array _ p))) with (GetParentPageId p) in H.
  minv H r t6 H6. minv H frame t7 H7.
  destruct (FetchPage_inv_Some _ _ _ _ _ _ H6 H7) as (-> & _ & ->). clear H6 H7. pcbn.
  minv H parent t8 H8. apply get_page_inv in H8 as [-> Hparent]. pcbn.
  rewrite !lookup_insert_ne in Hparent by done.
  minv H p3 t9 H9. apply get_page_inv in H9 as [-> Hp3]. pcbn.
  rewrite lookup_insert_eq in Hp3. simplify_eq.
  minv H parent' t10 H10. apply lift_inv in H10 as [Hset ->].
  apply SetKeyAt_inv in Hset as [Hi ->].
  minv H u3 t11 H11. apply put_page_inv in H11 as [_ ->]. pcbn.
  minv H b t12 H12. apply UnpinPage_inv_pinned in H12 as [-> ->]; pcbn.
  2: { right. rewrite lookup_insert_eq. by eexists. }
  2: { rewrite lookup_insert_eq. specialize (Hpins (GetParentPageId p)). simpl. lia. }
  apply ret_inv in H as [_ ->].
  unfold Tree.entries_of. pcbn.
  split; [|split; [|split; [|split]]].
  - rewrite !lookup_insert_ne by done. rewrite lookup_insert_eq. simpl. f_equal.
    unfold Leaf.CopyLastFrom, GetSize in *. simpl. by apply prefix_store_snoc.
  - rewrite lookup_insert_ne by done. rewrite lookup_insert_eq. simpl. f_equal.
    unfold GetSize in *. simpl. rewrite <- prefix_tail by done.
    replace (size_ p + -1) with (size_ p - 1) by lia.
    apply prefix_ext. intros i Hi'.
    destruct ((0 <=? i) && (i <? 0 + (size_ p - 1))) eqn:Hin.
    + f_equal. lia.
    + apply andb_false_iff in Hin as [Hin|Hin]; lia.
  - exists parent. split; [done|]. split; [done|].
    rewrite lookup_insert_eq. do 4 f_equal.
    simpl. destruct (0 <? 0 + (GetSize p - 1)) eqn:Hin; do 2 f_equal; lia.
  - intros id. rewrite !pins_insert. repeat case_decide; subst; try done; lia.
  - intros id Hid1 Hid2 Hid3. by rewrite !lookup_insert_ne.
Qed.


Lemma prefix_shift_cons arr n x :
  0 ≤ n →
  prefix (store (λ i, if (1 <=? i) && (i <? 1 + n) then arr (i - 1 + 0) else arr i) 0 x)
         (n + 1)
  = x :: prefix arr n.
Proof.
  intros Hn. rewrite prefix_cons by done. f_equal.
  apply prefix_ext. intros i Hi. unfold store.
  destruct (i + 1 =? 0) eqn:Heq; [lia|].
  destruct ((1 <=? i + 1) && (i + 1 <? 1 + n)) eqn:Hin.
  - f_equal. lia.
  - apply andb_false_iff in Hin as [Hin|Hin]; lia.
Qed.

Lemma prefix_removelast arr n :
  1 ≤ n → prefix arr (n - 1) = removelast (prefix arr n).
Proof.
  intros Hn. replace n with ((n - 1) + 1) at 2 by lia.
  rewrite prefix_snoc by lia. by rewrite removelast_last.
Qed.

(** What [LeafParent.MoveLastToFrontOf] leaves behind when it returns. *)
Lemma Leaf_MoveLastToFrontOf_spec this recipient parentIndex t t' p q :
  let bpm := buffer_pool_manager_ t in
  pages_ bpm !! this = Some p → pages_ bpm !! recipient = Some q →
  this ≠ recipient → GetParentPageId q ≠ this → GetParentPageId q ≠ recipient →
  1 ≤ GetSize p → 0 ≤ GetSize q →
  (∀ id, 0 ≤ pins bpm id) →
  LeafParent.MoveLastToFrontOf this recipient parentIndex t = Ret () t' →
  Tree.entries_of t' recipient
    = Some (array p (GetSize p - 1) :: prefix (array q) (GetSize q))
  ∧ Tree.entries_of t' this = Some (removelast (prefix (array p) (GetSize p)))
  ∧ (∃ parent, pages_ bpm !! GetParentPageId q = Some parent
       ∧ 0 ≤ parentIndex < GetSize parent
       ∧ pages_ (buffer_pool_manager_ t') !! GetParentPageId q
         = Some (set_array
                   (store (array parent) parentIndex
                      ((array p (GetSize p - 1)).1, (array parent parentIndex).2))
                   parent))
  ∧ (∀ id, pins (buffer_pool_manager_ t') id = pins bpm id)
  ∧ (∀ id, id ≠ this → id ≠ recipient → id ≠ GetParentPageId q →
           pages_ (buffer_pool_manager_ t') !! id = pages_ bpm !! id).
Proof.
  intros bpm Hp Hq Hne Hpar1 Hpar2 Hsize Hsizeq Hpins H. subst bpm.
  unfold LeafParent.MoveLastToFrontOf, LeafParent.CopyFirstFrom in H.
  minv H p0 t0 H0. apply get_page_inv in H0 as [-> Hp0]. simplify_eq.
  minv H u0 ta Hc. rename H into Hrest. rename Hc into H.
  minv H q0 t1 H1. apply get_page_inv in H1 as [-> Hq0]. simplify_eq.
  minv H arr t2 H2. apply lift_inv in H2 as [Harr ->].
  apply memmove_inv in Harr as [_ ->].
  minv H u1 t3 H3. apply put_page_inv in H3 as [_ ->]. pcbn.
  minv H giver t4 H4. apply get_page_inv in H4 as [-> Hgiver]. pcbn.
  rewrite lookup_insert_ne in Hgiver by done. simplify_eq.
  minv H u2 t5 H5. apply update_inv in H5 as (q1 & Hq1 & ->). pcbn.
  rewrite lookup_insert_eq in Hq1. simplify_eq.
  minv H q2 t6 H6. apply get_page_inv in H6 as [-> Hq2]. pcbn.
  rewrite lookup_insert_eq in Hq2. simplify_eq.
  change (GetParentPageId (set_array _ (IncreaseSize 1 (set_array _ q))))
    with (GetParentPageId q) in H.
  minv H r t7 H7. minv H frame t8 H8.
  destruct (FetchPage_inv_Some _ _ _ _ _ _ H7 H8) as (-> & _ & ->). clear H7 H8. pcbn.
  minv H parent t9 H9. apply get_page_inv in H9 as [-> Hparent]. pcbn.
  rewrite !lookup_insert_ne in Hparent by done.
  minv H q3 t10 H10. apply get_page_inv in H10 as [-> Hq3]. pcbn.
  rewrite lookup_insert_eq in Hq3. simplify_eq.
  minv H parent' t11 H11. apply lift_inv in H11 as [Hset ->].
  apply SetKeyAt_inv in Hset as [Hi ->].
  minv H u3 t12 H12. apply put_page_inv in H12 as [_ ->]. pcbn.
  minv H b t13 H13. apply UnpinPage_inv_pinned in H13 as [-> ->]; pcbn.
  2: { right. rewrite lookup_insert_eq. by eexists. }
  2: { rewrite lookup_insert_eq. specialize (Hpins (GetParentPageId q)). simpl. lia. }
  apply ret_inv in H as [_ ->].
  apply update_inv in Hrest as (p1 & Hp1 & ->). pcbn.
  rewrite !lookup_insert_ne in Hp1 by done. simplify_eq.
  unfold Tree.entries_of. pcbn.
  split; [|split; [|split; [|split]]].
  - rewrite !lookup_insert_ne by done. rewrite lookup_insert_eq. simpl. f_equal.
    unfold GetSize in *. simpl. by apply prefix_shift_cons.
  - rewrite lookup_insert_eq. simpl. f_equal. unfold GetSize in *. simpl.
    replace (size_ p + -1) with (size_ p - 1) by lia. by apply prefix_removelast.
  - exists parent. split; [done|]. split; [done|].
    rewrite lookup_insert_ne by done. rewrite lookup_insert_eq. by do 4 f_equal.
  - intros id. rewrite !pins_insert. repeat case_decide; subst; try done; lia.
  - intros id Hid1 Hid2 Hid3. by rewrite !lookup_insert_ne.
Qed.

End leaf_moves.

Section internal_moves.
Import BTree.
Local Open Scope Z_scope.
Implicit Types (t : BPlusTree) (p : BPlusTreePage).

(** What [Internal.MoveLastToFrontOf] leaves behind when it returns. *)
Lemma Internal_MoveLastToFrontOf_spec this recipient parent_index t t' p q :
  let bpm := buffer_pool_manager_ t in
  let last := array p (GetSize p - 1) in
  pages_ bpm !! this = Some p → pages_ bpm !! recipient = Some q →
  this ≠ recipient → GetParentPageId q ≠ this → GetParentPageId q ≠ recipient →
  0 ≤ GetSize q →
  (∀ id, 0 ≤ pins bpm id) →
  Internal.MoveLastToFrontOf this recipient parent_index t = Ret () t' →
  Tree.entries_of t' recipient = Some (last :: prefix (array q) (GetSize q))
  ∧ Tree.entries_of t' this = Some (prefix (array p) (GetSize p))
  ∧ Tree.parent_of t' last.2 = Some (GetPageId q)
  ∧ (∃ parent, pages_ bpm !! GetParentPageId q = Some parent
       ∧ 0 ≤ parent_index < GetSize parent
       ∧ Tree.entries_of t' (GetParentPageId q)
         = Some (prefix (store (array parent) parent_index
                           (last.1, (array parent parent_index).2))
                        (GetSize parent)))
  ∧ (∀ id, pins (buffer_pool_manager_ t') id = pins bpm id).
Proof.
  intros bpm last Hp Hq Hne Hpar1 Hpar2 Hsizeq Hpins H. subst bpm.
  unfold Internal.MoveLastToFrontOf, Internal.CopyFirstFrom in H.
  minv H p0 t0 H0. apply get_page_inv in H0 as [-> Hp0]. simplify_eq. fold last in H.
  minv H q0 t1 H1. apply get_page_inv in H1 as [-> Hq0]. simplify_eq.
  minv H r t2 H2. minv H frame t3 H3.
  destruct (FetchPage_inv_Some _ _ _ _ _ _ H2 H3) as (-> & _ & ->). clear H2 H3. pcbn.
  minv H q1 t4 H4. apply get_page_inv in H4 as [-> Hq1]. pcbn. simplify_eq.
  minv H arr t5 H5. apply lift_inv in H5 as [Harr ->].
  apply memmove_inv in Harr as [_ ->].
  minv H u1 t6 H6. apply put_page_inv in H6 as [_ ->]. pcbn.
  minv H parent t7 H7. apply get_page_inv in H7 as [-> Hparent]. pcbn.
  rewrite lookup_insert_ne in Hparent by done.
  minv H parent' t8 H8. apply lift_inv in H8 as [Hset ->].
  apply SetKeyAt_inv in Hset as [Hi ->].
  minv H u2 t9 H9. apply put_page_inv in H9 as [_ ->]. pcbn.
  minv H b t10 H10. apply UnpinPage_inv_pinned in H10 as [-> ->]; pcbn.
  2: { right. rewrite lookup_insert_eq. by eexists. }
  2: { rewrite lookup_insert_eq. specialize (Hpins (GetParentPageId q)). simpl. lia. }
  minv H r' t11 H11. minv H child t12 H12.
  destruct (FetchPage_inv_Some _ _ _ _ _ _ H11 H12) as (-> & _ & ->). clear H11 H12. pcbn.
  minv H u3 t13 H13. apply update_inv in H13 as (c & Hc & ->). pcbn.
  minv H b' t14 H14. apply UnpinPage_inv_pinned in H14 as [-> ->]; pcbn.
  2: { right. rewrite lookup_insert_eq. by eexists. }
  2: { rewrite lookup_insert_eq. simpl.
       rewrite !pins_insert. pose proof (Hpins last.2). pose proof (Hpins (GetParentPageId q)).
       repeat case_decide; lia. }
  apply ret_inv in H as [_ ->].
  unfold Tree.entries_of, Tree.parent_of. pcbn.
  assert (∀ (m : gmap Z BPlusTreePage) id x,
            m !! last.2 = Some c → m !! id = Some x →
            ∃ y, <[last.2 := SetParentPageId (GetPageId q) c]> m !! id = Some y
                 ∧ array y = array x ∧ GetSize y = GetSize x) as Hadopt.
  { intros m id x Hm Hx. destruct (decide (id = last.2)) as [->|Hid].
    - rewrite lookup_insert_eq. eexists. split; [done|]. by simplify_eq.
    - rewrite lookup_insert_ne by done. eauto. }
  split; [|split; [|split; [|split]]].
  - edestruct Hadopt as (y & -> & Ha & Hs); [done| |].
    { rewrite lookup_insert_ne by done. by rewrite lookup_insert_eq. }
    simpl. rewrite Ha, Hs. f_equal. unfold GetSize in *. simpl.
    by apply prefix_shift_cons.
  - edestruct Hadopt as (y & -> & Ha & Hs); [done| |].
    { rewrite !lookup_insert_ne by done. done. }
    simpl. by rewrite Ha, Hs.
  - by rewrite lookup_insert_eq.
  - exists parent. split; [done|]. split; [done|].
    edestruct Hadopt as (y & -> & Ha & Hs); [done| |].
    { by rewrite lookup_insert_eq. }
    simpl. by rewrite Ha, Hs.
  - intros id. pins_solve.
Qed.

End internal_moves.

Section tree_more.
Import BTree BTree.Tree.
Local Open Scope Z_scope.
Implicit Types (t : BPlusTree) (p : BPlusTreePage).

Lemma pinned_frames_insert_le bpm bpm' id n :
  pin_count_ bpm' = <[id := n]> (pin_count_ bpm) →
  pinned_frames bpm' ≤ pinned_frames bpm + 1.
Proof.
  intros Heq. unfold pinned_frames. rewrite Heq.
  rewrite map_filter_insert. destruct (decide _).
  - rewrite map_size_insert. destruct (_ !! _); simpl; lia.
  - rewrite map_filter_delete, map_size_delete. destruct (_ !! _); simpl; lia.
Qed.

Lemma NewPage_Ret t :
  let bpm := buffer_pool_manager_ t in
  frame_available bpm = true →
  NewPage t
  = Ret (Some (allocated_ bpm))
      (mkTree (index_name_ t) (root_page_id_ t)
         (mkPool (pool_size_ bpm) (<[allocated_ bpm := fresh_ bpm]> (pages_ bpm))
                 (<[allocated_ bpm := 1]> (pin_count_ bpm)) (allocated_ bpm + 1)
                 (fresh_ bpm) (header_ bpm) (log_ bpm ++ [EvNewPage (Some (allocated_ bpm))]))).
Proof.
  intros bpm Hframe. unfold NewPage, mbind, M_bind, get_pool, set_pool, mret, M_ret.
  fold bpm. by rewrite Hframe.
Qed.

Lemma NewPage_fails t :
  let bpm := buffer_pool_manager_ t in
  frame_available bpm = false →
  NewPage t
  = Ret None
      (mkTree (index_name_ t) (root_page_id_ t)
         (mkPool (pool_size_ bpm) (pages_ bpm) (pin_count_ bpm) (allocated_ bpm)
                 (fresh_ bpm) (header_ bpm) (log_ bpm ++ [EvNewPage None]))).
Proof.
  intros bpm Hframe. unfold NewPage, mbind, M_bind, get_pool, set_pool, mret, M_ret, record.
  fold bpm. by rewrite Hframe.
Qed.

Lemma NewPage_inv t r t' :
  NewPage t = Ret r t' →
  let bpm := buffer_pool_manager_ t in
  (r = Some (allocated_ bpm)
   ∧ t' = mkTree (index_name_ t) (root_page_id_ t)
            (mkPool (pool_size_ bpm) (<[allocated_ bpm := fresh_ bpm]> (pages_ bpm))
                    (<[allocated_ bpm := 1]> (pin_count_ bpm)) (allocated_ bpm + 1)
                    (fresh_ bpm) (header_ bpm)
                    (log_ bpm ++ [EvNewPage (Some (allocated_ bpm))])))
  ∨ (r = None
     ∧ t' = mkTree (index_name_ t) (root_page_id_ t)
              (mkPool (pool_size_ bpm) (pages_ bpm) (pin_count_ bpm) (allocated_ bpm)
                      (fresh_ bpm) (header_ bpm) (log_ bpm ++ [EvNewPage None]))).
Proof.
  intros H bpm. destruct (frame_available bpm) eqn:Hframe.
  - rewrite NewPage_Ret in H by done. injection H as <- <-. by left.
  - rewrite NewPage_fails in H by done. injection H as <- <-. by right.
Qed.

Lemma UpdateRootPageId_Ret insert_record t :
  let bpm := buffer_pool_manager_ t in
  (0 < pins bpm HEADER_PAGE_ID ∨ frame_available bpm = true) →
  0 ≤ pins bpm HEADER_PAGE_ID →
  UpdateRootPageId insert_record t
  = Ret ()
      (mkTree (index_name_ t) (root_page_id_ t)
         (mkPool (pool_size_ bpm) (pages_ bpm)
            (<[HEADER_PAGE_ID := pins bpm HEADER_PAGE_ID + 1 - 1]>
               (<[HEADER_PAGE_ID := pins bpm HEADER_PAGE_ID + 1]> (pin_count_ bpm)))
            (allocated_ bpm) (fresh_ bpm)
            (header_after insert_record (index_name_ t) (root_page_id_ t) (header_ bpm))
            ((log_ bpm ++ [EvFetchPage HEADER_PAGE_ID true])
               ++ [EvUnpinPage HEADER_PAGE_ID true true]))).
Proof.
  intros bpm Hframe Hpins. unfold UpdateRootPageId.
  mfwd (by apply FetchPage_Ret; [left|]).
  mfwd reflexivity. mfwd reflexivity. fold bpm. pcbn.
  assert (∀ t0 : BPlusTree,
            header_ (buffer_pool_manager_ t0) = header_ bpm →
            ∃ b, (if insert_record
                  then InsertRecord (index_name_ t0) (root_page_id_ t0)
                  else UpdateRecord (index_name_ t0) (root_page_id_ t0)) t0
                 = Ret b (mkTree (index_name_ t0) (root_page_id_ t0)
                            (mkPool (pool_size_ (buffer_pool_manager_ t0))
                               (pages_ (buffer_pool_manager_ t0))
                               (pin_count_ (buffer_pool_manager_ t0))
                               (allocated_ (buffer_pool_manager_ t0))
                               (fresh_ (buffer_pool_manager_ t0))
                               (header_after insert_record (index_name_ t0)
                                  (root_page_id_ t0) (header_ bpm))
                               (log_ (buffer_pool_manager_ t0))))) as Hrecord.
  { intros [name root [psize pages pin alloc fresh header log]] Hh. pcbn. subst header.
    unfold header_after.
    destruct insert_record;
      unfold InsertRecord, UpdateRecord, set_header, mbind, M_bind, get_pool,
        set_pool, mret, M_ret; pcbn;
      destruct (header_ bpm !! name); eexists; reflexivity. }
  edestruct Hrecord as [b Hb]; [|mfwd exact Hb]; [done|]. pcbn.
  mfwd (apply UnpinPage_Ret; pcbn; [by left|rewrite lookup_insert_eq; simpl; lia]).
  pcbn. rewrite lookup_insert_eq. done.
Qed.


Lemma Insert_empty_no_frame lms ims fuel key value t :
  root_page_id_ t = INVALID_PAGE_ID →
  frame_available (buffer_pool_manager_ t) = false →
  ∃ t', Insert lms ims fuel key value t = Throw "out of memory" t'
        ∧ root_page_id_ t' = INVALID_PAGE_ID
        ∧ pages_ (buffer_pool_manager_ t') = pages_ (buffer_pool_manager_ t)
        ∧ pin_count_ (buffer_pool_manager_ t') = pin_count_ (buffer_pool_manager_ t)
        ∧ header_ (buffer_pool_manager_ t') = header_ (buffer_pool_manager_ t).
Proof.
  intros Hroot Hframe. unfold Insert, IsEmpty.
  mfwd reflexivity. rewrite Hroot. change (_ =? _) with true. cbv beta iota.
  unfold StartNewTree.
  unfold mbind at 1, M_bind at 1. unfold mbind at 1, M_bind at 1.
  rewrite NewPage_fails by done. unfold throw. eexists. split; [reflexivity|]. done.
Qed.

Lemma Insert_empty_starts_leaf lms ims fuel key value t :
  let bpm := buffer_pool_manager_ t in
  let a := allocated_ bpm in
  root_page_id_ t = INVALID_PAGE_ID →
  pinned_frames bpm + 1 < pool_size_ bpm →
  a ≠ HEADER_PAGE_ID →
  (∀ id, 0 ≤ pins bpm id) →
  pins bpm a = 0 →
  ∃ t', Insert lms ims fuel key value t = Ret true t'
        ∧ root_page_id_ t' = a
        ∧ pages_ (buffer_pool_manager_ t') !! a
          = Some (mkPage LEAF_PAGE 1 lms INVALID_PAGE_ID a INVALID_PAGE_ID
                    (store (array (fresh_ bpm)) 0 (key, value)))
        ∧ (∀ id, id ≠ a →
                 pages_ (buffer_pool_manager_ t') !! id = pages_ bpm !! id)
        ∧ (∀ id, pins (buffer_pool_manager_ t') id = pins bpm id)
        ∧ header_ (buffer_pool_manager_ t')
          = header_after true (index_name_ t) a (header_ bpm).
Proof.
  intros bpm a Hroot Hframes Ha Hpins Hfresh. unfold Insert, IsEmpty.
  mfwd reflexivity. rewrite Hroot. change (_ =? _) with true. cbv beta iota.
  unfold StartNewTree.
  unfold mbind at 1, M_bind at 1. unfold mbind at 1, M_bind at 1.
  rewrite NewPage_Ret by (unfold frame_available; fold bpm; lia). fold bpm a.
  mfwd reflexivity. pcbn.
  mfwd (apply UpdateRootPageId_Ret; pcbn).
  2: { right. unfold frame_available. pcbn.
       match goal with |- (pinned_frames ?b <? _) = true =>
         pose proof (pinned_frames_insert_le bpm b a 1 eq_refl) end.
       lia. }
  2: { rewrite lookup_insert_ne by done. apply Hpins. }
  pcbn. mfwd reflexivity. pcbn.
  mfwd (eapply update_Ret; pcbn; by rewrite lookup_insert_eq). pcbn.
  mfwd (eapply get_page_Ret; pcbn; by rewrite lookup_insert_eq).
  mfwd reflexivity. pcbn.
  mfwd (eapply put_page_Ret; pcbn; by rewrite lookup_insert_eq). pcbn.
  mfwd reflexivity. pcbn.
  mfwd (apply UnpinPage_Ret; pcbn).
  2: { right. rewrite lookup_insert_eq. by eexists. }
  2: { rewrite !(lookup_insert_ne _ HEADER_PAGE_ID a) by done.
       rewrite lookup_insert_eq. simpl. lia. }
  unfold mret, M_ret. pcbn.
  eexists. split; [reflexivity|]. pcbn.
  split; [done|]. split; [by rewrite lookup_insert_eq|]. split; [|split; [|done]].
  - intros id Hid. by rewrite !lookup_insert_ne.
  - intros id. specialize (Hpins id). pins_solve.
Qed.


Lemma FindLeafPage_leaf_root fuel key leftMost t p :
  let bpm := buffer_pool_manager_ t in
  let r := root_page_id_ t in
  pages_ bpm !! r = Some p → IsLeafPage p = true →
  (0 < pins bpm r ∨ frame_available bpm = true) →
  FindLeafPage fuel key leftMost t
  = Ret r (mkTree (index_name_ t) r
             (mkPool (pool_size_ bpm) (pages_ bpm)
                     (<[r := pins bpm r + 1]> (pin_count_ bpm))
                     (allocated_ bpm) (fresh_ bpm) (header_ bpm)
                     (log_ bpm ++ [EvFetchPage r true]))).
Proof.
  intros bpm r Hp Hleaf Hframe. unfold FindLeafPage.
  mfwd reflexivity. fold r.
  mfwd (apply FetchPage_Ret; [right; by eexists|done]). fold bpm.
  mfwd reflexivity.
  assert (∀ t0, pages_ (buffer_pool_manager_ t0) !! r = Some p →
                FindLeafPage_loop fuel key leftMost (Some r) r r t0 = Ret r t0) as Hloop.
  { intros t0 Hp0. destruct fuel; cbn [FindLeafPage_loop];
      (mfwd (by apply get_page_Ret)); by rewrite Hleaf. }
  by apply Hloop.
Qed.

Lemma Insert_leaf_root lms ims fuel key value t p :
  let bpm := buffer_pool_manager_ t in
  let r := root_page_id_ t in
  r ≠ INVALID_PAGE_ID →
  pages_ bpm !! r = Some p → IsLeafPage p = true → 1 ≤ GetSize p < 2 ^ 31 →
  (0 < pins bpm r ∨ frame_available bpm = true) →
  ∃ t', Insert lms ims fuel key value t = Ret false t'
        ∧ same_pages t t'
        ∧ pins (buffer_pool_manager_ t') r = pins bpm r + 1
        ∧ log_of t' = log_of t ++ [EvFetchPage r true].
Proof.
  intros bpm r Hr Hp Hleaf Hsize Hframe. unfold Insert, IsEmpty.
  mfwd reflexivity. fold r.
  destruct (r =? INVALID_PAGE_ID) eqn:Heq; [lia|]. cbv beta iota.
  unfold InsertIntoLeaf.
  mfwd (by eapply FindLeafPage_leaf_root). fold bpm r.
  mfwd (by apply get_page_Ret).
  destruct (Leaf_Lookup_always_hits key p Hsize) as [v ->].
  eexists. split; [reflexivity|]. unfold same_pages, log_of. pcbn.
  split; [done|]. split; [|done]. by rewrite lookup_insert_eq.
Qed.


Lemma UpdateRootPageId_inv insert_record t u t' :
  let bpm := buffer_pool_manager_ t in
  0 ≤ pins bpm HEADER_PAGE_ID →
  UpdateRootPageId insert_record t = Ret u t' →
  t' = mkTree (index_name_ t) (root_page_id_ t)
         (mkPool (pool_size_ bpm) (pages_ bpm)
            (<[HEADER_PAGE_ID := pins bpm HEADER_PAGE_ID + 1 - 1]>
               (<[HEADER_PAGE_ID := pins bpm HEADER_PAGE_ID + 1]> (pin_count_ bpm)))
            (allocated_ bpm) (fresh_ bpm)
            (header_after insert_record (index_name_ t) (root_page_id_ t) (header_ bpm))
            ((log_ bpm ++ [EvFetchPage HEADER_PAGE_ID true])
               ++ [EvUnpinPage HEADER_PAGE_ID true true])).
Proof.
  intros bpm Hpins H. pose proof H as H'. unfold UpdateRootPageId in H'.
  minv H' r t1 H1. minv H' frame t2 H2.
  destruct (FetchPage_inv_Some _ _ _ _ _ _ H1 H2) as (_ & [_ Hframe] & _).
  rewrite UpdateRootPageId_Ret in H by done. by injection H as <-.
Qed.

(** What [AdjustRoot] does, by the kind and the size of the old root. *)
Lemma AdjustRoot_spec old t b t' p :
  let bpm := buffer_pool_manager_ t in
  pages_ bpm !! old = Some p →
  (∀ id, 0 ≤ pins bpm id) →
  AdjustRoot old t = Ret b t' →
  if IsLeafPage p then
    if GetSize p =? 0 then
      b = true ∧ root_page_id_ t' = INVALID_PAGE_ID
      ∧ pages_ (buffer_pool_manager_ t') = pages_ bpm
      ∧ (∀ id, pins (buffer_pool_manager_ t') id = pins bpm id)
      ∧ header_ (buffer_pool_manager_ t')
        = header_after false (index_name_ t) INVALID_PAGE_ID (header_ bpm)
    else b = false ∧ t' = t
  else
    if GetSize p =? 1 then
      let child := (array p 0).2 in
      b = true ∧ root_page_id_ t' = child
      ∧ parent_of t' child = Some INVALID_PAGE_ID
      ∧ (∀ id, id ≠ child → pages_ (buffer_pool_manager_ t') !! id = pages_ bpm !! id)
      ∧ header_ (buffer_pool_manager_ t')
        = header_after false (index_name_ t) child (header_ bpm)
      ∧ ((GetPageId <$> pages_ bpm !! child) = Some child →
         ∀ id, pins (buffer_pool_manager_ t') id = pins bpm id)
    else b = false ∧ t' = t.
Proof.
  intros bpm Hp Hpins H. unfold AdjustRoot in H.
  minv H p0 t0 H0. apply get_page_inv in H0 as [-> Hp0]. fold bpm in Hp0. simplify_eq.
  destruct (IsLeafPage p); cbn [negb] in H.
  - destruct (GetSize p =? 0); [|by apply ret_inv in H as [-> ->]].
    minv H u1 t1 H1. apply set_root_inv in H1 as ->.
    minv H u2 t2 H2. apply UpdateRootPageId_inv in H2 as ->; [|apply Hpins].
    apply ret_inv in H as [-> ->]. pcbn. fold bpm.
    split; [done|]. split; [done|]. split; [done|]. split; [|done].
    intros id. specialize (Hpins id). pins_solve.
  - destruct (GetSize p =? 1) eqn:Hsize; [|by apply ret_inv in H as [-> ->]].
    minv H child t1 H1. apply lift_inv in H1 as [Hchild ->].
    assert (child = (array p 0).2) as ->.
    { unfold Internal.ValueAt in Hchild. destruct (assert _); by simplify_eq/=. }
    minv H u1 t2 H2. apply set_root_inv in H2 as ->.
    minv H u2 t3 H3. apply UpdateRootPageId_inv in H3 as ->; [|apply Hpins]. pcbn.
    minv H root t4 H4. apply get_root_inv in H4 as [-> ->]. pcbn.
    minv H r t5 H5. minv H frame t6 H6.
    destruct (FetchPage_inv_Some _ _ _ _ _ _ H5 H6) as (-> & _ & ->). clear H5 H6. pcbn.
    minv H u3 t7 H7. apply update_inv in H7 as (c & Hc & ->). pcbn. fold bpm in Hc.
    minv H new_root t8 H8. apply get_page_inv in H8 as [-> Hnew]. pcbn.
    rewrite lookup_insert_eq in Hnew. simplify_eq.
    change (GetPageId (SetParentPageId INVALID_PAGE_ID c)) with (GetPageId c) in H.
    minv H b' t9 H9. apply ret_inv in H as [-> ->].
    assert (pages_ (buffer_pool_manager_ t9)
            = <[(array p 0).2 := SetParentPageId INVALID_PAGE_ID c]> (pages_ bpm)
            ∧ root_page_id_ t9 = (array p 0).2
            ∧ header_ (buffer_pool_manager_ t9)
              = header_after false (index_name_ t) (array p 0).2 (header_ bpm))
      as (Hpages & Hroot & Hheader).
    { apply UnpinPage_inv in H9. pcbn. by destruct H9 as [(_ & _ & ->)|(_ & _ & ->)]. }
    unfold parent_of. rewrite Hpages, Hroot, Hheader.
    split; [done|]. split; [done|]. split; [by rewrite lookup_insert_eq|].
    split; [by intros id Hid; rewrite lookup_insert_ne|]. split; [done|].
    rewrite Hc. intros [= Hid]. rewrite Hid in H9.
    apply UnpinPage_inv_pinned in H9 as [_ ->]; pcbn.
    + intros id. pose proof (Hpins id). pose proof (Hpins (array p 0).2).
      pose proof (Hpins HEADER_PAGE_ID). fold bpm. pins_solve.
    + right. rewrite lookup_insert_eq. by eexists.
    + rewrite lookup_insert_eq. simpl. pose proof (Hpins (array p 0).2).
      pose proof (Hpins HEADER_PAGE_ID). fold bpm. pins_solve.
Qed.


(** What [InsertIntoParent] does when the node that was split is the
    root. *)
Lemma InsertIntoParent_root_spec ims fuel old_node key new_node t t' old new :
  let bpm := buffer_pool_manager_ t in
  let a := allocated_ bpm in
  pages_ bpm !! old_node = Some old → pages_ bpm !! new_node = Some new →
  IsRootPage old = true →
  pages_ bpm !! a = None →
  (∀ id, 0 ≤ pins bpm id) →
  InsertIntoParent ims (S fuel) old_node key new_node t = Ret () t' →
  root_page_id_ t' = a
  ∧ pages_ (buffer_pool_manager_ t') !! a
    = Some (Internal.PopulateNewRoot (GetPageId old) key (GetPageId new) (fresh_ bpm))
  ∧ parent_of t' old_node = Some a
  ∧ parent_of t' new_node = Some a
  ∧ entries_of t' old_node = entries_of t old_node
  ∧ entries_of t' new_node = entries_of t new_node
  ∧ (∀ id, id ≠ a → id ≠ old_node → id ≠ new_node →
           pages_ (buffer_pool_manager_ t') !! id = pages_ bpm !! id)
  ∧ (∀ id, pins (buffer_pool_manager_ t') id = if decide (id = a) then 1 else pins bpm id)
  ∧ header_ (buffer_pool_manager_ t')
    = header_after false (index_name_ t) a (header_ bpm).
Proof.
  intros bpm a Hold Hnew Hroot Hfresh Hpins H.
  assert (a ≠ old_node) as Ha1 by (intros Heq; rewrite Heq in Hfresh; congruence).
  assert (a ≠ new_node) as Ha2 by (intros Heq; rewrite Heq in Hfresh; congruence).
  cbn [InsertIntoParent] in H.
  minv H old0 t0 H0. apply get_page_inv in H0 as [-> Hold0]. fold bpm in Hold0. simplify_eq.
  rewrite Hroot in H.
  minv H r t1 H1. apply NewPage_inv in H1. fold bpm a in H1.
  destruct H1 as [[-> ->]|[-> _]]; [|done].
  minv H u1 t2 H2. apply set_root_inv in H2 as ->. pcbn.
  minv H old1 t3 H3. apply get_page_inv in H3 as [-> Hold1]. pcbn.
  rewrite lookup_insert_ne in Hold1 by done. fold bpm in Hold1. simplify_eq.
  minv H new1 t4 H4. apply get_page_inv in H4 as [-> Hnew1]. pcbn.
  rewrite lookup_insert_ne in Hnew1 by done. fold bpm in Hnew1. simplify_eq.
  minv H u2 t5 H5. apply update_inv in H5 as (f & Hf & ->). pcbn.
  rewrite lookup_insert_eq in Hf. simplify_eq.
  minv H root t6 H6. apply get_root_inv in H6 as [-> ->]. pcbn.
  minv H u3 t7 H7. apply update_inv in H7 as (o & Ho & ->). pcbn.
  rewrite !lookup_insert_ne in Ho by done. fold bpm in Ho. simplify_eq.
  minv H u4 t8 H8. apply update_inv in H8 as (n & Hn & ->). pcbn.
  apply UpdateRootPageId_inv in H as ->; pcbn.
  2: { pose proof (Hpins HEADER_PAGE_ID). pcbn. fold bpm. fold bpm in H. pins_solve. }
  fold bpm a. unfold parent_of, entries_of. pcbn. fold bpm.
  assert (∃ n', <[new_node := SetParentPageId a n]>
                  (<[old_node := SetParentPageId a old]>
                     (<[a := Internal.PopulateNewRoot (GetPageId old) key (GetPageId new)
                               (fresh_ bpm)]>
                        (<[a := fresh_ bpm]> (pages_ bpm)))) !! old_node
                = Some (SetParentPageId a n')
                ∧ array n' = array old ∧ GetSize n' = GetSize old) as (o' & Ho' & Ho1 & Ho2).
  { destruct (decide (old_node = new_node)) as [Heq|Hne].
    - rewrite Heq in *. rewrite lookup_insert_eq in Hn. simplify_eq.
      rewrite lookup_insert_eq. eexists. split; [done|]. done.
    - rewrite lookup_insert_ne by done. rewrite lookup_insert_eq. eauto. }
  assert (array n = array new ∧ GetSize n = GetSize new) as [Hn1 Hn2].
  { destruct (decide (old_node = new_node)) as [Heq|Hne].
    - rewrite Heq in *. rewrite lookup_insert_eq in Hn. by simplify_eq.
    - rewrite lookup_insert_ne in Hn by done. rewrite !lookup_insert_ne in Hn by done.
      fold bpm in Hn. by simplify_eq. }
  split; [done|]. split.
  { rewrite !lookup_insert_ne by done. by rewrite lookup_insert_eq. }
  split; [by rewrite Ho'|]. split; [by rewrite lookup_insert_eq|].
  split; [rewrite Ho', Hold; simpl; by rewrite <- Ho1, <- Ho2|].
  split; [rewrite lookup_insert_eq, Hnew; simpl; by rewrite <- Hn1, <- Hn2|].
  split; [by intros id ? ? ?; rewrite !lookup_insert_ne|]. split; [|done].
  intros id. pose proof (Hpins id). pose proof (Hpins HEADER_PAGE_ID).
  pose proof (Hpins a). pcbn.
  destruct (decide (id = a)) as [->|Hid]; pins_solve.
Qed.


(** [Leaf.MoveHalfTo] into an empty recipient, written out. *)
Lemma Leaf_MoveHalfTo_empty p recipient :
  0 ≤ GetSize p → GetSize recipient = 0 →
  ∃ p' r', Leaf.MoveHalfTo p recipient = Some (p', r')
           ∧ p' = IncreaseSize (-1 * ((1 + GetSize p) / 2)) p
           ∧ GetSize p' = GetSize p / 2
           ∧ GetSize r' = (GetSize p + 1) / 2
           ∧ prefix (array p') (GetSize p') ++ prefix (array r') (GetSize r')
             = prefix (array p) (GetSize p)
           ∧ page_type_ r' = page_type_ recipient
           ∧ GetMaxSize r' = GetMaxSize recipient
           ∧ GetPageId r' = GetPageId recipient
           ∧ GetNextPageId r' = GetNextPageId recipient
           ∧ GetParentPageId r' = GetParentPageId recipient.
Proof.
  intros Hsize Hempty. unfold Leaf.MoveHalfTo, Leaf.CopyHalfFrom.
  rewrite Z.shiftr_div_pow2 by lia. change (2 ^ 1) with 2.
  pose proof (half_bounds (1 + GetSize p)) as Hhalf.
  set (half := (1 + GetSize p) / 2) in *.
  rewrite Hempty. simpl.
  unfold memcpy. destruct (half <? 0) eqn:Hneg; [lia|]. simpl.
  eexists _, _. split; [reflexivity|]. split; [reflexivity|]. simpl.
  unfold GetSize in *. simpl.
  assert (size_ p + -1 * half = size_ p / 2) as Hkeep.
  { pose proof (half_bounds (size_ p)). lia. }
  split; [exact Hkeep|].
  rewrite !Hempty, !Z.add_0_l.
  split; [unfold half; f_equal; lia|].
  split; [|done].
  rewrite (prefix_app (array p) (size_ p - half) (size_ p)) by lia.
  replace (size_ p + -1 * half) with (size_ p - half) by lia.
  f_equal.
  replace (size_ p - (size_ p - half)) with half by lia.
  apply prefix_ext. intros i Hi.
  destruct ((0 <=? i) && (i <? half)) eqn:Hin.
  - f_equal. lia.
  - apply andb_false_iff in Hin as [Hin|Hin]; lia.
Qed.

(** What [Split] of a leaf leaves behind when it returns. *)
Lemma Split_leaf_spec lms node t new_node t' n :
  let bpm := buffer_pool_manager_ t in
  let a := allocated_ bpm in
  pages_ bpm !! node = Some n → 0 ≤ GetSize n →
  pages_ bpm !! a = None →
  Split_leaf lms node t = Ret new_node t' →
  new_node = a
  ∧ (∃ n' nn', pages_ (buffer_pool_manager_ t') !! node = Some n'
       ∧ pages_ (buffer_pool_manager_ t') !! a = Some nn'
       ∧ n' = IncreaseSize (-1 * ((1 + GetSize n) / 2)) n
       ∧ GetSize n' = GetSize n / 2
       ∧ GetSize nn' = (GetSize n + 1) / 2
       ∧ prefix (array n') (GetSize n') ++ prefix (array nn') (GetSize nn')
         = prefix (array n) (GetSize n)
       ∧ IsLeafPage nn' = true
       ∧ GetMaxSize nn' = lms
       ∧ GetPageId nn' = a
       ∧ GetNextPageId nn' = INVALID_PAGE_ID
       ∧ GetParentPageId nn' = GetParentPageId n)
  ∧ (∀ id, id ≠ a → id ≠ node →
           pages_ (buffer_pool_manager_ t') !! id = pages_ bpm !! id)
  ∧ (∀ id, pins (buffer_pool_manager_ t') id = if decide (id = a) then 1 else pins bpm id)
  ∧ root_page_id_ t' = root_page_id_ t.
Proof.
  intros bpm a Hn Hsize Hfresh H.
  assert (a ≠ node) as Ha by (intros Heq; rewrite Heq in Hfresh; congruence).
  unfold Split_leaf in H.
  minv H r t1 H1. apply NewPage_inv in H1. fold bpm a in H1.
  destruct H1 as [[-> ->]|[-> _]]; [|done].
  minv H n0 t2 H2. apply get_page_inv in H2 as [-> Hn0]. pcbn.
  rewrite lookup_insert_ne in Hn0 by done. fold bpm in Hn0. simplify_eq.
  minv H u1 t3 H3. apply update_inv in H3 as (f & Hf & ->). pcbn.
  rewrite lookup_insert_eq in Hf. simplify_eq.
  minv H n1 t4 H4. apply get_page_inv in H4 as [-> Hn1]. pcbn.
  rewrite !lookup_insert_ne in Hn1 by done. fold bpm in Hn1. simplify_eq.
  minv H nn t5 H5. apply get_page_inv in H5 as [-> Hnn]. pcbn.
  rewrite lookup_insert_eq in Hnn. simplify_eq.
  minv H r t6 H6. apply lift_inv in H6 as [Hmove ->].
  destruct (Leaf_MoveHalfTo_empty n (Leaf.Init lms a (GetParentPageId n) (fresh_ bpm)))
    as (p' & r' & Hmove' & Hp' & Hs1 & Hs2 & Hentries & Hty & Hmax & Hpid & Hnext & Hpar);
    [done|done|].
  rewrite Hmove' in Hmove. injection Hmove as <-.
  minv H u2 t7 H7. apply put_page_inv in H7 as [_ ->]. pcbn.
  minv H u3 t8 H8. apply put_page_inv in H8 as [_ ->]. pcbn.
  apply ret_inv in H as [-> ->]. pcbn. fold bpm a.
  split; [done|]. split.
  { exists p', r'. cbn [fst snd].
    split; [rewrite lookup_insert_ne by done; by rewrite lookup_insert_eq|].
    split; [by rewrite lookup_insert_eq|].
    split; [done|]. split; [done|]. split; [done|]. split; [done|].
    split; [unfold IsLeafPage; by rewrite Hty|]. done. }
  split; [by intros id ? ?; rewrite !lookup_insert_ne|]. split; [|done].
  intros id. destruct (decide (id = a)) as [->|Hid]; pins_solve.
Qed.

End tree_more.

Section queue_up.
Import BTree.
Local Open Scope Z_scope.
Implicit Types (t : BPlusTree) (p : BPlusTreePage).

(** The child ids of the slots [i .. size-1]. *)
Lemma QueueUpChildren_spec (rounds : nat) this p :
  ∀ i queue t queue' t',
    pages_ (buffer_pool_manager_ t) !! this = Some p →
    0 ≤ i →
    Internal.QueueUpChildren rounds this i queue t = Ret queue' t' →
    let children := (λ j, (array p j).2) <$> seqZ i (GetSize p - i) in
    queue' = queue ++ children
    ∧ pages_ (buffer_pool_manager_ t') = pages_ (buffer_pool_manager_ t)
    ∧ root_page_id_ t' = root_page_id_ t
    ∧ ∀ id, pins (buffer_pool_manager_ t') id
            = pins (buffer_pool_manager_ t) id
              + Z.of_nat (length (filter (λ c, c = id) children)).
Proof.
  induction rounds as [|rounds IH]; intros i queue t queue' t' Hp Hi H;
    cbn [Internal.QueueUpChildren] in H;
    minv H p0 t0 H0; apply get_page_inv in H0 as [-> Hp0]; simplify_eq;
    (destruct (i <? GetSize p) eqn:Hlt;
     [|apply ret_inv in H as [-> ->]; rewrite seqZ_nil by lia; simpl;
       rewrite app_nil_r; split; [done|]; split; [done|]; split; [done|];
       intros; lia]); [done|].
  minv H r t1 H1. apply FetchPage_inv in H1.
  destruct H1 as [(-> & _ & ->)|[-> _]]; [|done].
  apply IH in H; pcbn; [|done|lia].
  destruct H as (-> & Hpages & Hroot & Hpins).
  rewrite (seqZ_cons i) by lia. rewrite fmap_cons.
  replace (Z.succ i) with (i + 1) by lia.
  replace (Z.pred (GetSize p - i)) with (GetSize p - (i + 1)) by lia.
  split; [by rewrite <- app_assoc|]. split; [done|]. split; [done|].
  intros id. rewrite Hpins. rewrite filter_cons.
  rewrite pins_insert. destruct (decide (id = (array p i).2)) as [->|Hne].
  - rewrite decide_True by done. simpl length. lia.
  - rewrite decide_False by congruence. lia.
Qed.

End queue_up.

Ltac look :=
  pcbn; repeat first [rewrite lookup_insert_eq | rewrite lookup_insert_ne by done];
  first [done | by eauto | by eexists].
Section unpin_total.
Import BTree.
Lemma UnpinPage_total page_id is_dirty t : ∃ b t', UnpinPage page_id is_dirty t = Ret b t'.
Proof.
  unfold UnpinPage, mbind, M_bind, get_pool, set_pool, mret, M_ret.
  destruct (_ && _); by eexists _, _.
Qed.

End unpin_total.

Ltac munpin :=
  match goal with
  | |- context [(BTree.UnpinPage ?id ?d ≫= _) ?T] =>
      let b := fresh "b" in let t' := fresh "t" in let Hunpin := fresh "Hunpin" in
      destruct (UnpinPage_total id d T) as (b & t' & Hunpin);
      erewrite bind_Ret; [|exact Hunpin]
  end.

Section returns.
Import BTree.
Local Open Scope Z_scope.
Implicit Types (t : BPlusTree) (p : BPlusTreePage).

Lemma is_Some_insert (m : gmap Z BPlusTreePage) i j x :
  is_Some (m !! j) → is_Some (<[i := x]> m !! j).
Proof. intros. apply lookup_insert_is_Some'. by right. Qed.

Lemma CopyLastFrom_returns this pair t :
  let bpm := buffer_pool_manager_ t in
  is_Some (pages_ bpm !! this) → is_Some (pages_ bpm !! pair.2) →
  (0 < pins bpm pair.2 ∨ frame_available bpm = true) →
  ∃ t', Internal.CopyLastFrom this pair t = Ret () t'.
Proof.
  intros bpm [p Hp] Hc Hframe. unfold Internal.CopyLastFrom.
  mfwd (by apply get_page_Ret).
  mfwd (by eapply put_page_Ret). pcbn. fold bpm.
  mfwd (eapply get_page_Ret; look).
  mfwd (apply FetchPage_Ret; pcbn; [right; by apply is_Some_insert|done]). pcbn. fold bpm.
  mfwd reflexivity.
  destruct (is_Some_insert (pages_ bpm) this pair.2
              (IncreaseSize 1 (set_array (store (array p) (GetSize p) pair) p)) Hc)
    as [c Hc'].
  mfwd (eapply update_Ret; pcbn; exact Hc'). pcbn.
  munpin.
  by eexists.
Qed.

Lemma SetKeyAt_Some index key p :
  0 ≤ index < GetSize p →
  Internal.SetKeyAt index key p
  = Some (set_array (store (array p) index (key, (array p index).2)) p).
Proof.
  intros Hi. unfold Internal.SetKeyAt.
  destruct ((0 <=? index) && (index <? GetSize p)) eqn:Hin; [done|].
  apply andb_false_iff in Hin as [Hin|Hin]; lia.
Qed.

Lemma Leaf_MoveFirstToEndOf_returns this recipient t p q parent :
  let bpm := buffer_pool_manager_ t in
  pages_ bpm !! this = Some p → pages_ bpm !! recipient = Some q →
  pages_ bpm !! GetParentPageId p = Some parent →
  this ≠ recipient → GetParentPageId p ≠ this → GetParentPageId p ≠ recipient →
  1 ≤ GetSize p →
  0 ≤ Internal.ValueIndex (GetPageId p) parent < GetSize parent →
  (0 < pins bpm (GetParentPageId p) ∨ frame_available bpm = true) →
  ∃ t', LeafParent.MoveFirstToEndOf this recipient t = Ret () t'.
Proof.
  intros bpm Hp Hq Hparent Hne Hpar1 Hpar2 Hsize Hindex Hframe.
  unfold LeafParent.MoveFirstToEndOf.
  mfwd (by apply get_page_Ret).
  mfwd (by eapply update_Ret). pcbn. fold bpm.
  mfwd (eapply get_page_Ret; look).
  rewrite memmove_Some by lia. mfwd reflexivity.
  mfwd (eapply put_page_Ret; look). pcbn.
  mfwd (eapply get_page_Ret; look).
  cbn [GetParentPageId GetPageId IncreaseSize set_array parent_page_id_ page_id_].
  mfwd (apply FetchPage_Ret; pcbn; [right|done]; look). pcbn. fold bpm.
  mfwd reflexivity.
  mfwd (eapply get_page_Ret; look).
  mfwd (eapply get_page_Ret; look).
  fold (GetPageId p). rewrite SetKeyAt_Some by done. mfwd reflexivity.
  mfwd (eapply put_page_Ret; look). pcbn.
  munpin. by eexists.
Qed.

Lemma UnpinPage_pages page_id is_dirty t b t' :
  UnpinPage page_id is_dirty t = Ret b t' →
  pages_ (buffer_pool_manager_ t') = pages_ (buffer_pool_manager_ t).
Proof.
  unfold UnpinPage, mbind, M_bind, get_pool, set_pool, mret, M_ret.
  by destruct (_ && _); intros [= _ <-].
Qed.

Lemma Leaf_CopyFirstFrom_returns this from index parentIndex t q giver parent :
  let bpm := buffer_pool_manager_ t in
  pages_ bpm !! this = Some q → pages_ bpm !! from = Some giver →
  pages_ bpm !! GetParentPageId q = Some parent →
  from ≠ this → GetParentPageId q ≠ this →
  0 ≤ GetSize q →
  0 ≤ parentIndex < GetSize parent →
  (0 < pins bpm (GetParentPageId q) ∨ frame_available bpm = true) →
  ∃ t', LeafParent.CopyFirstFrom this from index parentIndex t = Ret () t'
        ∧ ∀ id, is_Some (pages_ bpm !! id) → is_Some (pages_ (buffer_pool_manager_ t') !! id).
Proof.
  intros bpm Hq Hp Hparent Hne Hpar1 Hsize Hindex Hframe.
  unfold LeafParent.CopyFirstFrom.
  mfwd (by apply get_page_Ret).
  rewrite memmove_Some by lia. mfwd reflexivity.
  mfwd (eapply put_page_Ret; look). pcbn. fold bpm.
  mfwd (eapply get_page_Ret; look).
  mfwd (eapply update_Ret; look). pcbn.
  mfwd (eapply get_page_Ret; look).
  cbn [GetParentPageId GetPageId IncreaseSize set_array parent_page_id_ page_id_].
  fold (GetParentPageId q).
  mfwd (apply FetchPage_Ret; pcbn; [right|done]; look). pcbn. fold bpm.
  mfwd reflexivity.
  mfwd (eapply get_page_Ret; look).
  mfwd (eapply get_page_Ret; look).
  rewrite SetKeyAt_Some by done. mfwd reflexivity.
  mfwd (eapply put_page_Ret; look). pcbn.
  munpin. eexists. split; [reflexivity|].
  intros id Hid. rewrite (UnpinPage_pages _ _ _ _ _ Hunpin). pcbn.
  by do 3 apply is_Some_insert.
Qed.

Lemma Leaf_MoveLastToFrontOf_returns this recipient parentIndex t p q parent :
  let bpm := buffer_pool_manager_ t in
  pages_ bpm !! this = Some p → pages_ bpm !! recipient = Some q →
  pages_ bpm !! GetParentPageId q = Some parent →
  this ≠ recipient → GetParentPageId q ≠ recipient →
  0 ≤ GetSize q →
  0 ≤ parentIndex < GetSize parent →
  (0 < pins bpm (GetParentPageId q) ∨ frame_available bpm = true) →
  ∃ t', LeafParent.MoveLastToFrontOf this recipient parentIndex t = Ret () t'.
Proof.
  intros bpm Hp Hq Hparent Hne Hpar2 Hsize Hindex Hframe.
  unfold LeafParent.MoveLastToFrontOf.
  mfwd (by apply get_page_Ret).
  destruct (Leaf_CopyFirstFrom_returns recipient this (GetSize p - 1) parentIndex t
              q p parent) as (t1 & Hcopy & Hpages); try done.
  mfwd (exact Hcopy).
  destruct (Hpages this) as [x Hx]; [by eexists|].
  erewrite update_Ret by done. by eexists.
Qed.

Lemma pinned_frames_insert_same bpm bpm' id n :
  pin_count_ bpm' = <[id := n]> (pin_count_ bpm) →
  (0 < n ↔ 0 < pins bpm id) →
  pinned_frames bpm' = pinned_frames bpm.
Proof.
  intros Heq Hn. unfold pinned_frames. rewrite Heq. f_equal.
  destruct (decide (0 < n)) as [Hpos|Hneg].
  - rewrite map_filter_insert_True by done.
    apply Hn in Hpos. unfold pins in Hpos.
    destruct (pin_count_ bpm !! id) as [v|] eqn:Hv; simpl in Hpos; [|lia].
    rewrite map_size_insert_Some; [done|].
    exists v. by apply map_lookup_filter_Some.
  - rewrite map_filter_insert_not'; [done|done|].
    intros y Hy. simpl. unfold pins in Hn. rewrite Hy in Hn. simpl in Hn. lia.
Qed.

Lemma Internal_CopyFirstFrom_returns this pair parent_index t q parent :
  let bpm := buffer_pool_manager_ t in
  pages_ bpm !! this = Some q →
  pages_ bpm !! GetParentPageId q = Some parent →
  is_Some (pages_ bpm !! pair.2) →
  GetParentPageId q ≠ this →
  0 ≤ GetSize q →
  0 ≤ parent_index < GetSize parent →
  (∀ id, 0 ≤ pins bpm id) →
  frame_available bpm = true →
  ∃ t', Internal.CopyFirstFrom this pair parent_index t = Ret () t'.
Proof.
  intros bpm Hq Hparent Hchild Hpar1 Hsize Hindex Hpins Hframe.
  unfold Internal.CopyFirstFrom.
  mfwd (by apply get_page_Ret).
  mfwd (apply FetchPage_Ret; pcbn; [right|right]; look). pcbn. fold bpm.
  mfwd reflexivity.
  mfwd (eapply get_page_Ret; look).
  rewrite memmove_Some by lia. mfwd reflexivity.
  mfwd (eapply put_page_Ret; look). pcbn.
  mfwd (eapply get_page_Ret; look).
  rewrite SetKeyAt_Some by done. mfwd reflexivity.
  mfwd (eapply put_page_Ret; look). pcbn.
  mfwd (apply UnpinPage_Ret; pcbn;
          [right; look|rewrite lookup_insert_eq; simpl; pose proof (Hpins (GetParentPageId q)); lia]).
  pcbn. rewrite lookup_insert_eq. cbn [default]. rewrite insert_insert_eq.
  mfwd (apply FetchPage_Ret; pcbn; [right; by do 2 apply is_Some_insert|right]).
  2: { unfold frame_available in *. pcbn.
       erewrite pinned_frames_insert_same; [done|pcbn; reflexivity|].
       unfold pins, id. lia. }
  pcbn. mfwd reflexivity.
  destruct (is_Some_insert _ (GetParentPageId q) pair.2
              (set_array (store (array parent) parent_index
                                (pair.1, (array parent parent_index).2)) parent)
              (is_Some_insert _ this pair.2
                 (IncreaseSize 1 (set_array (store (λ i, if (1 <=? i) && (i <? 1 + GetSize q)
                                                         then array q (i - 1 + 0) else array q i)
                                                   0 pair) q)) Hchild))
    as [c Hc].
  mfwd (eapply update_Ret; pcbn; exact Hc).
  munpin. by eexists.
Qed.

Lemma Internal_MoveLastToFrontOf_returns this recipient parent_index t p q parent :
  let bpm := buffer_pool_manager_ t in
  pages_ bpm !! this = Some p → pages_ bpm !! recipient = Some q →
  pages_ bpm !! GetParentPageId q = Some parent →
  is_Some (pages_ bpm !! (array p (GetSize p - 1)).2) →
  GetParentPageId q ≠ recipient →
  0 ≤ GetSize q →
  0 ≤ parent_index < GetSize parent →
  (∀ id, 0 ≤ pins bpm id) →
  frame_available bpm = true →
  ∃ t', Internal.MoveLastToFrontOf this recipient parent_index t = Ret () t'.
Proof.
  intros bpm Hp Hq Hparent Hchild Hpar Hsize Hindex Hpins Hframe.
  unfold Internal.MoveLastToFrontOf.
  mfwd (by apply get_page_Ret).
  by eapply Internal_CopyFirstFrom_returns.
Qed.

Lemma frame_available_pin_unpin bpm bpm' id :
  0 ≤ pins bpm id →
  pin_count_ bpm' = <[id := pins bpm id + 1 - 1]> (<[id := pins bpm id + 1]> (pin_count_ bpm)) →
  pool_size_ bpm' = pool_size_ bpm →
  frame_available bpm' = frame_available bpm.
Proof.
  intros Hpins Heq Hsize. unfold frame_available. rewrite Hsize.
  rewrite insert_insert_eq in Heq.
  erewrite pinned_frames_insert_same; [done|exact Heq|lia].
Qed.

Lemma AdjustRoot_returns old t p :
  let bpm := buffer_pool_manager_ t in
  pages_ bpm !! old = Some p →
  (IsLeafPage p = false → GetSize p = 1 → is_Some (pages_ bpm !! (array p 0).2)) →
  (∀ id, 0 ≤ pins bpm id) →
  frame_available bpm = true →
  ∃ b t', Tree.AdjustRoot old t = Ret b t'.
Proof.
  intros bpm Hp Hchild Hpins Hframe. unfold Tree.AdjustRoot.
  mfwd (by apply get_page_Ret).
  destruct (IsLeafPage p) eqn:Hleaf; cbn [negb].
  - destruct (GetSize p =? 0); [|by eexists _, _].
    mfwd reflexivity.
    mfwd (apply UpdateRootPageId_Ret; pcbn; [by right|apply Hpins]).
    by eexists _, _.
  - destruct (GetSize p =? 1) eqn:Hsize; [|by eexists _, _].
    apply Z.eqb_eq in Hsize. specialize (Hchild eq_refl Hsize) as [c Hc].
    unfold Internal.ValueAt. rewrite Hsize. cbn [assert andb Z.leb Z.compare].
    mfwd reflexivity. mfwd reflexivity.
    mfwd (apply UpdateRootPageId_Ret; pcbn; [by right|apply Hpins]). pcbn. fold bpm.
    mfwd reflexivity. pcbn.
    mfwd (apply FetchPage_Ret; pcbn; [right; by eexists|right]).
    2: { erewrite frame_available_pin_unpin; [exact Hframe|apply Hpins|done|done]. }
    pcbn. fold bpm. mfwd reflexivity.
    mfwd (eapply update_Ret; pcbn; exact Hc). pcbn.
    mfwd (eapply get_page_Ret; look).
    munpin. by eexists _, _.
Qed.

Lemma InsertIntoParent_root_returns ims fuel old_node key new_node t old new :
  let bpm := buffer_pool_manager_ t in
  let a := allocated_ bpm in
  pages_ bpm !! old_node = Some old → pages_ bpm !! new_node = Some new →
  IsRootPage old = true →
  pages_ bpm !! a = None →
  (∀ id, 0 ≤ pins bpm id) →
  pinned_frames bpm + 1 < pool_size_ bpm →
  ∃ t', Tree.InsertIntoParent ims (S fuel) old_node key new_node t = Ret () t'.
Proof.
  intros bpm a Hold Hnew Hroot Hfresh Hpins Hframes.
  assert (a ≠ old_node) as Ha1 by (intros Heq; rewrite Heq in Hfresh; congruence).
  assert (a ≠ new_node) as Ha2 by (intros Heq; rewrite Heq in Hfresh; congruence).
  cbn [Tree.InsertIntoParent].
  mfwd (by apply get_page_Ret). rewrite Hroot.
  mfwd (apply NewPage_Ret; unfold frame_available; fold bpm; lia). fold bpm a.
  cbv beta iota.
  mfwd reflexivity. pcbn.
  mfwd (eapply get_page_Ret; look).
  mfwd (eapply get_page_Ret; look).
  mfwd (eapply update_Ret; look). pcbn.
  mfwd reflexivity. pcbn.
  mfwd (eapply update_Ret; look). pcbn.
  match goal with
  | |- context [update new_node _ ≫= _] =>
      match goal with
      | |- context [mkPool _ ?pages _ _ _ _ _] =>
          assert (is_Some (pages !! new_node)) as [n Hn]
            by (do 3 apply is_Some_insert; by eexists)
      end
  end.
  mfwd (eapply update_Ret; pcbn; exact Hn). pcbn.
  erewrite UpdateRootPageId_Ret; [by eexists| |]; pcbn.
  - right. unfold frame_available. pcbn.
    match goal with |- (pinned_frames ?b <? _) = true =>
      pose proof (pinned_frames_insert_le bpm b a 1 eq_refl) end.
    lia.
  - rewrite pins_insert. pose proof (Hpins HEADER_PAGE_ID). pcbn. by case_decide.
Qed.

Lemma Split_leaf_returns lms node t n :
  let bpm := buffer_pool_manager_ t in
  let a := allocated_ bpm in
  pages_ bpm !! node = Some n → 0 ≤ GetSize n →
  pages_ bpm !! a = None →
  frame_available bpm = true →
  ∃ t', Tree.Split_leaf lms node t = Ret a t'.
Proof.
  intros bpm a Hn Hsize Hfresh Hframe.
  assert (a ≠ node) as Ha by (intros Heq; rewrite Heq in Hfresh; congruence).
  assert (node ≠ a) as Ha' by done.
  unfold Tree.Split_leaf.
  mfwd (by apply NewPage_Ret). fold bpm a. cbv beta iota.
  mfwd (eapply get_page_Ret; look).
  mfwd (eapply update_Ret; look). pcbn.
  mfwd (eapply get_page_Ret; look).
  mfwd (eapply get_page_Ret; look).
  destruct (Leaf_MoveHalfTo_empty n (Leaf.Init lms a (GetParentPageId n) (fresh_ bpm)))
    as (p' & r' & Hmove & _); [done|done|].
  rewrite Hmove. mfwd reflexivity.
  mfwd (eapply put_page_Ret; look). pcbn.
  mfwd (eapply put_page_Ret; look). pcbn.
  by eexists.
Qed.

Lemma QueueUpChildren_returns (rounds : nat) this p :
  ∀ i queue t,
    let bpm := buffer_pool_manager_ t in
    pages_ bpm !! this = Some p →
    GetSize p - i ≤ Z.of_nat rounds →
    (∀ j, i ≤ j < GetSize p → is_Some (pages_ bpm !! (array p j).2)) →
    (i < GetSize p → pinned_frames bpm + (GetSize p - i) ≤ pool_size_ bpm) →
    ∃ queue' t', Internal.QueueUpChildren rounds this i queue t = Ret queue' t'.
Proof.
  induction rounds as [|rounds IH]; intros i queue t bpm Hp Hrounds Hchildren Hframes.
  - cbn [Internal.QueueUpChildren]. mfwd (by apply get_page_Ret).
    destruct (i <? GetSize p) eqn:Hi; [apply Z.ltb_lt in Hi; lia|]. by eexists _, _.
  - cbn [Internal.QueueUpChildren]. mfwd (by apply get_page_Ret).
    destruct (i <? GetSize p) eqn:Hi; [|by eexists _, _].
    apply Z.ltb_lt in Hi. specialize (Hframes Hi).
    mfwd (apply FetchPage_Ret; fold bpm; [right; apply Hchildren; lia|right]).
    2: { unfold frame_available. apply Z.ltb_lt. fold bpm. lia. }
    fold bpm. cbv beta iota. apply IH; pcbn.
    + done.
    + lia.
    + intros j Hj. apply Hchildren. lia.
    + intros _.
      match goal with |- pinned_frames ?b + _ ≤ _ =>
        pose proof (pinned_frames_insert_le bpm b (array p i).2
                      (pins bpm (array p i).2 + 1) eq_refl) end.
      lia.
Qed.

End returns.

Lemma pins_empty (bpm : BTree.BufferPoolManager) :
  BTree.pin_count_ bpm = ∅ → ∀ id, BTree.pins bpm id = 0%Z.
Proof. intros Heq id. unfold BTree.pins. by rewrite Heq, lookup_empty. Qed.

(** X18.  [Internal.CopyLastFrom] writes the pair behind the last entry of
    the page and makes the page the parent of the pair's child.  It pins
    the child and unpins it again: every pin count is as before, and no
    other page is written. *)
Theorem Internal_CopyLastFrom_appends_and_adopts_the_child :
  ∀ (this : Z) (pair : Z * Z) (t : BTree.BPlusTree) (p : BTree.BPlusTreePage),
    let bpm := BTree.buffer_pool_manager_ t in
    BTree.pages_ bpm !! this = Some p →
    is_Some (BTree.pages_ bpm !! pair.2) →
    (0 ≤ BTree.GetSize p)%Z →
    (∀ id, (0 ≤ BTree.pins bpm id)%Z) →
    ((0 < BTree.pins bpm pair.2)%Z ∨ BTree.frame_available bpm = true) →
    ∃ t', BTree.Internal.CopyLastFrom this pair t = BTree.Ret () t'
          ∧ BTree.Tree.entries_of t' this
            = Some (BTree.prefix (BTree.array p) (BTree.GetSize p) ++ [pair])
          ∧ BTree.Tree.parent_of t' pair.2 = Some (BTree.GetPageId p)
          ∧ (∀ id, BTree.pins (BTree.buffer_pool_manager_ t') id = BTree.pins bpm id)
          ∧ (∀ id, id ≠ this → id ≠ pair.2 →
                   BTree.pages_ (BTree.buffer_pool_manager_ t') !! id
                   = BTree.pages_ bpm !! id)
          ∧ BTree.root_page_id_ t' = BTree.root_page_id_ t.
Proof.
  intros this pair t p bpm Hp Hchild Hsize Hpins Hframe.
  destruct (CopyLastFrom_returns this pair t) as [t' Hret]; [by eexists|done|done|].
  exists t'. split; [done|]. by eapply CopyLastFrom_spec.
Qed.

(** X18 below the parent with children 7, 8, 9: page 7 takes the pair
    (25, 208) as its third entry and becomes the parent of page 208. *)
Lemma Internal_CopyLastFrom_appends_and_adopts_the_child_witness :
  let t := BTree.Tree.family [7; 8; 9]%Z in
  ∃ t', BTree.Internal.CopyLastFrom 7 (25, 208)%Z t = BTree.Ret () t'
        ∧ BTree.Tree.entries_of t' 7 = Some [(0, 107); (5, 207); (25, 208)]%Z
        ∧ BTree.Tree.parent_of t' 208 = Some 7%Z.
Proof.
  intros t.
  pose (p := default BTree.Tree.zero_page (BTree.pages_ (BTree.buffer_pool_manager_ t) !! 7%Z)).
  destruct (Internal_CopyLastFrom_appends_and_adopts_the_child 7 (25, 208)%Z t p)
    as (t' & Hret & Hentries & Hparent & _).
  - by vm_compute.
  - vm_compute. by eexists.
  - by vm_compute.
  - intros id. by rewrite pins_empty.
  - right. by vm_compute.
  - exists t'. split; [exact Hret|]. cbn [snd] in Hparent.
    rewrite Hentries, Hparent. by vm_compute.
Defined.

(** X19.  [Leaf.MoveFirstToEndOf] puts the first entry of the page behind
    the last entry of the recipient and shifts the rest of the page down by
    one.  In the parent it sets the key of the slot that [ValueIndex] finds
    for the page to the key now in slot 0: the former second key, or, when
    the page held one entry only, the key of the entry that has just left.
    The parent is pinned and unpinned again. *)
Theorem Leaf_MoveFirstToEndOf_moves_the_first_entry :
  ∀ (this recipient : Z) (t : BTree.BPlusTree) (p q parent : BTree.BPlusTreePage),
    let bpm := BTree.buffer_pool_manager_ t in
    let parent_id := BTree.GetParentPageId p in
    let i := BTree.Internal.ValueIndex (BTree.GetPageId p) parent in
    BTree.pages_ bpm !! this = Some p →
    BTree.pages_ bpm !! recipient = Some q →
    BTree.pages_ bpm !! parent_id = Some parent →
    this ≠ recipient → parent_id ≠ this → parent_id ≠ recipient →
    (1 ≤ BTree.GetSize p)%Z → (0 ≤ BTree.GetSize q)%Z →
    (0 ≤ i < BTree.GetSize parent)%Z →
    (∀ id, (0 ≤ BTree.pins bpm id)%Z) →
    ((0 < BTree.pins bpm parent_id)%Z ∨ BTree.frame_available bpm = true) →
    ∃ t', BTree.LeafParent.MoveFirstToEndOf this recipient t = BTree.Ret () t'
          ∧ BTree.Tree.entries_of t' recipient
            = Some (BTree.prefix (BTree.array q) (BTree.GetSize q) ++ [BTree.array p 0])
          ∧ BTree.Tree.entries_of t' this
            = Some (tail (BTree.prefix (BTree.array p) (BTree.GetSize p)))
          ∧ BTree.pages_ (BTree.buffer_pool_manager_ t') !! parent_id
            = Some (BTree.set_array
                      (BTree.store (BTree.array parent) i
                         ((BTree.array p (Z.min 1 (BTree.GetSize p - 1))).1,
                          (BTree.array parent i).2))
                      parent)
          ∧ (∀ id, BTree.pins (BTree.buffer_pool_manager_ t') id = BTree.pins bpm id)
          ∧ (∀ id, id ≠ this → id ≠ recipient → id ≠ parent_id →
                   BTree.pages_ (BTree.buffer_pool_manager_ t') !! id
                   = BTree.pages_ bpm !! id).
Proof.
  intros this recipient t p q parent bpm parent_id i Hp Hq Hparent Hne Hpar1 Hpar2
    Hsizep Hsizeq Hi Hpins Hframe.
  destruct (Leaf_MoveFirstToEndOf_returns this recipient t p q parent) as [t' Hret];
    try done.
  exists t'. split; [done|].
  destruct (Leaf_MoveFirstToEndOf_spec this recipient t t' p q)
    as (H1 & H2 & (parent' & Hparent' & _ & H3) & H4 & H5); try done.
  fold bpm parent_id in Hparent'. rewrite Hparent in Hparent'. injection Hparent' as <-.
  done.
Qed.

(** X19 on two leaves below page 3: leaf 2 gives (10,100) to leaf 1, and the
    parent's key for leaf 2 becomes 11. *)
Lemma Leaf_MoveFirstToEndOf_moves_the_first_entry_witness :
  let t := BTree.Tree.two_leaves [(1, 10); (2, 20)]%Z 10
             [(10, 100); (11, 110); (12, 120)]%Z in
  ∃ t', BTree.LeafParent.MoveFirstToEndOf 2 1 t = BTree.Ret () t'
        ∧ BTree.Tree.entries_of t' 1 = Some [(1, 10); (2, 20); (10, 100)]%Z
        ∧ BTree.Tree.entries_of t' 2 = Some [(11, 110); (12, 120)]%Z
        ∧ BTree.Tree.entries_of t' 3 = Some [(0, 1); (11, 2)]%Z.
Proof.
  intros t.
  pose (page := λ id, default BTree.Tree.zero_page
                        (BTree.pages_ (BTree.buffer_pool_manager_ t) !! id)).
  destruct (Leaf_MoveFirstToEndOf_moves_the_first_entry 2 1 t (page 2%Z) (page 1%Z) (page 3%Z))
    as (t' & Hret & H1 & H2 & H3 & _); [try (by vm_compute)..|].
  - right. by vm_compute.
  - exists t'. split; [exact Hret|]. rewrite H1, H2.
    change (BTree.GetParentPageId (page 2%Z)) with 3%Z in H3.
    unfold BTree.Tree.entries_of. rewrite H3. by vm_compute.
Defined.

(** X20.  [Leaf.MoveLastToFrontOf] puts the last entry of the page in front
    of the recipient's entries, drops it from the page, and sets the key of
    slot [parentIndex] of the recipient's parent to the key of the entry
    moved.  The parent is pinned and unpinned again. *)
Theorem Leaf_MoveLastToFrontOf_moves_the_last_entry :
  ∀ (this recipient parentIndex : Z) (t : BTree.BPlusTree)
    (p q parent : BTree.BPlusTreePage),
    let bpm := BTree.buffer_pool_manager_ t in
    let parent_id := BTree.GetParentPageId q in
    let last := BTree.array p (BTree.GetSize p - 1) in
    BTree.pages_ bpm !! this = Some p →
    BTree.pages_ bpm !! recipient = Some q →
    BTree.pages_ bpm !! parent_id = Some parent →
    this ≠ recipient → parent_id ≠ this → parent_id ≠ recipient →
    (1 ≤ BTree.GetSize p)%Z → (0 ≤ BTree.GetSize q)%Z →
    (0 ≤ parentIndex < BTree.GetSize parent)%Z →
    (∀ id, (0 ≤ BTree.pins bpm id)%Z) →
    ((0 < BTree.pins bpm parent_id)%Z ∨ BTree.frame_available bpm = true) →
    ∃ t', BTree.LeafParent.MoveLastToFrontOf this recipient parentIndex t = BTree.Ret () t'
          ∧ BTree.Tree.entries_of t' recipient
            = Some (last :: BTree.prefix (BTree.array q) (BTree.GetSize q))
          ∧ BTree.Tree.entries_of t' this
            = Some (removelast (BTree.prefix (BTree.array p) (BTree.GetSize p)))
          ∧ BTree.pages_ (BTree.buffer_pool_manager_ t') !! parent_id
            = Some (BTree.set_array
                      (BTree.store (BTree.array parent) parentIndex
                         (last.1, (BTree.array parent parentIndex).2))
                      parent)
          ∧ (∀ id, BTree.pins (BTree.buffer_pool_manager_ t') id = BTree.pins bpm id)
          ∧ (∀ id, id ≠ this → id ≠ recipient → id ≠ parent_id →
                   BTree.pages_ (BTree.buffer_pool_manager_ t') !! id
                   = BTree.pages_ bpm !! id).
Proof.
  intros this recipient parentIndex t p q parent bpm parent_id last Hp Hq Hparent
    Hne Hpar1 Hpar2 Hsizep Hsizeq Hi Hpins Hframe.
  destruct (Leaf_MoveLastToFrontOf_returns this recipient parentIndex t p q parent)
    as [t' Hret]; try done.
  exists t'. split; [done|].
  destruct (Leaf_MoveLastToFrontOf_spec this recipient parentIndex t t' p q)
    as (H1 & H2 & (parent' & Hparent' & _ & H3) & H4 & H5); try done.
  fold bpm parent_id in Hparent'. rewrite Hparent in Hparent'. injection Hparent' as <-.
  done.
Qed.

(** X20 on two leaves below page 3: leaf 1 gives (2,20) to leaf 2, and the
    parent's key of slot 1 becomes 2. *)
Lemma Leaf_MoveLastToFrontOf_moves_the_last_entry_witness :
  let t := BTree.Tree.two_leaves [(1, 10); (2, 20)]%Z 10
             [(10, 100); (11, 110); (12, 120)]%Z in
  ∃ t', BTree.LeafParent.MoveLastToFrontOf 1 2 1 t = BTree.Ret () t'
        ∧ BTree.Tree.entries_of t' 1 = Some [(1, 10)]%Z
        ∧ BTree.Tree.entries_of t' 2
          = Some [(2, 20); (10, 100); (11, 110); (12, 120)]%Z
        ∧ BTree.Tree.entries_of t' 3 = Some [(0, 1); (2, 2)]%Z.
Proof.
  intros t.
  pose (page := λ id, default BTree.Tree.zero_page
                        (BTree.pages_ (BTree.buffer_pool_manager_ t) !! id)).
  destruct (Leaf_MoveLastToFrontOf_moves_the_last_entry 1 2 1 t (page 1%Z) (page 2%Z) (page 3%Z))
    as (t' & Hret & H1 & H2 & H3 & _); [try (by vm_compute)..|].
  - right. by vm_compute.
  - exists t'. split; [exact Hret|]. rewrite H1, H2.
    change (BTree.GetParentPageId (page 2%Z)) with 3%Z in H3.
    unfold BTree.Tree.entries_of. rewrite H3. by vm_compute.
Defined.

(** X21.  [Internal.MoveLastToFrontOf] copies the last entry of the page in
    front of the recipient's entries, makes the recipient the parent of the
    entry's child and sets the key of slot [parent_index] of the
    recipient's parent.  It never shrinks the giving page: the page keeps
    all its entries, the moved one included. *)
Theorem Internal_MoveLastToFrontOf_never_shrinks_the_giver :
  ∀ (this recipient parent_index : Z) (t : BTree.BPlusTree)
    (p q parent : BTree.BPlusTreePage),
    let bpm := BTree.buffer_pool_manager_ t in
    let parent_id := BTree.GetParentPageId q in
    let last := BTree.array p (BTree.GetSize p - 1) in
    BTree.pages_ bpm !! this = Some p →
    BTree.pages_ bpm !! recipient = Some q →
    BTree.pages_ bpm !! parent_id = Some parent →
    is_Some (BTree.pages_ bpm !! last.2) →
    this ≠ recipient → parent_id ≠ this → parent_id ≠ recipient →
    (0 ≤ BTree.GetSize q)%Z →
    (0 ≤ parent_index < BTree.GetSize parent)%Z →
    (∀ id, (0 ≤ BTree.pins bpm id)%Z) →
    BTree.frame_available bpm = true →
    ∃ t', BTree.Internal.MoveLastToFrontOf this recipient parent_index t = BTree.Ret () t'
          ∧ BTree.Tree.entries_of t' recipient
            = Some (last :: BTree.prefix (BTree.array q) (BTree.GetSize q))
          ∧ BTree.Tree.entries_of t' this
            = Some (BTree.prefix (BTree.array p) (BTree.GetSize p))
          ∧ BTree.Tree.parent_of t' last.2 = Some (BTree.GetPageId q)
          ∧ BTree.Tree.entries_of t' parent_id
            = Some (BTree.prefix
                      (BTree.store (BTree.array parent) parent_index
                         (last.1, (BTree.array parent parent_index).2))
                      (BTree.GetSize parent))
          ∧ (∀ id, BTree.pins (BTree.buffer_pool_manager_ t') id = BTree.pins bpm id).
Proof.
  intros this recipient parent_index t p q parent bpm parent_id last Hp Hq Hparent
    Hchild Hne Hpar1 Hpar2 Hsizeq Hi Hpins Hframe.
  destruct (Internal_MoveLastToFrontOf_returns this recipient parent_index t p q parent)
    as [t' Hret]; try done.
  exists t'. split; [done|].
  destruct (Internal_MoveLastToFrontOf_spec this recipient parent_index t t' p q)
    as (H1 & H2 & H3 & (parent' & Hparent' & _ & H4) & H5); try done.
  fold bpm parent_id in Hparent'. rewrite Hparent in Hparent'. injection Hparent' as <-.
  done.
Qed.

(** X21 below the parent with children 7, 8, 9: page 8 receives (5, 207) in
    front and becomes the parent of page 207, the parent's key of slot 1
    becomes 5, and page 7 still holds (5, 207). *)
Lemma Internal_MoveLastToFrontOf_never_shrinks_the_giver_witness :
  let t := BTree.Tree.family [7; 8; 9]%Z in
  ∃ t', BTree.Internal.MoveLastToFrontOf 7 8 1 t = BTree.Ret () t'
        ∧ BTree.Tree.entries_of t' 8 = Some [(5, 207); (0, 108); (15, 208)]%Z
        ∧ BTree.Tree.entries_of t' 7 = Some [(0, 107); (5, 207)]%Z
        ∧ BTree.Tree.parent_of t' 207 = Some 8%Z
        ∧ BTree.Tree.entries_of t' 3 = Some [(0, 7); (5, 8); (20, 9)]%Z.
Proof.
  intros t.
  pose (page := λ id, default BTree.Tree.zero_page
                        (BTree.pages_ (BTree.buffer_pool_manager_ t) !! id)).
  destruct (Internal_MoveLastToFrontOf_never_shrinks_the_giver 7 8 1 t
              (page 7%Z) (page 8%Z) (page 3%Z))
    as (t' & Hret & H1 & H2 & H3 & H4 & _); [try (by vm_compute)..|].
  - vm_compute. by eexists.
  - exists t'. split; [exact Hret|].
    change (BTree.array (page 7%Z) (BTree.GetSize (page 7%Z) - 1)).2 with 207%Z in H3.
    change (BTree.GetParentPageId (page 8%Z)) with 3%Z in H4.
    rewrite H1, H2, H3, H4. by vm_compute.
Defined.

(** X22.  [Insert] into an empty tree, with two frames to spare, returns
    [true].  The page the pool hands out becomes the root: a leaf of
    capacity [leaf_max_size] without parent or next page, holding the pair
    in slot 0.  No other page is written, every pin count is as before
    (the new root is unpinned again), and [UpdateRootPageId(true)] files
    the root under the index name unless the name has a record already. *)
Theorem Insert_into_an_empty_tree_starts_a_leaf :
  ∀ (leaf_max_size internal_max_size : Z) (fuel : nat) (key value : Z)
    (t : BTree.BPlusTree),
    let bpm := BTree.buffer_pool_manager_ t in
    let a := BTree.allocated_ bpm in
    BTree.root_page_id_ t = BTree.INVALID_PAGE_ID →
    (BTree.pinned_frames bpm + 1 < BTree.pool_size_ bpm)%Z →
    a ≠ BTree.HEADER_PAGE_ID →
    (∀ id, (0 ≤ BTree.pins bpm id)%Z) →
    BTree.pins bpm a = 0%Z →
    ∃ t', BTree.Tree.Insert leaf_max_size internal_max_size fuel key value t
          = BTree.Ret true t'
          ∧ BTree.root_page_id_ t' = a
          ∧ BTree.pages_ (BTree.buffer_pool_manager_ t') !! a
            = Some (BTree.mkPage BTree.LEAF_PAGE 1 leaf_max_size BTree.INVALID_PAGE_ID a
                      BTree.INVALID_PAGE_ID
                      (BTree.store (BTree.array (BTree.fresh_ bpm)) 0 (key, value)))
          ∧ (∀ id, id ≠ a →
                   BTree.pages_ (BTree.buffer_pool_manager_ t') !! id
                   = BTree.pages_ bpm !! id)
          ∧ (∀ id, BTree.pins (BTree.buffer_pool_manager_ t') id = BTree.pins bpm id)
          ∧ BTree.header_ (BTree.buffer_pool_manager_ t')
            = BTree.Tree.header_after true (BTree.index_name_ t) a (BTree.header_ bpm).
Proof.
  intros lms ims fuel key value t bpm a. apply Insert_empty_starts_leaf.
Qed.

(** X22 on the empty index over ten frames: page 1 becomes the root leaf
    holding (5, 7). *)
Lemma Insert_into_an_empty_tree_starts_a_leaf_witness :
  ∃ t', BTree.Tree.Insert 4 4 0 5 7 (BTree.Tree.empty_tree 10) = BTree.Ret true t'
        ∧ BTree.root_page_id_ t' = 1%Z
        ∧ BTree.Tree.entries_of t' 1 = Some [(5, 7)]%Z.
Proof.
  destruct (Insert_into_an_empty_tree_starts_a_leaf 4 4 0 5 7 (BTree.Tree.empty_tree 10))
    as (t' & Hret & Hroot & Hpage & _); [try (by vm_compute)..|].
  exists t'. split; [exact Hret|]. split; [exact Hroot|].
  unfold BTree.Tree.entries_of.
  change (BTree.allocated_ (BTree.buffer_pool_manager_ (BTree.Tree.empty_tree 10)))
    with 1%Z in Hpage.
  rewrite Hpage. by vm_compute.
Defined.

(** X23.  [Insert] into an empty tree when the pool has no frame to give
    leaves by the exception "out of memory": the tree stays empty, and no
    page, pin count or header record has changed. *)
Theorem Insert_into_an_empty_tree_without_a_frame_throws :
  ∀ (leaf_max_size internal_max_size : Z) (fuel : nat) (key value : Z)
    (t : BTree.BPlusTree),
    let bpm := BTree.buffer_pool_manager_ t in
    BTree.root_page_id_ t = BTree.INVALID_PAGE_ID →
    BTree.frame_available bpm = false →
    ∃ t', BTree.Tree.Insert leaf_max_size internal_max_size fuel key value t
          = BTree.Throw "out of memory" t'
          ∧ BTree.root_page_id_ t' = BTree.INVALID_PAGE_ID
          ∧ BTree.pages_ (BTree.buffer_pool_manager_ t') = BTree.pages_ bpm
          ∧ BTree.pin_count_ (BTree.buffer_pool_manager_ t') = BTree.pin_count_ bpm
          ∧ BTree.header_ (BTree.buffer_pool_manager_ t') = BTree.header_ bpm.
Proof.
  intros lms ims fuel key value t bpm. apply Insert_empty_no_frame.
Qed.

(** X23 on the empty index over a pool without frames. *)
Lemma Insert_into_an_empty_tree_without_a_frame_throws_witness :
  ∃ t', BTree.Tree.Insert 4 4 0 5 7 (BTree.Tree.empty_tree 0)
        = BTree.Throw "out of memory" t'.
Proof.
  destruct (Insert_into_an_empty_tree_without_a_frame_throws 4 4 0 5 7
              (BTree.Tree.empty_tree 0)) as (t' & Hret & _); [try (by vm_compute)..|].
  by exists t'.
Defined.

(** X24.  In a tree whose root is a leaf that holds an entry, [Insert]
    returns [false] for every key and value: [Lookup] takes every key for
    present.  No page is written, and the root, fetched by [FindLeafPage],
    is left pinned once more than before. *)
Theorem Insert_below_a_leaf_root_inserts_nothing :
  ∀ (leaf_max_size internal_max_size : Z) (fuel : nat) (key value : Z)
    (t : BTree.BPlusTree) (p : BTree.BPlusTreePage),
    let bpm := BTree.buffer_pool_manager_ t in
    let r := BTree.root_page_id_ t in
    r ≠ BTree.INVALID_PAGE_ID →
    BTree.pages_ bpm !! r = Some p →
    BTree.IsLeafPage p = true →
    (1 ≤ BTree.GetSize p < 2 ^ 31)%Z →
    ((0 < BTree.pins bpm r)%Z ∨ BTree.frame_available bpm = true) →
    ∃ t', BTree.Tree.Insert leaf_max_size internal_max_size fuel key value t
          = BTree.Ret false t'
          ∧ BTree.Tree.same_pages t t'
          ∧ BTree.pins (BTree.buffer_pool_manager_ t') r = (BTree.pins bpm r + 1)%Z
          ∧ BTree.Tree.log_of t' = BTree.Tree.log_of t ++ [BTree.EvFetchPage r true].
Proof.
  intros lms ims fuel key value t p bpm r. apply Insert_leaf_root.
Qed.

(** X24 on a tree whose root, page 2, is a leaf holding (5, 7): inserting
    (6, 8) returns [false], the leaf holds what it held, and page 2 stays
    pinned. *)
Lemma Insert_below_a_leaf_root_inserts_nothing_witness :
  let t := BTree.mkTree "idx" 2
             (BTree.mkPool 10
                {[2%Z := BTree.Tree.leaf_of [(5, 7)]%Z BTree.INVALID_PAGE_ID]}
                ∅ 3 BTree.Tree.zero_page ∅ []) in
  ∃ t', BTree.Tree.Insert 4 4 0 6 8 t = BTree.Ret false t'
        ∧ BTree.Tree.entries_of t' 2 = Some [(5, 7)]%Z
        ∧ BTree.pins (BTree.buffer_pool_manager_ t') 2 = 1%Z.
Proof.
  intros t.
  destruct (Insert_below_a_leaf_root_inserts_nothing 4 4 0 6 8 t
              (BTree.Tree.leaf_of [(5, 7)]%Z BTree.INVALID_PAGE_ID))
    as (t' & Hret & [Hpages _] & Hpins & _); [try (by vm_compute)..|].
  - right. by vm_compute.
  - exists t'. split; [exact Hret|]. unfold BTree.Tree.entries_of.
    change (BTree.root_page_id_ t) with 2%Z in Hpins.
    rewrite Hpages, Hpins. by vm_compute.
Defined.

(** X25.  [AdjustRoot] on an internal root with one entry makes the child
    of slot 0 the root, files it in the header page, and clears the
    child's parent pointer; the child is pinned and unpinned again by the
    page id it stores.  On a leaf root without entries it sets the root to
    [INVALID_PAGE_ID] and files that.  In both cases it answers [true];
    in every other case it answers [false] and changes nothing.  The
    header record is only changed for an index name that has one. *)
Theorem AdjustRoot_promotes_the_only_child_or_empties_the_tree :
  ∀ (old : Z) (t : BTree.BPlusTree) (p : BTree.BPlusTreePage),
    let bpm := BTree.buffer_pool_manager_ t in
    let child := (BTree.array p 0).2 in
    BTree.pages_ bpm !! old = Some p →
    (BTree.IsLeafPage p = false → BTree.GetSize p = 1%Z →
     is_Some (BTree.pages_ bpm !! child)) →
    (∀ id, (0 ≤ BTree.pins bpm id)%Z) →
    BTree.frame_available bpm = true →
    ∃ b t', BTree.Tree.AdjustRoot old t = BTree.Ret b t'
      ∧ (BTree.IsLeafPage p = false → BTree.GetSize p = 1%Z →
         b = true
         ∧ BTree.root_page_id_ t' = child
         ∧ BTree.Tree.parent_of t' child = Some BTree.INVALID_PAGE_ID
         ∧ (∀ id, id ≠ child →
                  BTree.pages_ (BTree.buffer_pool_manager_ t') !! id
                  = BTree.pages_ bpm !! id)
         ∧ BTree.header_ (BTree.buffer_pool_manager_ t')
           = BTree.Tree.header_after false (BTree.index_name_ t) child (BTree.header_ bpm)
         ∧ ((BTree.GetPageId <$> BTree.pages_ bpm !! child) = Some child →
            ∀ id, BTree.pins (BTree.buffer_pool_manager_ t') id = BTree.pins bpm id))
      ∧ (BTree.IsLeafPage p = true → BTree.GetSize p = 0%Z →
         b = true
         ∧ BTree.root_page_id_ t' = BTree.INVALID_PAGE_ID
         ∧ BTree.pages_ (BTree.buffer_pool_manager_ t') = BTree.pages_ bpm
         ∧ (∀ id, BTree.pins (BTree.buffer_pool_manager_ t') id = BTree.pins bpm id)
         ∧ BTree.header_ (BTree.buffer_pool_manager_ t')
           = BTree.Tree.header_after false (BTree.index_name_ t) BTree.INVALID_PAGE_ID
               (BTree.header_ bpm))
      ∧ (BTree.GetSize p ≠ (if BTree.IsLeafPage p then 0 else 1)%Z →
         b = false ∧ t' = t).
Proof.
  intros old t p bpm child Hp Hchild Hpins Hframe.
  destruct (AdjustRoot_returns old t p) as (b & t' & Hret); try done.
  exists b, t'. split; [done|].
  pose proof (AdjustRoot_spec old t b t' p Hp Hpins Hret) as Hspec.
  destruct (BTree.IsLeafPage p); destruct (BTree.GetSize p =? _)%Z eqn:Hsize;
    [apply Z.eqb_eq in Hsize|apply Z.eqb_neq in Hsize
    |apply Z.eqb_eq in Hsize|apply Z.eqb_neq in Hsize];
    (split; [|split]); try done; intros; try done; try lia.
Qed.

(** X25 on the root 3 whose only child is page 7: page 7 becomes the root
    and loses its parent pointer. *)
Lemma AdjustRoot_promotes_the_only_child_or_empties_the_tree_witness :
  let t := BTree.Tree.family [7]%Z in
  ∃ t', BTree.Tree.AdjustRoot 3 t = BTree.Ret true t'
        ∧ BTree.root_page_id_ t' = 7%Z
        ∧ BTree.Tree.parent_of t' 7 = Some BTree.INVALID_PAGE_ID.
Proof.
  intros t.
  pose (p := default BTree.Tree.zero_page
               (BTree.pages_ (BTree.buffer_pool_manager_ t) !! 3%Z)).
  destruct (AdjustRoot_promotes_the_only_child_or_empties_the_tree 3 t p)
    as (b & t' & Hret & Hinternal & _); [try (by vm_compute)..|].
  - intros _ _. vm_compute. by eexists.
  - destruct Hinternal as (-> & Hroot & Hparent & _); [by vm_compute..|].
    exists t'. split; [exact Hret|].
    change (BTree.array p 0).2 with 7%Z in Hroot, Hparent. by rewrite Hroot, Hparent.
Defined.

(** X26.  [InsertIntoParent] for a node that is the root takes a new page
    from the pool, makes it the root, and lets [PopulateNewRoot] write the
    two children and the key into it as the page comes from the pool: the
    page is not initialised.  Both nodes get the new root as parent and
    keep their entries.  The new root is filed in the header page under a
    name that has a record, and stays pinned. *)
Theorem InsertIntoParent_of_the_root_makes_a_new_root :
  ∀ (internal_max_size : Z) (fuel : nat) (old_node key new_node : Z)
    (t : BTree.BPlusTree) (old new : BTree.BPlusTreePage),
    let bpm := BTree.buffer_pool_manager_ t in
    let a := BTree.allocated_ bpm in
    BTree.pages_ bpm !! old_node = Some old →
    BTree.pages_ bpm !! new_node = Some new →
    BTree.IsRootPage old = true →
    BTree.pages_ bpm !! a = None →
    (∀ id, (0 ≤ BTree.pins bpm id)%Z) →
    (BTree.pinned_frames bpm + 1 < BTree.pool_size_ bpm)%Z →
    ∃ t', BTree.Tree.InsertIntoParent internal_max_size (S fuel) old_node key new_node t
          = BTree.Ret () t'
      ∧ BTree.root_page_id_ t' = a
      ∧ BTree.pages_ (BTree.buffer_pool_manager_ t') !! a
        = Some (BTree.Internal.PopulateNewRoot (BTree.GetPageId old) key
                  (BTree.GetPageId new) (BTree.fresh_ bpm))
      ∧ BTree.Tree.parent_of t' old_node = Some a
      ∧ BTree.Tree.parent_of t' new_node = Some a
      ∧ BTree.Tree.entries_of t' old_node = BTree.Tree.entries_of t old_node
      ∧ BTree.Tree.entries_of t' new_node = BTree.Tree.entries_of t new_node
      ∧ (∀ id, id ≠ a → id ≠ old_node → id ≠ new_node →
               BTree.pages_ (BTree.buffer_pool_manager_ t') !! id = BTree.pages_ bpm !! id)
      ∧ (∀ id, BTree.pins (BTree.buffer_pool_manager_ t') id
               = if decide (id = a) then 1%Z else BTree.pins bpm id)
      ∧ BTree.header_ (BTree.buffer_pool_manager_ t')
        = BTree.Tree.header_after false (BTree.index_name_ t) a (BTree.header_ bpm).
Proof.
  intros ims fuel old_node key new_node t old new bpm a Hold Hnew Hroot Hfresh Hpins Hframes.
  destruct (InsertIntoParent_root_returns ims fuel old_node key new_node t old new)
    as [t' Hret]; try done.
  exists t'. split; [done|]. by eapply InsertIntoParent_root_spec.
Qed.

(** X26 on the root 3 over page 7, with the key 50: page 1000 becomes the
    root with the children 3 and 7, both point to it, and it stays pinned.
    Its page type is that of the zeroed frame. *)
Lemma InsertIntoParent_of_the_root_makes_a_new_root_witness :
  let t := BTree.Tree.family [7]%Z in
  ∃ t', BTree.Tree.InsertIntoParent 4 1 3 50 7 t = BTree.Ret () t'
        ∧ BTree.root_page_id_ t' = 1000%Z
        ∧ BTree.Tree.entries_of t' 1000 = Some [(0, 3); (50, 7)]%Z
        ∧ (BTree.page_type_ <$> BTree.pages_ (BTree.buffer_pool_manager_ t') !! 1000%Z)
          = Some BTree.INVALID_INDEX_PAGE
        ∧ BTree.Tree.parent_of t' 3 = Some 1000%Z
        ∧ BTree.Tree.parent_of t' 7 = Some 1000%Z
        ∧ BTree.pins (BTree.buffer_pool_manager_ t') 1000 = 1%Z.
Proof.
  intros t.
  pose (page := λ id, default BTree.Tree.zero_page
                        (BTree.pages_ (BTree.buffer_pool_manager_ t) !! id)).
  destruct (InsertIntoParent_of_the_root_makes_a_new_root 4 0 3 50 7 t (page 3%Z) (page 7%Z))
    as (t' & Hret & Hroot & Hpage & Hp3 & Hp7 & _ & _ & _ & Hpins & _);
    [try (by vm_compute)..|].
  exists t'. split; [exact Hret|]. split; [exact Hroot|].
  change (BTree.allocated_ (BTree.buffer_pool_manager_ t)) with 1000%Z in Hpage, Hp3, Hp7, Hpins.
  unfold BTree.Tree.entries_of. rewrite Hpage, Hp3, Hp7, Hpins. by vm_compute.
Defined.

(** X27.  [QueueUpChildren] fetches the child of every slot from [i] on, in
    slot order, and appends it to the queue.  It unpins none of them: the
    pin count of a page grows by the number of slots that name it.  No page
    is written. *)
Theorem QueueUpChildren_pins_every_child :
  ∀ (rounds : nat) (this i : Z) (queue : list Z) (t : BTree.BPlusTree)
    (p : BTree.BPlusTreePage),
    let bpm := BTree.buffer_pool_manager_ t in
    let children := (λ j, (BTree.array p j).2) <$> seqZ i (BTree.GetSize p - i) in
    BTree.pages_ bpm !! this = Some p →
    (0 ≤ i)%Z →
    (BTree.GetSize p - i ≤ Z.of_nat rounds)%Z →
    (∀ j, (i ≤ j < BTree.GetSize p)%Z → is_Some (BTree.pages_ bpm !! (BTree.array p j).2)) →
    (BTree.pinned_frames bpm + (BTree.GetSize p - i) ≤ BTree.pool_size_ bpm)%Z →
    ∃ t', BTree.Internal.QueueUpChildren rounds this i queue t
          = BTree.Ret (queue ++ children) t'
      ∧ BTree.pages_ (BTree.buffer_pool_manager_ t') = BTree.pages_ bpm
      ∧ BTree.root_page_id_ t' = BTree.root_page_id_ t
      ∧ ∀ id, BTree.pins (BTree.buffer_pool_manager_ t') id
              = (BTree.pins bpm id
                 + Z.of_nat (length (filter (λ c, c = id) children)))%Z.
Proof.
  intros rounds this i queue t p bpm children Hp Hi Hrounds Hchildren Hframes.
  destruct (QueueUpChildren_returns rounds this p i queue t) as (queue' & t' & Hret);
    try done.
  destruct (QueueUpChildren_spec rounds this p i queue t queue' t' Hp Hi Hret)
    as (-> & Hspec).
  by exists t'.
Qed.

(** X27 on the parent with children 7, 8, 9: the queue receives 7, 8, 9 and
    each of them is left pinned once. *)
Lemma QueueUpChildren_pins_every_child_witness :
  let t := BTree.Tree.family [7; 8; 9]%Z in
  ∃ t', BTree.Internal.QueueUpChildren 3 3 0 [] t = BTree.Ret [7; 8; 9]%Z t'
        ∧ BTree.pins (BTree.buffer_pool_manager_ t') 8 = 1%Z.
Proof.
  intros t.
  pose (p := default BTree.Tree.zero_page
               (BTree.pages_ (BTree.buffer_pool_manager_ t) !! 3%Z)).
  destruct (QueueUpChildren_pins_every_child 3 3 0 [] t p)
    as (t' & Hret & _ & _ & Hpins); [try (by vm_compute)..|].
  - intros j Hj. change (BTree.GetSize p) with 3%Z in Hj.
    assert (j = 0 ∨ j = 1 ∨ j = 2)%Z as [-> | [-> | ->]] by lia; vm_compute; by eexists.
  - exists t'. split; [exact Hret|]. rewrite Hpins. by vm_compute.
Defined.

(** X28.  [Split] of a leaf takes a new page from the pool, initialises it
    as a leaf with the parent of the node and no next page, and moves the
    upper half of the node's entries (the larger half when their number is
    odd) into it.  The node keeps the lower half, no other page is written,
    and the new page stays pinned. *)
Theorem Split_of_a_leaf_moves_the_upper_half_to_a_new_page :
  ∀ (leaf_max_size node : Z) (t : BTree.BPlusTree) (n : BTree.BPlusTreePage),
    let bpm := BTree.buffer_pool_manager_ t in
    let a := BTree.allocated_ bpm in
    BTree.pages_ bpm !! node = Some n →
    (0 ≤ BTree.GetSize n)%Z →
    BTree.pages_ bpm !! a = None →
    BTree.frame_available bpm = true →
    ∃ t' n' nn',
      BTree.Tree.Split_leaf leaf_max_size node t = BTree.Ret a t'
      ∧ BTree.pages_ (BTree.buffer_pool_manager_ t') !! node = Some n'
      ∧ BTree.pages_ (BTree.buffer_pool_manager_ t') !! a = Some nn'
      ∧ n' = BTree.IncreaseSize (-1 * ((1 + BTree.GetSize n) / 2)) n
      ∧ BTree.GetSize n' = (BTree.GetSize n / 2)%Z
      ∧ BTree.GetSize nn' = ((BTree.GetSize n + 1) / 2)%Z
      ∧ BTree.prefix (BTree.array n') (BTree.GetSize n')
          ++ BTree.prefix (BTree.array nn') (BTree.GetSize nn')
        = BTree.prefix (BTree.array n) (BTree.GetSize n)
      ∧ BTree.IsLeafPage nn' = true
      ∧ BTree.GetMaxSize nn' = leaf_max_size
      ∧ BTree.GetPageId nn' = a
      ∧ BTree.GetNextPageId nn' = BTree.INVALID_PAGE_ID
      ∧ BTree.GetParentPageId nn' = BTree.GetParentPageId n
      ∧ (∀ id, id ≠ a → id ≠ node →
               BTree.pages_ (BTree.buffer_pool_manager_ t') !! id = BTree.pages_ bpm !! id)
      ∧ (∀ id, BTree.pins (BTree.buffer_pool_manager_ t') id
               = if decide (id = a) then 1%Z else BTree.pins bpm id)
      ∧ BTree.root_page_id_ t' = BTree.root_page_id_ t.
Proof.
  intros lms node t n bpm a Hn Hsize Hfresh Hframe.
  destruct (Split_leaf_returns lms node t n) as [t' Hret]; try done.
  destruct (Split_leaf_spec lms node t a t' n Hn Hsize Hfresh Hret)
    as (_ & (n' & nn' & H1 & H2 & H3) & H4 & H5 & H6).
  exists t', n', nn'. by repeat (split; [tauto|]).
Qed.

(** X28 on leaf 2 holding (10,100), (11,110), (12,120): page 1000 receives
    (11,110), (12,120), leaf 2 keeps (10,100). *)
Lemma Split_of_a_leaf_moves_the_upper_half_to_a_new_page_witness :
  let t := BTree.Tree.two_leaves [(1, 10); (2, 20)]%Z 10
             [(10, 100); (11, 110); (12, 120)]%Z in
  ∃ t', BTree.Tree.Split_leaf 4 2 t = BTree.Ret 1000%Z t'
        ∧ BTree.Tree.entries_of t' 2 = Some [(10, 100)]%Z
        ∧ BTree.Tree.entries_of t' 1000 = Some [(11, 110); (12, 120)]%Z.
Proof.
  intros t.
  pose (n := default BTree.Tree.zero_page
               (BTree.pages_ (BTree.buffer_pool_manager_ t) !! 2%Z)).
  destruct (Split_of_a_leaf_moves_the_upper_half_to_a_new_page 4 2 t n)
    as (t' & n' & nn' & Hret & Hn' & Hnn' & -> & _ & Hsize & Hentries & _);
    [try (by vm_compute)..|].
  exists t'. split; [exact Hret|].
  change (BTree.allocated_ (BTree.buffer_pool_manager_ t)) with 1000%Z in Hnn'.
  unfold BTree.Tree.entries_of. rewrite Hn', Hnn'. cbn [fmap option_fmap option_map].
  split; [by vm_compute|]. f_equal.
  assert (BTree.prefix (BTree.array n) (BTree.GetSize n)
          = [(10, 100); (11, 110); (12, 120)]%Z) as Hall by (by vm_compute).
  rewrite Hall in Hentries.
  change (BTree.prefix _ (BTree.GetSize (BTree.IncreaseSize _ n)))
    with [(10, 100)]%Z in Hentries.
  by injection Hentries.
Defined.
